(** * WanderApp: the itinerary route handler

    A shallow embedding of [src/app/api/itinerary/route.ts]: the helpers
    ([clamp], [pickCategory], [isNoisyType], [scoreCandidate],
    [orderByNearestNeighbor], [pickStopCount], [splitStopDurations], ...)
    and the two branches of [POST] (single-stop swap and fresh plan);
    besides, the helpers of the page that read a plan and build the swap
    request ([Client]: [estimateCostRange], [onSwapStop]), and the
    earlier, provider-less handler of the route ([Legacy]).

    Conventions of the embedding.
    - A JavaScript number that comes from the request is a [JsNum]: a finite
      value (a rational, as JSON spells it) or one of the three non-finite
      values.  Minutes, ratings and review counts are rationals.
    - Scores and great-circle distances are real numbers ([R]): the source
      computes them with [Math.log10], [Math.sin], [Math.cos], [Math.asin]
      and [Math.sqrt]; binary64 rounding is not modelled, and the
      comparisons of scores and distances ([Rleb], [Rltb]) decide the order
      of the reals.
    - The places provider is a record of functions ([Provider]): within one
      request the same call gives the same answer.  A call that throws is
      a [Throw] carrying the error message.  The searches that the source
      starts together ([Promise.all]) are taken in the order of the array.
    - A value the source reads through [String(...)] or [Number(...)] is
      held as the string or number that coercion gives; a field read with
      [??] is an [option].
    - Strings are byte strings that hold UTF-8: [trim], [length16] and
      [slice16] read them character by character, as the source reads
      its UTF-16 strings.
    - Sums and differences of minutes are exact.  [Math.floor] of a
      product of minutes and a share, which the platform takes on the
      binary64 product, is a function the handler is given beside the
      provider ([floorProduct]); [splitStopDurations] itself is stated with
      the floor of the exact product.
    - [POST] returns a [Response]: the JSON plan, or an error message with
      its HTTP status. *)

From Stdlib Require Import QArith Qminmax Qround ZArith Reals Psatz.
From Stdlib Require Import List String Ascii Bool Permutation Sorted.
Import ListNotations.

Local Open Scope string_scope.
Local Open Scope Q_scope.

(** ** JavaScript values *)

Module Js.

(** A JavaScript number: finite, or [Infinity], [-Infinity], [NaN]. *)
Inductive JsNum : Type :=
| Fin (q : Q)
| PosInf
| NegInf
| NaN.

(** [Number.isFinite]. *)
Definition isFinite (n : JsNum) : bool :=
  match n with Fin _ => true | _ => false end.

(** [x ?? d]: the value, or the default when it is null or undefined. *)
Definition nullish {A : Type} (x : option A) (d : A) : A :=
  match x with Some a => a | None => d end.

(** Truthiness of an optional string: absent and empty are falsy. *)
Definition truthy (s : option string) : bool :=
  match s with Some t => negb (t =? "") | None => false end.

(** The number of bytes of the white space or line terminator that [s]
    starts with, 0 when it starts with none.  [String.prototype.trim]
    strips U+0009 to U+000D, U+0020, U+00A0, U+1680, U+2000 to U+200A,
    U+2028, U+2029, U+202F, U+205F, U+3000 and U+FEFF; in UTF-8 these are
    one byte, [C2 A0], [E1 9A 80], [E2 80 80] to [E2 80 8A], [E2 80 A8],
    [E2 80 A9], [E2 80 AF], [E2 81 9F], [E3 80 80] and [EF BB BF]. *)
Definition spaceBytes (s : string) : nat :=
  match s with
  | String a rest =>
      let x := nat_of_ascii a in
      if (((9 <=? x) && (x <=? 13)) || (x =? 32))%nat then 1%nat
      else
        match rest with
        | String b (String c _) =>
            let y := nat_of_ascii b in
            let z := nat_of_ascii c in
            if ((x =? 194) && (y =? 160))%nat then 2%nat
            else if ((x =? 225) && (y =? 154) && (z =? 128))%nat then 3%nat
            else if ((x =? 226) && (y =? 128)
                     && (((128 <=? z) && (z <=? 138)) || (z =? 168)
                         || (z =? 169) || (z =? 175)))%nat then 3%nat
            else if ((x =? 226) && (y =? 129) && (z =? 159))%nat then 3%nat
            else if ((x =? 227) && (y =? 128) && (z =? 128))%nat then 3%nat
            else if ((x =? 239) && (y =? 187) && (z =? 191))%nat then 3%nat
            else 0%nat
        | String b EmptyString =>
            if ((x =? 194) && (nat_of_ascii b =? 160))%nat then 2%nat
            else 0%nat
        | EmptyString => 0%nat
        end
  | EmptyString => 0%nat
  end.

Fixpoint dropBytes (n : nat) (s : string) : string :=
  match n, s with
  | S n', String _ rest => dropBytes n' rest
  | _, _ => s
  end.

Fixpoint takeBytes (n : nat) (s : string) : string :=
  match n, s with
  | S n', String c rest => String c (takeBytes n' rest)
  | _, _ => EmptyString
  end.

(** [trimStart]: white space is dropped while [s] starts with some;
    [fuel], the length of the string, bounds the rounds. *)
Fixpoint trimStartFrom (fuel : nat) (s : string) : string :=
  match fuel with
  | O => s
  | S fuel' =>
      match spaceBytes s with
      | O => s
      | k => trimStartFrom fuel' (dropBytes k s)
      end
  end.

Definition trimStart (s : string) : string :=
  trimStartFrom (String.length s) s.

(** [s] holds white space only. *)
Definition allSpace (s : string) : bool :=
  match trimStart s with EmptyString => true | _ => false end.

(** [trimEnd]: the string up to the point from which only white space
    follows. *)
Fixpoint trimEnd (s : string) : string :=
  match s with
  | String c rest => if allSpace s then EmptyString else String c (trimEnd rest)
  | EmptyString => EmptyString
  end.

Definition trim (s : string) : string := trimEnd (trimStart s).

(** [s.length]: the number of UTF-16 code units.  A character is one
    unit, or two when its UTF-8 form has four bytes; the bytes [80] to
    [BF] continue a character. *)
Fixpoint length16 (s : string) : nat :=
  match s with
  | EmptyString => 0%nat
  | String c rest =>
      let x := nat_of_ascii c in
      ((if (128 <=? x) && (x <? 192) then 0
        else if 240 <=? x then 2 else 1)
       + length16 rest)%nat
  end.

(** The high surrogate of the four-byte character that [s] starts with,
    in the three bytes generalised UTF-8 gives a lone surrogate. *)
Definition highSurrogate (s : string) : string :=
  match s with
  | String b0 (String b1 (String b2 (String b3 _))) =>
      let cp :=
        (N_of_ascii b0 mod 8 * 262144 + N_of_ascii b1 mod 64 * 4096
         + N_of_ascii b2 mod 64 * 64 + N_of_ascii b3 mod 64)%N in
      let h := (55296 + (cp - 65536) / 1024)%N in
      String (ascii_of_N 237)
        (String (ascii_of_N (128 + h / 64 mod 64))
           (String (ascii_of_N (128 + h mod 64)) EmptyString))
  | _ => EmptyString
  end.

(** [s.slice(0, n)]: the first [n] UTF-16 code units.  A cut between the
    two units of a character leaves its high surrogate. *)
Fixpoint sliceFrom (fuel n : nat) (s : string) : string :=
  match fuel, s with
  | S fuel', String c _ =>
      let x := nat_of_ascii c in
      let k := (if x <? 192 then 1 else if x <? 224 then 2
                else if x <? 240 then 3 else 4)%nat in
      let u := (if x <? 240 then 1 else 2)%nat in
      if (u <=? n)%nat
      then takeBytes k s ++ sliceFrom fuel' (n - u) (dropBytes k s)
      else if (n =? 1)%nat then highSurrogate s else EmptyString
  | _, _ => EmptyString
  end.

Definition slice16 (n : nat) (s : string) : string :=
  sliceFrom (String.length s) n s.

(** [arr[i]] for a number [i]: only a non-negative integer is an index. *)
Definition arrayIndex (i : Q) : option nat :=
  if Qeq_bool i (inject_Z (Qfloor i)) && (0 <=? Qfloor i)%Z
  then Some (Z.to_nat (Qfloor i))
  else None.

Definition at_ {A : Type} (l : list A) (i : Q) : option A :=
  match arrayIndex i with Some k => nth_error l k | None => None end.

(** [arr[i] = v] on a copy whose length is greater than [i]; a number that
    is not an index sets a property and leaves the elements alone. *)
Fixpoint setNth {A : Type} (l : list A) (k : nat) (v : A) : list A :=
  match l, k with
  | [], _ => []
  | _ :: rest, O => v :: rest
  | x :: rest, S k' => x :: setNth rest k' v
  end.

(** [Array.prototype.sort] with a comparator: a stable sort.  [le a b]
    says that the comparator does not ask for [b] before [a]
    ([compare(a, b) <= 0]). *)
Section Sort.
Context {A : Type} (le : A -> A -> bool).

Fixpoint insertBy (x : A) (l : list A) : list A :=
  match l with
  | [] => [x]
  | y :: rest => if le x y then x :: l else y :: insertBy x rest
  end.

Definition sortBy (l : list A) : list A := fold_right insertBy [] l.
End Sort.

(** [Array.prototype.find]. *)
Definition find_ {A : Type} (f : A -> bool) (l : list A) : option A :=
  List.find f l.

(** [arr.includes(k)] on strings. *)
Definition includes (l : list string) (k : string) : bool :=
  existsb (String.eqb k) l.

End Js.
Import Js.

(** ** Data of the handler *)

Inductive TravelMode : Type := DRIVE | WALK.

Record LatLng : Type := mkLatLng { latitude : Q; longitude : Q }.

Record ParkingOption : Type := mkParking {
  pkPlaceId : option string;
  pkName : string;
  pkAddress : option string;
  pkLat : option Q;
  pkLng : option Q;
  pkMapsUri : option string
}.

Record StopDetails : Type := mkStop {
  placeId : string;
  title : string;
  address : option string;
  lat : JsNum;
  lng : JsNum;
  mapsUri : option string;
  rating : option Q;
  userRatingCount : option Q;
  priceLevel : option string;
  openNow : option bool;
  weekdayText : option (list string);
  photoUrl : option string;
  reviewSnippet : option string;
  parking : option ParkingOption
}.

Inductive PlanItem : Type :=
| StopItem (durationMin : Q) (s : StopDetails)
| TravelItem (ttitle : string) (durationMin : Q) (mode : TravelMode).

(** ** Numeric helpers *)

(** [x < y] on finite numbers. *)
Definition Qltb (x y : Q) : bool := negb (Qle_bool y x).

(** [clamp(n, min, max)]. *)
Definition clamp (n : JsNum) (min max : Q) : Q :=
  match n with
  | Fin q => Qmax min (Qmin max q)
  | _ => min
  end.

(** [Math.round]: the nearest integer, halves upwards. *)
Definition round (x : Q) : Z := Qfloor (x + (1 # 2)).

(** [toMinsFromDuration]: the argument is the number the duration string
    denotes once its [s] is removed, [None] when it denotes none ([NaN]);
    zero and [NaN] are falsy and become 900 seconds.  The durations of
    the routes endpoint are finite. *)
Definition toMinsFromDuration (secs : option Q) : Q :=
  let secs :=
    match secs with
    | Some q => if Qeq_bool q 0 then 900 else q
    | None => 900
    end in
  Qmax 5 (inject_Z (round (secs / 60))).

(** [pickStopCount]. *)
Definition pickStopCount (totalMinutes : Q) : nat :=
  if Qle_bool totalMinutes 140 then 2%nat else 3%nat.

(** [splitStopDurations], with [Math.floor(remaining * c)] as a parameter:
    [floorMul remaining c].  The source multiplies in binary64, whose
    product can round over an integer. *)
Definition splitStopDurationsWith (floorMul : Q -> Q -> Z)
    (totalMinutes travelTotal : Q) (stopCount : nat) : list Q :=
  let remaining := Qmax 60 (totalMinutes - travelTotal) in
  if (stopCount =? 2)%nat then
    let a := inject_Z (floorMul remaining 0.55) in
    [a; remaining - a]
  else
    let a := inject_Z (floorMul remaining 0.42) in
    let b := inject_Z (floorMul remaining 0.35) in
    [a; b; remaining - a - b].

(** [splitStopDurations] where the floor of the binary64 product is that
    of the exact one; the handler takes [floorProduct]. *)
Definition splitStopDurations : Q -> Q -> nat -> list Q :=
  splitStopDurationsWith (fun x c => Qfloor (x * c)).

(** [arr.reduce((x, y) => x + y, 0)]. *)
Definition sumQ (l : list Q) : Q := fold_left Qplus l 0.

(** ** Geo utilities *)

Local Open Scope R_scope.

(** [Math.log10]. *)
Definition log10 (x : R) : R := ln x / ln 10.

(** [haversineKm]: great-circle distance, Earth radius 6371 km. *)
Definition haversineKm (a b : LatLng) : R :=
  let R_ := 6371 in
  let dLat := ((Q2R (latitude b) - Q2R (latitude a)) * PI) / 180 in
  let dLon := ((Q2R (longitude b) - Q2R (longitude a)) * PI) / 180 in
  let lat1 := (Q2R (latitude a) * PI) / 180 in
  let lat2 := (Q2R (latitude b) * PI) / 180 in
  let sin1 := sin (dLat / 2) in
  let sin2 := sin (dLon / 2) in
  let h := sin1 * sin1 + cos lat1 * cos lat2 * sin2 * sin2 in
  2 * R_ * asin (Rmin 1 (sqrt h)).

(** Comparisons of real numbers as booleans. *)
Definition Rleb (x y : R) : bool := if Rle_dec x y then true else false.
Definition Rltb (x y : R) : bool := if Rlt_dec x y then true else false.

Local Close Scope R_scope.

(** ** Places, as the provider returns them

    [location] is present when the record carries both coordinates; the
    handler reads a location without them like a missing one (its
    distances are [NaN], and every comparison with [NaN] is false).
    [types] is the empty list when the field is missing or not an array. *)
Record Place : Type := mkPlace {
  id : option string;
  displayName : option string;
  formattedAddress : option string;
  location : option LatLng;
  types : list string;
  pRating : option Q;
  pUserRatingCount : option Q
}.

(** ** Category classifier *)

Inductive Category : Type := food | park | attraction.

Definition Category_eqb (a b : Category) : bool :=
  match a, b with
  | food, food | park, park | attraction, attraction => true
  | _, _ => false
  end.

(** [pickCategory]. *)
Definition pickCategory (t : list string) : Category :=
  let has := includes t in
  if has "restaurant" || has "cafe" || has "bakery" || has "bar"
     || has "meal_takeaway" || has "meal_delivery"
  then food
  else if has "park" || has "natural_feature" || has "campground"
          || has "rv_park" || has "hiking_area"
  then park
  else attraction.

(** The denylist of [isNoisyType]. *)
Definition bad : list string :=
  [ "accounting"; "atm"; "bank"; "car_dealer"; "car_rental"; "car_repair";
    "car_wash"; "courthouse"; "dentist"; "doctor"; "electrician"; "finance";
    "gas_station"; "insurance_agency"; "lawyer"; "local_government_office";
    "moving_company"; "painter"; "pharmacy"; "plumber"; "police";
    "post_office"; "real_estate_agency"; "school"; "storage";
    "transit_station"; "vehicle_inspection"; "hospital" ].

(** [isNoisyType]. *)
Definition isNoisyType (t : list string) : bool :=
  let nonBad := filter (fun x => negb (includes bad x)) t in
  (List.length nonBad =? 0)%nat && (0 <? List.length t)%nat.

(** ** Candidate scorer *)

Definition scenicBoostTypes : list string :=
  [ "tourist_attraction"; "park"; "natural_feature"; "viewpoint";
    "scenic_lookout"; "hiking_area"; "campground" ].

Local Open Scope R_scope.

(** [scoreCandidate]. *)
Definition scoreCandidate (p : Place) (riderMode : bool) : R :=
  let rating := Q2R (nullish (pRating p) 0%Q) in
  let count := Q2R (nullish (pUserRatingCount p) 0%Q) in
  let score := rating * 12 + log10 (Rmax 1 count) * 8 in
  let cat := pickCategory (types p) in
  let boost :=
    match cat with attraction => 1.12 | park => 1.08 | food => 1.0 end in
  if riderMode then
    let t := types p in
    let isScenic := existsb (fun x => includes scenicBoostTypes x) t in
    let hasFood :=
      (includes t "cafe" || includes t "restaurant" || includes t "bakery")%bool in
    if isScenic then score * boost * 1.18
    else if hasFood then score * boost * 1.08
    else score * boost
  else score * boost.

(** The comparator [(a, b) => scoreCandidate(b) - scoreCandidate(a)]:
    it leaves [a] before [b] when [b] does not score higher. *)
Definition byScoreDesc (riderMode : bool) (a b : Place) : bool :=
  Rleb (scoreCandidate b riderMode) (scoreCandidate a riderMode).

Local Close Scope R_scope.

(** ** Query builders and category wishes *)

(** [vibeToQuery]. *)
Definition vibeToQuery (vibe destination : string) : string :=
  if vibe =? "adventure" then "top viewpoints parks trails in " ++ destination
  else if vibe =? "foodie" then "best cafes restaurants bakeries in " ++ destination
  else if vibe =? "relaxed" then "waterfront parks cafes in " ++ destination
  else "top tourist attractions museums in " ++ destination.

Definition wantsIncludes (w : list Category) (c : Category) : bool :=
  existsb (Category_eqb c) w.

(** [desiredCategoriesMulti]. *)
Definition desiredCategoriesMulti (vibes : list string) (stopCount : nat)
    : list Category :=
  let v := vibes in
  let wants := [attraction] in
  let wants := if includes v "foodie" then (wants ++ [food])%list else wants in
  let wants :=
    if includes v "adventure" || includes v "relaxed"
    then (wants ++ [park])%list else wants in
  let wants := if includes v "culture" then (wants ++ [attraction])%list else wants in
  let cycle := [food; park; attraction] in
  let wants :=
    fold_left
      (fun w c => if negb (wantsIncludes w c) then (w ++ [c])%list else w)
      cycle wants in
  firstn stopCount wants.

(** ** Route sequencer *)

(** The inner loop of [orderByNearestNeighbor]: the index of the remaining
    place nearest to [lastLoc].  [bestD] is [None] for
    [Number.POSITIVE_INFINITY]. *)
Fixpoint nearestIdx (lastLoc : LatLng) (remaining : list Place)
    (i bestIdx : nat) (bestD : option R) : nat :=
  match remaining with
  | [] => bestIdx
  | p :: rest =>
      match location p with
      | None => nearestIdx lastLoc rest (S i) bestIdx bestD
      | Some loc =>
          let d := haversineKm lastLoc loc in
          let closer :=
            match bestD with None => true | Some b => Rltb d b end in
          if closer then nearestIdx lastLoc rest (S i) i (Some d)
          else nearestIdx lastLoc rest (S i) bestIdx bestD
      end
  end.

(** [arr.splice(k, 1)]: the array without its element at [k]. *)
Fixpoint removeNth {A : Type} (k : nat) (l : list A) : list A :=
  match l, k with
  | [], _ => []
  | _ :: rest, O => rest
  | x :: rest, S k' => x :: removeNth k' rest
  end.

(** [ordered[ordered.length - 1]?.location]. *)
Fixpoint lastLocation (ordered : list Place) : option LatLng :=
  match ordered with
  | [] => None
  | [p] => location p
  | _ :: rest => lastLocation rest
  end.

(** The [while (remaining.length > 0)] loop; [fuel] bounds its rounds, and
    each round moves one place from [remaining] to [ordered]. *)
Fixpoint nnLoop (fuel : nat) (ordered remaining : list Place) : list Place :=
  match fuel with
  | O => ordered
  | S fuel' =>
      match remaining with
      | [] => ordered
      | first :: rest =>
          match lastLocation ordered with
          | Some lastLoc =>
              let bestIdx := nearestIdx lastLoc remaining 0 0 None in
              match nth_error remaining bestIdx with
              | Some p => nnLoop fuel' (ordered ++ [p])%list (removeNth bestIdx remaining)
              | None => ordered
              end
          | None => nnLoop fuel' (ordered ++ [first])%list rest
          end
      end
  end.

(** [orderByNearestNeighbor]. *)
Definition orderByNearestNeighbor (places : list Place) (riderMode : bool)
    : list Place :=
  if (List.length places <=? 2)%nat then places
  else
    let remaining := sortBy (byScoreDesc riderMode) places in
    match remaining with
    | [] => []
    | first :: rest => nnLoop (List.length rest) [first] rest
    end.

(** ** The places provider *)

(** The outcome of a provider call: its value, or the error it throws. *)
Inductive result (A : Type) : Type :=
| Ok (a : A)
| Throw (msg : string).
Arguments Ok {A} a.
Arguments Throw {A} msg.

(** A text query.  [Near what lat lng] stands for the template
    [`${what} near ${lat},${lng}`]. *)
Inductive Query : Type :=
| Text (q : string)
| Near (what : string) (centerLat centerLng : Q).

(** What [getPlaceDetails] returns, field by field as the handler reads it
    ([dOpenNow] is [regularOpeningHours?.openNow], [dPhotoName] is
    [photos?.[0]?.name], [dReviewText] is [reviews?.[0]?.text?.text]). *)
Record Details : Type := mkDetails {
  dTypes : list string;
  dDisplayName : option string;
  dFormattedAddress : option string;
  dLocation : option LatLng;
  dRating : option Q;
  dUserRatingCount : option Q;
  dPriceLevel : option string;
  dOpenNow : option bool;
  dWeekdayDescriptions : option (list string);
  dPhotoName : option string;
  dReviewText : option string;
  dGoogleMapsUri : option string
}.

(** The three endpoints behind [googleFetch], and the photo media one.  A
    route answer is the number of seconds of [routes[0].duration], [None]
    when the field is missing or is not a number; the endpoint spells a
    duration in digits, so the number is finite.

    Beside them, [floorProduct x c] is [Math.floor(x * c)] as the
    platform computes it, on a binary64 product: the numbers of this
    embedding are exact, and the product of the source can round over an
    integer. *)
Record Provider : Type := mkProvider {
  placesSearchText : Query -> nat -> result (list Place);
  placeDetails : string -> result Details;
  photoMedia : string -> nat -> result (option string);
  routesCompute : JsNum * JsNum -> JsNum * JsNum -> TravelMode -> result (option Q);
  floorProduct : Q -> Q -> Z
}.

(** ** Request and response *)

Module Raw.
(** One element of [body.stops], as the client sends it.  [lat] and
    [lng] are [Number(s?.lat)] and [Number(s?.lng)]. *)
Record Stop : Type := mkStop {
  placeId : option string;
  title : option string;
  durationMin : option JsNum;
  lat : JsNum;
  lng : JsNum
}.
End Raw.

Module Req.
(** The request body.  [None] is a missing (null or undefined) field;
    a numeric field that is present holds [Number(field)]; [vibes] is
    [None] when it is not an array, [excludePlaceIds] is empty when it is
    not one; [swapLat] and [swapLng] are [Number(body?.swapLat)] and
    [Number(body?.swapLng)] ([NaN] when missing); [parkOnce] and
    [riderMode] are [Boolean(...)] of their fields. *)
Record Body : Type := mkBody {
  action : option string;
  destination : option string;
  totalMinutes : option JsNum;
  vibe : option string;
  vibes : option (list string);
  parkOnce : bool;
  riderMode : bool;
  bufferMinutes : option JsNum;
  excludePlaceIds : list string;
  swapIndex : option JsNum;
  swapPlaceId : option string;
  swapLat : JsNum;
  swapLng : JsNum;
  stops : list Raw.Stop
}.
End Req.

(** The plan the handler answers with. *)
Record PlanResponse : Type := mkPlan {
  destination : string;
  totalMinutes : Q;
  vibe : string;
  vibes : list string;
  parkOnce : bool;
  riderMode : bool;
  bufferMinutes : Q;
  source : string;
  items : list PlanItem
}.

(** [NextResponse.json(plan)] or [NextResponse.json({ error }, { status })]. *)
Inductive Response : Type :=
| Json (plan : PlanResponse)
| ErrorJson (error : string) (status : nat).

(** ** The handler's control flow

    A step of the handler goes on with a value, returns a response early,
    or throws (the outer [catch] answers 500 with the message). *)
Inductive Step (A : Type) : Type :=
| Next (a : A)
| Return_ (r : Response)
| Raise (msg : string).
Arguments Next {A} a.
Arguments Return_ {A} r.
Arguments Raise {A} msg.

Definition bind {A B : Type} (m : Step A) (k : A -> Step B) : Step B :=
  match m with
  | Next a => k a
  | Return_ r => Return_ r
  | Raise msg => Raise msg
  end.

(** [await call]: a thrown error propagates. *)
Definition await {A : Type} (r : result A) : Step A :=
  match r with Ok a => Next a | Throw msg => Raise msg end.

(** [if (cond) return response;]. *)
Definition returnIf (cond : bool) (r : Response) : Step unit :=
  if cond then Return_ r else Next tt.

Notation "x <- m ;; k" := (bind m (fun x => k))
  (at level 61, m at next level, right associativity).
Notation "m ;;; k" := (bind m (fun _ => k))
  (at level 61, right associativity).

(** ** Provider wrappers *)

Section Handler.

Variable P : Provider.

(** [searchPlacesText]. *)
Definition searchPlacesText (textQuery : Query) (maxResultCount : nat)
    : result (list Place) :=
  placesSearchText P textQuery maxResultCount.

(** [getPlaceDetails]. *)
Definition getPlaceDetails (placeId : string) : result Details :=
  placeDetails P placeId.

(** [getPhotoUri]. *)
Definition getPhotoUri (photoName : string) (maxWidthPx : nat)
    : result (option string) :=
  photoMedia P photoName maxWidthPx.

(** [computeRouteMinutes]. *)
Definition computeRouteMinutes (origin destination : JsNum * JsNum)
    (travelMode : TravelMode) : result Q :=
  match routesCompute P origin destination travelMode with
  | Ok dur => Ok (toMinsFromDuration dur)
  | Throw msg => Throw msg
  end.

(** [safeText]. *)
Definition safeText (s : option string) (maxLen : nat) : option string :=
  let t := trim (nullish s "") in
  if t =? "" then None
  else if (maxLen <? length16 t)%nat
  then Some (slice16 (maxLen - 1) t ++ "…")
  else Some t.

(** [findParkingNear]. *)
Definition findParkingNear (placeTitle destinationLabel : string)
    : result (option ParkingOption) :=
  let q := "parking near " ++ placeTitle ++ " " ++ destinationLabel in
  match searchPlacesText (Text q) 5 with
  | Throw msg => Throw msg
  | Ok results =>
      match results with
      | [] => Ok None
      | best :: _ =>
          Ok (Some {| pkPlaceId := id best;
                      pkName := nullish (displayName best) "Parking";
                      pkAddress := formattedAddress best;
                      pkLat := option_map latitude (location best);
                      pkLng := option_map longitude (location best);
                      pkMapsUri := None |})
      end
  end.

(** [enrichParkingMapsUri]: a failed details call leaves the option as
    it is. *)
Definition enrichParkingMapsUri (parking : option ParkingOption)
    : option ParkingOption :=
  match parking with
  | None => None
  | Some pk =>
      if truthy (pkPlaceId pk) then
        match getPlaceDetails (nullish (pkPlaceId pk) "") with
        | Ok details =>
            Some {| pkPlaceId := pkPlaceId pk;
                    pkName := pkName pk;
                    pkAddress := pkAddress pk;
                    pkLat := pkLat pk;
                    pkLng := pkLng pk;
                    pkMapsUri := dGoogleMapsUri details |}
        | Throw _ => Some pk
        end
      else Some pk
  end.

(** [try { base = await findParkingNear(...); parking = await
    enrichParkingMapsUri(key, base) } catch { parking = undefined }]. *)
Definition tryParking (placeTitle destinationLabel : string)
    : option ParkingOption :=
  match findParkingNear placeTitle destinationLabel with
  | Ok base => enrichParkingMapsUri base
  | Throw _ => None
  end.

(** The enrichment of one accepted stop, written twice in the source (swap
    and fresh plan): photo, review snippet, opening hours, parking, and
    the [StopDetails] record.  [fallbackTitle] is [s.title] in the swap
    branch and absent in the fresh one. *)
Definition enrichStop (destination placeId : string)
    (fallbackTitle : option string) (details : Details) : Step StopDetails :=
  photoUrl <-
    (if truthy (dPhotoName details)
     then await (getPhotoUri (nullish (dPhotoName details) "") 1000)
     else Next None) ;;
  let reviewSnippet := safeText (dReviewText details) 170 in
  let weekdayText := dWeekdayDescriptions details in
  let parking := tryParking (nullish (dDisplayName details) "") destination in
  Next {| placeId := placeId;
          title :=
            nullish (dDisplayName details) (nullish fallbackTitle "Place");
          address := dFormattedAddress details;
          lat := match dLocation details with
                 | Some l => Fin (latitude l) | None => NaN end;
          lng := match dLocation details with
                 | Some l => Fin (longitude l) | None => NaN end;
          mapsUri := dGoogleMapsUri details;
          rating := dRating details;
          userRatingCount := dUserRatingCount details;
          priceLevel := dPriceLevel details;
          openNow := dOpenNow details;
          weekdayText := weekdayText;
          photoUrl := photoUrl;
          reviewSnippet := reviewSnippet;
          parking := parking |}.

(** ** Travel legs and plan assembly (shared by both branches) *)

(** [parkOnce && parkOnceLocation?.lat != null && parkOnceLocation?.lng !=
    null]: the parking place with its coordinates, when the test holds. *)
Definition parkingShown (parkOnce : bool) (parkOnceLocation : option ParkingOption)
    : option (ParkingOption * Q * Q) :=
  if parkOnce then
    match parkOnceLocation with
    | Some pk =>
        match pkLat pk, pkLng pk with
        | Some la, Some lo => Some (pk, la, lo)
        | _, _ => None
        end
    | None => None
    end
  else None.

(** [if (parkOnce && stops.length > 0) try { ... } catch { undefined }]. *)
Definition lookupParkOnce (parkOnce : bool) (destination : string)
    (stops : list StopDetails) : option ParkingOption :=
  if parkOnce then
    match stops with
    | first :: _ => tryParking (title first) destination
    | [] => None
    end
  else None.

(** [for (i = 0; i < stops.length - 1; i++)]: one leg per consecutive
    pair, each with the buffer added. *)
Fixpoint legsBetween (travelMode : TravelMode) (bufferMinutes : Q)
    (stops : list StopDetails) : Step (list Q) :=
  match stops with
  | a :: (b :: _) as rest =>
      mins <- await (computeRouteMinutes (lat a, lng a) (lat b, lng b) travelMode) ;;
      more <- legsBetween travelMode bufferMinutes rest ;;
      Next (mins + bufferMinutes :: more)
  | _ => Next []
  end.

(** The block that fills [travelMins]. *)
Definition computeTravelMins (parkOnce : bool)
    (parkOnceLocation : option ParkingOption) (bufferMinutes : Q)
    (stops : list StopDetails) : Step (list Q) :=
  match parkingShown parkOnce parkOnceLocation, stops with
  | Some (_, pLat, pLng), firstStop :: _ =>
      fromParkingToFirst <-
        await (computeRouteMinutes (Fin pLat, Fin pLng)
                 (lat firstStop, lng firstStop) WALK) ;;
      more <- legsBetween WALK bufferMinutes stops ;;
      Next (fromParkingToFirst + bufferMinutes :: more)
  | _, _ => legsBetween DRIVE bufferMinutes stops
  end.

(** The synthetic leading stop of a park-once plan. *)
Definition parkOnceItem (pk : ParkingOption) (pLat pLng : Q) : PlanItem :=
  StopItem 5
    {| placeId := if truthy (pkPlaceId pk) then nullish (pkPlaceId pk) "" else "parking";
       title := "Park once";
       address := pkAddress pk;
       lat := Fin pLat;
       lng := Fin pLng;
       mapsUri := pkMapsUri pk;
       rating := None;
       userRatingCount := None;
       priceLevel := None;
       openNow := None;
       weekdayText := None;
       photoUrl := None;
       reviewSnippet := None;
       parking :=
         Some {| pkPlaceId := pkPlaceId pk;
                 pkName := pkName pk;
                 pkAddress := pkAddress pk;
                 pkLat := Some pLat;
                 pkLng := Some pLng;
                 pkMapsUri := pkMapsUri pk |} |}.

(** [stops[i]?.title ?? fallback]. *)
Definition titleAt (stops : list StopDetails) (i : nat) (fallback : string)
    : string :=
  match nth_error stops i with Some s => title s | None => fallback end.

(** The stop loop of the park-once branch: walking legs, read one place
    further in [travelMins]. *)
Definition walkItems (durationAt : nat -> Q) (stops : list StopDetails)
    (travelMins : list Q) : list PlanItem :=
  flat_map
    (fun i =>
       match nth_error stops i with
       | None => []
       | Some s =>
           StopItem (durationAt i) s ::
           (if (i <? List.length stops - 1)%nat
            then [TravelItem ("Walk to " ++ titleAt stops (i + 1) "next stop")
                    (nullish (nth_error travelMins (i + 1)) 10) WALK]
            else [])
       end)
    (seq 0 (List.length stops)).

(** The stop loop of the other branch: driving legs. *)
Definition driveItems (durationAt : nat -> Q) (stops : list StopDetails)
    (travelMins : list Q) : list PlanItem :=
  flat_map
    (fun i =>
       match nth_error stops i with
       | None => []
       | Some s =>
           StopItem (durationAt i) s ::
           match nth_error travelMins i with
           | Some leg =>
               [TravelItem ("Drive to " ++ titleAt stops (i + 1) "next stop")
                  leg DRIVE]
           | None => []
           end
       end)
    (seq 0 (List.length stops)).

(** The assembly of [items]; [durationAt i] is the duration given to stop
    [i]. *)
Definition assembleItems (durationAt : nat -> Q) (parkOnce : bool)
    (parkOnceLocation : option ParkingOption) (stops : list StopDetails)
    (travelMins : list Q) : list PlanItem :=
  match parkingShown parkOnce parkOnceLocation with
  | Some (pk, pLat, pLng) =>
      (parkOnceItem pk pLat pLng ::
       match travelMins with
       | first :: _ =>
           [TravelItem ("Walk to " ++ titleAt stops 0 "first stop") first WALK]
       | [] => []
       end
       ++ walkItems durationAt stops travelMins)%list
  | None => driveItems durationAt stops travelMins
  end.

(** ** Swap branch *)

(** An element of [stopsInput]. *)
Record StopInput : Type := mkStopInput {
  siPlaceId : string;
  siTitle : string;
  siDurationMin : Q;
  siLat : JsNum;
  siLng : JsNum
}.

(** The callback of [rawStops.map(...)]. *)
Definition stopInputOf (s : Raw.Stop) : StopInput :=
  {| siPlaceId := trim (nullish (Raw.placeId s) "");
     siTitle := trim (nullish (Raw.title s) "");
     siDurationMin := clamp (nullish (Raw.durationMin s) (Fin 40)) 20 180;
     siLat := Raw.lat s;
     siLng := Raw.lng s |}.

(** [stopsInput]: the raw stops normalised, those without an id dropped. *)
Definition stopsInputOf (rawStops : list Raw.Stop) : list StopInput :=
  filter (fun s => negb (siPlaceId s =? "")) (map stopInputOf rawStops).

(** [Number.isFinite(swapLat) ? swapLat : currentStop?.lat], kept when it
    passes the later [Number.isFinite] test. *)
Definition centerOf (swap : JsNum) (current : option JsNum) : option Q :=
  match swap with
  | Fin q => Some q
  | _ => match current with Some (Fin q) => Some q | _ => None end
  end.

(** [excludeIds]: the ids of the input stops, [swapPlaceId] deleted. *)
Definition excludeIdsOf (stopsInput : list StopInput) (swapPlaceId : string)
    : list string :=
  filter (fun x => negb (x =? swapPlaceId)) (map siPlaceId stopsInput).

(** [haversineKm(center, p.location) <= maxKm]. *)
Definition withinKm (center : LatLng) (p : Place) (maxKm : R) : bool :=
  match location p with
  | Some loc => Rleb (haversineKm center loc) maxKm
  | None => false
  end.

(** [filtered] of the swap branch. *)
Definition swapFiltered (candidates : list Place) (excludeIds : list string)
    (targetCategory : Category) (swapCenter : LatLng) (maxKm : R)
    (riderMode : bool) : list Place :=
  sortBy (byScoreDesc riderMode)
    (filter (fun p => withinKm swapCenter p maxKm)
    (filter (fun p => Category_eqb (pickCategory (types p)) targetCategory)
    (filter (fun p => negb (isNoisyType (types p)))
    (filter (fun p => negb (includes excludeIds (nullish (id p) "")))
    (filter (fun p => truthy (id p) &&
                      match location p with Some _ => true | None => false end)
       candidates))))).

(** The loop over [filtered.slice(0, 12)] that chooses [replacement]. *)
Fixpoint pickReplacement (cands : list Place) : option Place :=
  match cands with
  | [] => None
  | cand :: rest =>
      let candId := nullish (id cand) "" in
      if candId =? "" then pickReplacement rest
      else
        match getPlaceDetails candId with
        | Ok details =>
            match dOpenNow details with
            | Some false => pickReplacement rest
            | _ => Some cand
            end
        | Throw _ => pickReplacement rest
        end
  end.

(** [nextStops]: a copy with the place id at [swapIndex] replaced. *)
Definition nextStopsOf (stopsInput : list StopInput) (swapIndex : Q)
    (replacementId : string) : list StopInput :=
  match arrayIndex swapIndex with
  | Some k =>
      match nth_error stopsInput k with
      | Some s =>
          setNth stopsInput k
            {| siPlaceId := replacementId;
               siTitle := siTitle s;
               siDurationMin := siDurationMin s;
               siLat := siLat s;
               siLng := siLng s |}
      | None => stopsInput
      end
  | None => stopsInput
  end.

(** The enrichment loop of the swap branch: a closed stop ends the
    request. *)
Fixpoint enrichAll (destination : string) (nextStops : list StopInput)
    : Step (list StopDetails) :=
  match nextStops with
  | [] => Next []
  | s :: rest =>
      details <- await (getPlaceDetails (siPlaceId s)) ;;
      returnIf
        (match dOpenNow details with Some false => true | _ => false end)
        (ErrorJson
           ("One of the stops is closed right now ("
            ++ nullish (dDisplayName details) "Place"
            ++ "). Please regenerate.") 404) ;;;
      stop <- enrichStop destination (siPlaceId s) (Some (siTitle s)) details ;;
      more <- enrichAll destination rest ;;
      Next (stop :: more)
  end.

(** [vibesFinal] and [vibeLabel]. *)
Definition vibesFinalOf (body : Req.Body) : list string :=
  match nullish (Req.vibes body) [] with
  | [] => [nullish (Req.vibe body) "culture"]
  | vibes => vibes
  end.

Definition vibeLabelOf (vibesFinal : list string) : string :=
  if (1 <? List.length vibesFinal)%nat then "mixed" else hd "" vibesFinal.

Definition missingKey : string :=
  "Missing GOOGLE_MAPS_API_KEY. Add it to .env.local and restart npm run dev.".

(** The candidate pool of the swap, from the category of the stop being
    swapped to [filtered]. *)
Definition swapPool (parkOnce riderMode : bool) (stopsInput : list StopInput)
    (swapPlaceId : string) (centerLat centerLng : Q) : list Place :=
  let swapTypes :=
    match getPlaceDetails swapPlaceId with
    | Ok d => dTypes d
    | Throw _ => []
    end in
  let targetCategory := pickCategory swapTypes in
  let qNearby :=
    match targetCategory with
    | food => Near "cafes restaurants" centerLat centerLng
    | park => Near "parks viewpoints" centerLat centerLng
    | attraction => Near "tourist attractions museums" centerLat centerLng
    end in
  let candidates :=
    match searchPlacesText qNearby 30 with
    | Ok places => places
    | Throw _ => []
    end in
  let excludeIds := excludeIdsOf stopsInput swapPlaceId in
  let swapCenter := {| latitude := centerLat; longitude := centerLng |} in
  let maxKm := if parkOnce then 2.0%R else 4.0%R in
  swapFiltered candidates excludeIds targetCategory swapCenter maxKm riderMode.

(** The rebuild of the plan from [nextStops]: enrichment, parking, legs,
    durations, items, response. *)
Definition swapRebuild (destination : string) (totalMinutes : Q)
    (vibeLabel : string) (vibesFinal : list string) (parkOnce riderMode : bool)
    (bufferMinutes : Q) (nextStops : list StopInput) : Step Response :=
  stops <- enrichAll destination nextStops ;;
  let parkOnceLocation := lookupParkOnce parkOnce destination stops in
  travelMins <-
    computeTravelMins parkOnce parkOnceLocation bufferMinutes stops ;;
  let stopDurations :=
    map (fun s => clamp (Fin (siDurationMin s)) 20 180) nextStops in
  let items :=
    assembleItems (fun i => nullish (nth_error stopDurations i) 40)
      parkOnce parkOnceLocation stops travelMins in
  Next (Json {| destination := destination;
                totalMinutes := totalMinutes;
                vibe := vibeLabel;
                vibes := vibesFinal;
                parkOnce := parkOnce;
                riderMode := riderMode;
                bufferMinutes := bufferMinutes;
                source := "google";
                items := items |}).

(** The branch [if (action === "swap")]. *)
Definition swapBranch (key : option string) (body : Req.Body) : Step Response :=
  let destination := trim (nullish (Req.destination body) "") in
  let totalMinutes := clamp (nullish (Req.totalMinutes body) (Fin 150)) 120 420 in
  let vibesFinal := vibesFinalOf body in
  let vibeLabel := vibeLabelOf vibesFinal in
  let parkOnce := Req.parkOnce body in
  let riderMode := Req.riderMode body in
  let bufferMinutes := clamp (nullish (Req.bufferMinutes body) (Fin 0)) 0 20 in
  let swapIndex := clamp (nullish (Req.swapIndex body) (Fin (-1))) 0 10 in
  let swapPlaceId := trim (nullish (Req.swapPlaceId body) "") in
  let swapLat := Req.swapLat body in
  let swapLng := Req.swapLng body in
  let rawStops := Req.stops body in
  returnIf (destination =? "") (ErrorJson "Destination is required" 400) ;;;
  returnIf (negb (truthy key)) (ErrorJson missingKey 500) ;;;
  let stopsInput := stopsInputOf rawStops in
  returnIf (List.length stopsInput <? 2)%nat
    (ErrorJson "Not enough stops to swap" 400) ;;;
  returnIf (Qltb swapIndex 0
            || Qle_bool (inject_Z (Z.of_nat (List.length stopsInput))) swapIndex)
    (ErrorJson "Invalid swap index" 400) ;;;
  let currentStop := at_ stopsInput swapIndex in
  let centerLat := centerOf swapLat (option_map siLat currentStop) in
  let centerLng := centerOf swapLng (option_map siLng currentStop) in
  match swapPlaceId =? "", centerLat, centerLng with
  | false, Some centerLat, Some centerLng =>
      let filtered :=
        swapPool parkOnce riderMode stopsInput swapPlaceId centerLat centerLng in
      match pickReplacement (firstn 12 filtered) with
      | None => Return_ (ErrorJson "No OPEN replacement found nearby" 404)
      | Some replacement =>
          let nextStops :=
            nextStopsOf stopsInput swapIndex (nullish (id replacement) "") in
          swapRebuild destination totalMinutes vibeLabel vibesFinal parkOnce
            riderMode bufferMinutes nextStops
      end
  | _, _, _ => Return_ (ErrorJson "Invalid swap request" 400)
  end.

(** ** Fresh plan *)

(** [Promise.all(queries.map(q => searchPlacesText(key, q, 20)))], the
    calls taken in order; the first failure is the one that propagates. *)
Fixpoint searchAll (queries : list string) : Step (list (list Place)) :=
  match queries with
  | [] => Next []
  | q :: rest =>
      r <- await (searchPlacesText (Text q) 20) ;;
      more <- searchAll rest ;;
      Next (r :: more)
  end.

(** The [byId] map filled in order: the first place of each id is kept. *)
Fixpoint mergeById (seen : list string) (places : list Place) : list Place :=
  match places with
  | [] => []
  | p :: rest =>
      if truthy (id p) && negb (includes seen (nullish (id p) ""))
      then p :: mergeById (nullish (id p) "" :: seen) rest
      else mergeById seen rest
  end.

(** The rating gate and the radius test of the fresh pool filter. *)
Definition qualityGate (destCenter : option LatLng) (radiusKm : R) (p : Place)
    : bool :=
  let rating := nullish (pRating p) 0 in
  let count := nullish (pUserRatingCount p) 0 in
  if Qle_bool 20 count && Qltb 0 rating && Qltb rating 4.1 then false
  else if Qle_bool 5 count && Qltb 0 rating && Qltb rating 3.9 then false
  else
    match destCenter with
    | Some center => if negb (withinKm center p radiusKm) then false else true
    | None => true
    end.

(** [filtered] of the fresh plan. *)
Definition freshFiltered (pooled : list Place) (excludeSet : list string)
    (destCenter : option LatLng) (riderMode : bool) : list Place :=
  let radiusKm := 10%R in
  sortBy (byScoreDesc riderMode)
    (filter (qualityGate destCenter radiusKm)
    (filter (fun p => negb (isNoisyType (types p)))
    (filter (fun p => truthy (id p) &&
                      match location p with Some _ => true | None => false end)
    (filter (fun p => truthy (id p) &&
                      negb (includes excludeSet (nullish (id p) "")))
       pooled)))).

(** [x.id === p.id]. *)
Definition sameId (x p : Place) : bool :=
  match id x, id p with
  | Some a, Some b => a =? b
  | None, None => true
  | _, _ => false
  end.

Definition isPicked (picked : list Place) (p : Place) : bool :=
  existsb (fun x => sameId x p) picked.

(** [pickFromPool]. *)
Definition pickFromPool (picked pool : list Place) (cat : Category)
    : option Place :=
  find_ (fun p => Category_eqb (pickCategory (types p)) cat
                  && negb (isPicked picked p)) pool.

(** [fillFrom]: at most [fuel] rounds (each adds one place, and the loop
    stops at [stopCount] places). *)
Fixpoint fillFrom (fuel stopCount : nat) (pool picked : list Place)
    : list Place :=
  match fuel with
  | O => picked
  | S fuel' =>
      if (List.length picked <? stopCount)%nat then
        match find_ (fun p => negb (isPicked picked p)) pool with
        | Some next => fillFrom fuel' stopCount pool (picked ++ [next])%list
        | None => picked
        end
      else picked
  end.

(** A pool of places within [walkKm] of the anchor. *)
Definition walkPool (parkOnce : bool) (anchorLoc : option LatLng)
    (walkKm : R) (filtered : list Place) : list Place :=
  match parkOnce, anchorLoc with
  | true, Some a => filter (fun p => withinKm a p walkKm) filtered
  | _, _ => filtered
  end.

(** [picked]: the anchor, one place per wanted category, then the fill. *)
Definition pickStops (filtered : list Place) (want : list Category)
    (parkOnce : bool) (stopCount : nat) : list Place :=
  let anchorCat := hd_error want in
  let anchor :=
    match
      find_ (fun p => match anchorCat with
                      | Some c => Category_eqb (pickCategory (types p)) c
                      | None => false
                      end) filtered
    with
    | Some a => Some a
    | None => hd_error filtered
    end in
  let picked := match anchor with Some a => [a] | None => [] end in
  let anchorLoc := match anchor with Some a => location a | None => None end in
  let poolPrimary := walkPool parkOnce anchorLoc 1.5%R filtered in
  let poolRelaxed := walkPool parkOnce anchorLoc 3%R filtered in
  let picked :=
    fold_left
      (fun picked cat =>
         match pickFromPool picked poolPrimary cat with
         | Some next => (picked ++ [next])%list
         | None =>
             match pickFromPool picked poolRelaxed cat with
             | Some next => (picked ++ [next])%list
             | None =>
                 match pickFromPool picked filtered cat with
                 | Some next => (picked ++ [next])%list
                 | None => picked
                 end
             end
         end)
      (tl want) picked in
  let picked := fillFrom stopCount stopCount poolPrimary picked in
  let picked := fillFrom stopCount stopCount poolRelaxed picked in
  fillFrom stopCount stopCount filtered picked.

(** The rider-mode comparator: distance from the anchor, ascending; places
    without a location compare equal. *)
Definition byAnchorDistance (anchorLoc : LatLng) (a b : Place) : bool :=
  match location a, location b with
  | Some la, Some lb => Rleb (haversineKm anchorLoc la) (haversineKm anchorLoc lb)
  | _, _ => true
  end.

(** [ordered], after both sequencing passes. *)
Definition orderStops (picked : list Place) (parkOnce riderMode : bool)
    : list Place :=
  let anchorLoc := match picked with a :: _ => location a | [] => None end in
  let ordered :=
    if parkOnce then
      match picked with
      | first :: rest => first :: orderByNearestNeighbor rest riderMode
      | [] => []
      end
    else orderByNearestNeighbor picked riderMode in
  match riderMode, anchorLoc, ordered with
  | true, Some a, first :: rest =>
      if (3 <=? List.length ordered)%nat
      then first :: sortBy (byAnchorDistance a) rest
      else ordered
  | _, _, _ => ordered
  end.

(** The enrichment loop of the fresh plan: closed places are skipped, and
    the loop ends at [stopCount] stops or [maxAttempts] attempts. *)
Fixpoint enrichOpen (destination : string) (stopCount maxAttempts : nat)
    (candidatesOrdered : list Place) (stops : list StopDetails)
    (usedIds : list string) (attempts : nat) : Step (list StopDetails) :=
  match candidatesOrdered with
  | [] => Next stops
  | p :: rest =>
      if (stopCount <=? List.length stops)%nat then Next stops
      else if (maxAttempts <=? attempts)%nat then Next stops
      else
        let attempts := S attempts in
        let placeId := nullish (id p) "" in
        if placeId =? "" then
          enrichOpen destination stopCount maxAttempts rest stops usedIds attempts
        else if includes usedIds placeId then
          enrichOpen destination stopCount maxAttempts rest stops usedIds attempts
        else
          let usedIds := placeId :: usedIds in
          details <- await (getPlaceDetails placeId) ;;
          match dOpenNow details with
          | Some false =>
              enrichOpen destination stopCount maxAttempts rest stops usedIds
                attempts
          | _ =>
              stop <- enrichStop destination placeId None details ;;
              enrichOpen destination stopCount maxAttempts rest
                (stops ++ [stop])%list usedIds attempts
          end
  end.

(** The end of the fresh plan, once [stops] holds the open stops:
    parking, legs, durations, items, response. *)
Definition freshFinish (destination : string) (totalMinutes : Q)
    (vibeLabel : string) (vibesFinal : list string) (parkOnce riderMode : bool)
    (bufferMinutes : Q) (stops : list StopDetails) : Step Response :=
  let parkOnceLocation := lookupParkOnce parkOnce destination stops in
  travelMins <- computeTravelMins parkOnce parkOnceLocation bufferMinutes stops ;;
  let travelTotal := sumQ travelMins in
  let stopDurations :=
    splitStopDurationsWith (floorProduct P) totalMinutes travelTotal
      (List.length stops) in
  let items :=
    assembleItems (fun i => Qmax 25 (nullish (nth_error stopDurations i) 40))
      parkOnce parkOnceLocation stops travelMins in
  Next (Json {| destination := destination;
                totalMinutes := totalMinutes;
                vibe := vibeLabel;
                vibes := vibesFinal;
                parkOnce := parkOnce;
                riderMode := riderMode;
                bufferMinutes := bufferMinutes;
                source := "google";
                items := items |}).

(** From the merged pool to the open stops: the filter, the selection, the
    sequencing and the enrichment, with the two not-enough-places
    answers. *)
Definition freshSelect (destination : string) (vibesFinal : list string)
    (parkOnce riderMode : bool) (excludeSet : list string) (stopCount : nat)
    (pooled : list Place) (destCenter : option LatLng)
    : Step (list StopDetails) :=
  let filtered := freshFiltered pooled excludeSet destCenter riderMode in
  returnIf (List.length filtered <? 2)%nat
    (ErrorJson "Not enough high-quality places found" 404) ;;;
  let want := desiredCategoriesMulti vibesFinal stopCount in
  let picked := pickStops filtered want parkOnce stopCount in
  let candidatesOrdered := orderStops picked parkOnce riderMode in
  let maxAttempts := Nat.min (List.length candidatesOrdered) (stopCount * 8) in
  stops <- enrichOpen destination stopCount maxAttempts candidatesOrdered [] [] 0 ;;
  returnIf (List.length stops <? 2)%nat
    (ErrorJson "Not enough OPEN places found right now" 404) ;;;
  Next stops.

(** The fresh plan up to its open stops: the searches and the merged
    pool, then [freshSelect]. *)
Definition freshStops (destination : string) (vibesFinal : list string)
    (parkOnce riderMode : bool) (excludeSet : list string) (stopCount : nat)
    : Step (list StopDetails) :=
  let vibeQueries := map (fun v => vibeToQuery v destination) vibesFinal in
  destPlaces <- await (searchPlacesText (Text destination) 3) ;;
  let destCenter :=
    match destPlaces with p :: _ => location p | [] => None end in
  let qAttraction := "top attractions museums landmarks in " ++ destination in
  let qFood := "best cafes restaurants bakeries in " ++ destination in
  let qPark := "best parks viewpoints waterfront in " ++ destination in
  let qScenic := "scenic viewpoints waterfront drives in " ++ destination in
  let qRideCoffee := "coffee stops with parking in " ++ destination in
  vibeResults <- searchAll vibeQueries ;;
  candA <- await (searchPlacesText (Text qAttraction) 20) ;;
  candF <- await (searchPlacesText (Text qFood) 20) ;;
  candP <- await (searchPlacesText (Text qPark) 20) ;;
  candScenic <- await (searchPlacesText (Text qScenic) 20) ;;
  candRideCoffee <-
    await (searchPlacesText (Text (if riderMode then qRideCoffee else qFood)) 20) ;;
  let candVibe := List.concat vibeResults in
  let pooled :=
    mergeById []
      (candA ++ candF ++ candP ++ candVibe ++ candScenic ++ candRideCoffee)%list in
  freshSelect destination vibesFinal parkOnce riderMode excludeSet stopCount
    pooled destCenter.

(** The part of [POST] below the swap branch. *)
Definition freshBranch (key : option string) (body : Req.Body) : Step Response :=
  let destination := trim (nullish (Req.destination body) "") in
  let totalMinutes := clamp (nullish (Req.totalMinutes body) (Fin 150)) 120 420 in
  let vibesFinal := vibesFinalOf body in
  let vibeLabel := vibeLabelOf vibesFinal in
  let parkOnce := Req.parkOnce body in
  let riderMode := Req.riderMode body in
  let bufferMinutes := clamp (nullish (Req.bufferMinutes body) (Fin 0)) 0 20 in
  let excludeSet :=
    filter (fun x => negb (x =? "")) (Req.excludePlaceIds body) in
  returnIf (destination =? "") (ErrorJson "Destination is required" 400) ;;;
  returnIf (negb (truthy key)) (ErrorJson missingKey 500) ;;;
  let stopCount := pickStopCount totalMinutes in
  stops <- freshStops destination vibesFinal parkOnce riderMode excludeSet
             stopCount ;;
  freshFinish destination totalMinutes vibeLabel vibesFinal parkOnce riderMode
    bufferMinutes stops.

(** ** [POST] *)

(** [POST]: [key] is [process.env.GOOGLE_MAPS_API_KEY]; an error thrown
    anywhere is answered with status 500 and its message. *)
Definition POST (key : option string) (body : Req.Body) : Response :=
  let action := trim (nullish (Req.action body) "") in
  match
    (if action =? "swap" then swapBranch key body else freshBranch key body)
  with
  | Next r => r
  | Return_ r => r
  | Raise msg => ErrorJson msg 500
  end.

End Handler.

(** * Vocabulary of the statements *)

(** The stop count the fresh-plan path works with (the value of
    [stopCount] in [POST]). *)
Definition stopCountOf (body : Req.Body) : nat :=
  pickStopCount (clamp (nullish (Req.totalMinutes body) (Fin 150)) 120 420).

(** A place with another rating, or another review count. *)
Definition withRating (p : Place) (r : option Q) : Place :=
  {| id := id p; displayName := displayName p;
     formattedAddress := formattedAddress p; location := location p;
     types := types p; pRating := r;
     pUserRatingCount := pUserRatingCount p |}.

Definition withReviewCount (p : Place) (c : option Q) : Place :=
  {| id := id p; displayName := displayName p;
     formattedAddress := formattedAddress p; location := location p;
     types := types p; pRating := pRating p;
     pUserRatingCount := c |}.

(** The request read the way [POST] reads it. *)
Definition actionOf (body : Req.Body) : string :=
  trim (nullish (Req.action body) "").

Definition destinationOf (body : Req.Body) : string :=
  trim (nullish (Req.destination body) "").

Definition totalMinutesOf (body : Req.Body) : Q :=
  clamp (nullish (Req.totalMinutes body) (Fin 150)) 120 420.

Definition bufferMinutesOf (body : Req.Body) : Q :=
  clamp (nullish (Req.bufferMinutes body) (Fin 0)) 0 20.

Definition swapIndexOf (body : Req.Body) : Q :=
  clamp (nullish (Req.swapIndex body) (Fin (-1))) 0 10.

Definition swapPlaceIdOf (body : Req.Body) : string :=
  trim (nullish (Req.swapPlaceId body) "").

Definition swapStopsInput (body : Req.Body) : list StopInput :=
  stopsInputOf (Req.stops body).

(** The swap request passes every check before the candidate search;
    the value is the centre of that search. *)
Definition swapAccepted (key : option string) (body : Req.Body)
    : option (Q * Q) :=
  let stopsInput := swapStopsInput body in
  let swapIndex := swapIndexOf body in
  let currentStop := at_ stopsInput swapIndex in
  if (destinationOf body =? "")
     || negb (truthy key)
     || (List.length stopsInput <? 2)%nat
     || (Qltb swapIndex 0
         || Qle_bool (inject_Z (Z.of_nat (List.length stopsInput))) swapIndex)
     || (swapPlaceIdOf body =? "")
  then None
  else
    match centerOf (Req.swapLat body) (option_map siLat currentStop),
          centerOf (Req.swapLng body) (option_map siLng currentStop) with
    | Some centerLat, Some centerLng => Some (centerLat, centerLng)
    | _, _ => None
    end.

(** [filtered] of an accepted swap request. *)
Definition swapPoolOf (P : Provider) (body : Req.Body)
    (centerLat centerLng : Q) : list Place :=
  swapPool P (Req.parkOnce body) (Req.riderMode body) (swapStopsInput body)
    (swapPlaceIdOf body) centerLat centerLng.

(** [nextStops] of a swap request whose replacement has the given id. *)
Definition swapNextStops (body : Req.Body) (replacementId : string)
    : list StopInput :=
  nextStopsOf (swapStopsInput body) (swapIndexOf body) replacementId.

(** The rebuild of a swap request from its [nextStops]. *)
Definition swapRebuildOf (P : Provider) (body : Req.Body)
    (nextStops : list StopInput) : Step Response :=
  swapRebuild P (destinationOf body) (totalMinutesOf body)
    (vibeLabelOf (vibesFinalOf body)) (vibesFinalOf body)
    (Req.parkOnce body) (Req.riderMode body) (bufferMinutesOf body) nextStops.

(** A candidate the replacement loop passes over: its details cannot be
    fetched, or they say it is closed now. *)
Definition passedOver (P : Provider) (cand : Place) : Prop :=
  match getPlaceDetails P (nullish (id cand) "") with
  | Ok details => dOpenNow details = Some false
  | Throw _ => True
  end.

(** An answer that is an error, not a plan. *)
Definition isError (r : Response) : Prop :=
  match r with ErrorJson _ _ => True | Json _ => False end.

(** The place ids and durations of the stop items of a plan, in order. *)
Definition stopEntries (items : list PlanItem) : list (string * Q) :=
  flat_map
    (fun it =>
       match it with
       | StopItem durationMin s => [(placeId s, durationMin)]
       | TravelItem _ _ _ => []
       end)
    items.

(** The modes of the travel items of a plan, in order. *)
Definition travelModes (items : list PlanItem) : list TravelMode :=
  flat_map
    (fun it =>
       match it with
       | StopItem _ _ => []
       | TravelItem _ _ mode => [mode]
       end)
    items.

(** [.filter((s) => s.placeId)] read on the raw stops: those whose place
    id, trimmed, is not empty. *)
Definition keptStops (rawStops : list Raw.Stop) : list Raw.Stop :=
  filter (fun s => negb (trim (nullish (Raw.placeId s) "") =? "")) rawStops.

(** A raw stop whose place id is present, not empty and already trimmed. *)
Definition wellFormedStop (s : Raw.Stop) : bool :=
  match Raw.placeId s with
  | Some pid => negb (pid =? "") && (trim pid =? pid)
  | None => false
  end.

(** [a] does not score lower than [b]. *)
Definition scoresDescend (riderMode : bool) (a b : Place) : Prop :=
  (scoreCandidate b riderMode <= scoreCandidate a riderMode)%R.

(** The entries of the stops [stops], numbered from [k], with the
    durations [durationAt] gives them. *)
Fixpoint entriesFrom (durationAt : nat -> Q) (k : nat)
    (stops : list StopDetails) : list (string * Q) :=
  match stops with
  | [] => []
  | s :: rest => (placeId s, durationAt k) :: entriesFrom durationAt (S k) rest
  end.

(** The fresh-plan request passes the two checks before the searches. *)
Definition freshAccepted (key : option string) (body : Req.Body) : bool :=
  negb (destinationOf body =? "") && truthy key.

(** [stops] of a fresh-plan request, or the answer that ends it. *)
Definition freshStopsOf (P : Provider) (body : Req.Body)
    : Step (list StopDetails) :=
  freshStops P (destinationOf body) (vibesFinalOf body) (Req.parkOnce body)
    (Req.riderMode body)
    (filter (fun x => negb (x =? "")) (Req.excludePlaceIds body))
    (stopCountOf body).

(** The end of a fresh-plan request from its [stops]. *)
Definition freshFinishOf (P : Provider) (body : Req.Body)
    (stops : list StopDetails) : Step Response :=
  freshFinish P (destinationOf body) (totalMinutesOf body)
    (vibeLabelOf (vibesFinalOf body)) (vibesFinalOf body)
    (Req.parkOnce body) (Req.riderMode body) (bufferMinutesOf body) stops.

(** The duration the fresh plan gives to stop [i]. *)
Definition freshDurationAt (P : Provider) (totalMinutes : Q)
    (travelMins : list Q) (stopCount : nat) (i : nat) : Q :=
  Qmax 25
    (nullish
       (nth_error
          (splitStopDurationsWith (floorProduct P) totalMinutes
             (sumQ travelMins) stopCount) i)
       40).

(** The plan of a fresh request whose stops are [stops] and whose legs,
    all driven, take [travelMins]. *)
Definition drivePlanOf (P : Provider) (body : Req.Body)
    (stops : list StopDetails) (travelMins : list Q) : PlanResponse :=
  {| destination := destinationOf body;
     totalMinutes := totalMinutesOf body;
     vibe := vibeLabelOf (vibesFinalOf body);
     vibes := vibesFinalOf body;
     parkOnce := Req.parkOnce body;
     riderMode := Req.riderMode body;
     bufferMinutes := bufferMinutesOf body;
     source := "google";
     items :=
       driveItems
         (freshDurationAt P (totalMinutesOf body) travelMins
            (List.length stops))
         stops travelMins |}.

(** ** Sample requests and providers *)

Module Sample.

Definition center : LatLng := {| latitude := 49.28; longitude := -123.12 |}.

(** A museum-like place at [center]. *)
Definition placeAt (pid : string) : Place :=
  {| id := Some pid; displayName := Some ("Place " ++ pid);
     formattedAddress := None; location := Some center;
     types := ["museum"]; pRating := Some 4.5; pUserRatingCount := Some 320 |}.

Definition placeB : Place := placeAt "B".
Definition placeC : Place := placeAt "C".

(** A provider whose nearby search answers [nearby], whose other
    searches find nothing, and whose details say closed for the ids in
    [closed]. *)
Definition provider (nearby : list Place) (closed : list string) : Provider :=
  {| placesSearchText :=
       fun q _ => match q with Near _ _ _ => Ok nearby | Text _ => Ok [] end;
     placeDetails :=
       fun pid =>
         Ok {| dTypes := ["museum"];
               dDisplayName := Some ("Place " ++ pid);
               dFormattedAddress := None;
               dLocation := Some center;
               dRating := Some 4.5;
               dUserRatingCount := Some 320;
               dPriceLevel := None;
               dOpenNow := Some (negb (includes closed pid));
               dWeekdayDescriptions := None;
               dPhotoName := None;
               dReviewText := None;
               dGoogleMapsUri := None |};
     photoMedia := fun _ _ => Ok None;
     routesCompute := fun _ _ _ => Ok (Some 600);
     floorProduct := fun x c => Qfloor (x * c) |}.

Definition key : option string := Some "test-key".

Definition rawStop (pid : string) (minutes : Q) : Raw.Stop :=
  {| Raw.placeId := Some pid; Raw.title := Some ("Place " ++ pid);
     Raw.durationMin := Some (Fin minutes);
     Raw.lat := Fin 49.28; Raw.lng := Fin (-123.12) |}.

(** Swap the second of two stops, [B], around its own coordinates. *)
Definition swapBody : Req.Body :=
  {| Req.action := Some "swap"; Req.destination := Some "Vancouver";
     Req.totalMinutes := Some (Fin 150); Req.vibe := Some "culture";
     Req.vibes := None; Req.parkOnce := false; Req.riderMode := false;
     Req.bufferMinutes := Some (Fin 10); Req.excludePlaceIds := [];
     Req.swapIndex := Some (Fin 1); Req.swapPlaceId := Some "B";
     Req.swapLat := Fin 49.28; Req.swapLng := Fin (-123.12);
     Req.stops := [rawStop "A" 45; rawStop "B" 300] |}.

(** The plan of [swapBody] when the replacement has id [rid]. *)
Definition swapPlan (rid : string) : PlanResponse :=
  Eval vm_compute in
    match swapRebuildOf (provider [] []) swapBody (swapNextStops swapBody rid) with
    | Next (Json plan) => plan
    | _ => mkPlan "" 0 "" [] false false 0 "" []
    end.

(** A parking place without coordinates. *)
Definition parkingLot : Place :=
  {| id := Some "lot"; displayName := Some "Gastown Parkade";
     formattedAddress := Some "150 Water St"; location := None;
     types := ["parking"]; pRating := None; pUserRatingCount := None |}.

(** A provider for fresh plans: the attraction search finds [B] and [C],
    every parking search finds [parkingLot], the other searches find
    nothing; a driven route takes 600 seconds, a walked one 1500. *)
Definition freshProvider : Provider :=
  {| placesSearchText :=
       fun q _ =>
         match q with
         | Text s =>
             if s =? "top attractions museums landmarks in Vancouver"
             then Ok [placeB; placeC]
             else if prefix "parking near " s then Ok [parkingLot]
             else Ok []
         | Near _ _ _ => Ok []
         end;
     placeDetails := placeDetails (provider [] []);
     photoMedia := fun _ _ => Ok None;
     routesCompute :=
       fun _ _ mode =>
         match mode with
         | DRIVE => Ok (Some 600)
         | WALK => Ok (Some 1500)
         end;
     floorProduct := fun x c => Qfloor (x * c) |}.

(** A two-hour park-once plan for Vancouver. *)
Definition freshBody : Req.Body :=
  {| Req.action := None; Req.destination := Some "Vancouver";
     Req.totalMinutes := Some (Fin 120); Req.vibe := Some "culture";
     Req.vibes := None; Req.parkOnce := true; Req.riderMode := false;
     Req.bufferMinutes := None; Req.excludePlaceIds := [];
     Req.swapIndex := None; Req.swapPlaceId := None;
     Req.swapLat := NaN; Req.swapLng := NaN; Req.stops := [] |}.

(** The open stops of [freshBody] with [freshProvider]. *)
Definition freshStopsFound : list StopDetails :=
  Eval vm_compute in
    match enrichOpen freshProvider "Vancouver" 2 2 [placeB; placeC] [] [] 0 with
    | Next stops => stops
    | _ => []
    end.

End Sample.

(** ** Vocabulary of the further properties *)

(** The tags that make a place food, and those that make it a park. *)
Definition foodTags : list string :=
  ["restaurant"; "cafe"; "bakery"; "bar"; "meal_takeaway"; "meal_delivery"].

Definition parkTags : list string :=
  ["park"; "natural_feature"; "campground"; "rv_park"; "hiking_area"].

(** Some tag of [t] is in [tags]. *)
Definition hasTagIn (tags t : list string) : Prop :=
  exists x, In x t /\ In x tags.

(** [floorMul x c] is [Math.floor] of a product near [x * c]: the exact
    floor, or the floor of a product rounded by less than one. *)
Definition nearFloor (floorMul : Q -> Q -> Z) : Prop :=
  forall x c : Q,
    x * c - 2 < inject_Z (floorMul x c) /\ inject_Z (floorMul x c) <= x * c + 1.

(** Stops and legs woven into items, the shape both stop loops produce:
    each stop, and between two stops the leg towards the next one. *)
Fixpoint weave (travelMode : TravelMode) (verb : string)
    (durationAt : nat -> Q) (k : nat) (stops : list StopDetails)
    (legs : list Q) : list PlanItem :=
  match stops with
  | [] => []
  | s :: rest =>
      StopItem (durationAt k) s ::
      match rest, legs with
      | next :: _, leg :: legs' =>
          TravelItem (verb ++ title next) leg travelMode ::
          weave travelMode verb durationAt (S k) rest legs'
      | _, _ => weave travelMode verb durationAt (S k) rest []
      end
  end.

(** The stops of the stop items of a plan, and the minutes of its travel
    items, in order. *)
Definition planStops (items : list PlanItem) : list StopDetails :=
  flat_map
    (fun it => match it with StopItem _ s => [s] | TravelItem _ _ _ => [] end)
    items.

Definition travelMinutes (items : list PlanItem) : list Q :=
  flat_map
    (fun it => match it with StopItem _ _ => [] | TravelItem _ d _ => [d] end)
    items.

Definition stopMinutes (items : list PlanItem) : list Q :=
  map snd (stopEntries items).

(** The items go stop, travel, stop, ..., stop. *)
Fixpoint alternates (items : list PlanItem) : bool :=
  match items with
  | StopItem _ _ :: rest =>
      match rest with
      | [] => true
      | TravelItem _ _ _ :: rest' => alternates rest'
      | StopItem _ _ :: _ => false
      end
  | _ => false
  end.

(** A stop that the provider did not report closed. *)
Definition notClosed (s : StopDetails) : Prop := openNow s <> Some false.





(** An error thrown by one of the provider's calls. *)
Definition thrownBy (P : Provider) (msg : string) : Prop :=
  (exists q n, placesSearchText P q n = Throw msg) \/
  (exists pid, placeDetails P pid = Throw msg) \/
  (exists name w, photoMedia P name w = Throw msg) \/
  (exists a b m, routesCompute P a b m = Throw msg).

(** The error answers the handler writes itself. *)
Definition closedStopMessage (name : string) : string :=
  "One of the stops is closed right now (" ++ name ++ "). Please regenerate.".

Definition ownError (r : Response) : Prop :=
  match r with
  | Json _ => False
  | ErrorJson msg status =>
      (status = 400%nat /\
       In msg ["Destination is required"; "Not enough stops to swap";
               "Invalid swap index"; "Invalid swap request"]) \/
      (status = 404%nat /\
       (In msg ["No OPEN replacement found nearby";
                "Not enough high-quality places found";
                "Not enough OPEN places found right now"] \/
        exists name, msg = closedStopMessage name)) \/
      (status = 500%nat /\ msg = missingKey)
  end.

(** A step of the handler that ends the request only with one of its own
    error answers or with an error thrown by the provider. *)
Definition answers {A : Type} (P : Provider) (m : Step A) : Prop :=
  match m with
  | Next _ => True
  | Return_ r => ownError r
  | Raise msg => thrownBy P msg
  end.

(** In [ordered], every place with a location is followed by the nearest
    of the places after it: the next place has a location as soon as a
    later one has, and no later place lies nearer. *)
Definition nearestNext (ordered : list Place) : Prop :=
  forall pre a b post la c lc,
    ordered = (pre ++ a :: b :: post)%list ->
    location a = Some la ->
    In c post ->
    location c = Some lc ->
    exists lb,
      location b = Some lb /\
      (haversineKm la lb <= haversineKm la lc)%R.

(** The same, with the places [extra] still to come counted as later
    places. *)
Fixpoint chainWith (extra ordered : list Place) : Prop :=
  match ordered with
  | [] => True
  | a :: rest =>
      match rest with
      | [] => True
      | b :: _ =>
          forall la c lc,
            location a = Some la ->
            In c (rest ++ extra)%list ->
            location c = Some lc ->
            exists lb,
              location b = Some lb /\
              (haversineKm la lb <= haversineKm la lc)%R
      end /\
      chainWith extra rest
  end.

(** A provider whose text search is down: every search throws [msg];
    the other calls answer as those of [Sample.provider]. *)
Module Faulty.

Definition provider (msg : string) : Provider :=
  {| placesSearchText := fun _ _ => Throw msg;
     placeDetails := placeDetails (Sample.provider [] []);
     photoMedia := fun _ _ => Ok None;
     routesCompute := fun _ _ _ => Ok (Some 600);
     floorProduct := fun x c => Qfloor (x * c) |}.

End Faulty.

(** ** The page: what the client makes of a plan

    The helpers of the page that read the items of an answered plan.  The
    items reach the page as JSON: a field the handler left undefined is
    missing, and a stop item is an item of type [stop]. *)
Module Client.

(** [hay.includes(needle)]. *)
Fixpoint includesSub (needle hay : string) : bool :=
  if prefix needle hay then true
  else
    match hay with
    | EmptyString => false
    | String _ rest => includesSub needle rest
    end.

(** The branch of the loop of [estimateCostRange] taken for the price
    level [pl]: what it adds to [min] and to [max]. *)
Definition costBand (pl : string) : Z * Z :=
  if includesSub "FREE" pl then (0, 0)%Z
  else if includesSub "INEXPENSIVE" pl then (10, 25)%Z
  else if includesSub "MODERATE" pl then (25, 60)%Z
  else if includesSub "EXPENSIVE" pl then (60, 120)%Z
  else if includesSub "VERY_EXPENSIVE" pl then (120, 250)%Z
  else (10, 60)%Z.

(** [x.type === "stop"]. *)
Definition isStop (it : PlanItem) : bool :=
  match it with StopItem _ _ => true | TravelItem _ _ _ => false end.

(** [it.priceLevel || ""]. *)
Definition priceLevelOf (it : PlanItem) : string :=
  match it with
  | StopItem _ s => nullish (priceLevel s) ""
  | TravelItem _ _ _ => ""
  end.

(** [estimateCostRange]: [null] without a stop item, else [{ min, max }]. *)
Definition estimateCostRange (items : list PlanItem) : option (Z * Z) :=
  let stopItems := filter isStop items in
  match stopItems with
  | [] => None
  | _ =>
      let '(min, max) :=
        fold_left
          (fun (acc : Z * Z) it =>
             let '(min, max) := acc in
             let '(lo, hi) := costBand (priceLevelOf it) in
             (min + lo, max + hi)%Z)
          stopItems (0, 0)%Z in
      Some (min + 5, max + 20)%Z
  end.

(** The callback of [.map(...)] in [onSwapStop]: the fields of a stop
    item that go into the swap request. *)
Definition rawStopOf (it : PlanItem) : Raw.Stop :=
  match it with
  | StopItem durationMin s =>
      {| Raw.placeId := Some (placeId s);
         Raw.title := Some (title s);
         Raw.durationMin := Some (Fin durationMin);
         Raw.lat := lat s;
         Raw.lng := lng s |}
  | TravelItem ttitle durationMin _ =>
      {| Raw.placeId := None;
         Raw.title := Some ttitle;
         Raw.durationMin := Some (Fin durationMin);
         Raw.lat := NaN;
         Raw.lng := NaN |}
  end.

(** [typeof s.placeId === "string" && s.placeId.length > 0 && typeof
    s.lat === "number" && typeof s.lng === "number"]: in the JSON of the
    plan a coordinate is a number exactly when it is finite. *)
Definition sendable (s : Raw.Stop) : bool :=
  truthy (Raw.placeId s) && isFinite (Raw.lat s) && isFinite (Raw.lng s).

(** [stopsOnly] of [onSwapStop]. *)
Definition stopsOnly (items : list PlanItem) : list Raw.Stop :=
  filter sendable (map rawStopOf (filter isStop items)).

(** The body of the request [onSwapStop] sends for the stop numbered
    [stopIdxInStops] among the stop items; [None] when it sends none,
    for want of a target.  [style], [parkOnce], [riderMode] and
    [addBuffer] are the state of the page. *)
Definition swapRequest (plan : PlanResponse) (style : string)
    (parkOnce riderMode addBuffer : bool) (stopIdxInStops : nat)
    : option Req.Body :=
  let stopsOnly := stopsOnly (items plan) in
  match nth_error stopsOnly stopIdxInStops with
  | None => None
  | Some target =>
      Some {| Req.action := Some "swap";
              Req.destination := Some (destination plan);
              Req.totalMinutes := Some (Fin (totalMinutes plan));
              Req.vibe := Some style;
              Req.vibes := None;
              Req.parkOnce := parkOnce;
              Req.riderMode := riderMode;
              Req.bufferMinutes := Some (Fin (if addBuffer then 10 else 0));
              Req.excludePlaceIds := [];
              Req.swapIndex :=
                Some (Fin (inject_Z (Z.of_nat stopIdxInStops)));
              Req.swapPlaceId := Raw.placeId target;
              Req.swapLat := Raw.lat target;
              Req.swapLng := Raw.lng target;
              Req.stops := stopsOnly |}
  end.

(** A stop of the given price level, as the page reads it. *)
Definition pricedStop (pl : string) : StopDetails :=
  {| placeId := "p"; title := "Place"; address := None;
     lat := Fin 49.28; lng := Fin (-123.12); mapsUri := None;
     rating := None; userRatingCount := None; priceLevel := Some pl;
     openNow := None; weekdayText := None; photoUrl := None;
     reviewSnippet := None; parking := None |}.

End Client.

(** The place id of the parking pseudo-stop:
    [parkOnceLocation.placeId || "parking"]. *)
Definition pseudoStopId (pk : ParkingOption) : string :=
  if truthy (pkPlaceId pk) then nullish (pkPlaceId pk) "" else "parking".

(** A walked park-once plan of the stops [A] and [B], the request the
    page builds to swap [B] (the third stop item), and the plan the
    handler answers when [C] is the replacement. *)
Module Parked.

Definition lot : ParkingOption :=
  {| pkPlaceId := Some "lot"; pkName := "Gastown Parkade";
     pkAddress := Some "150 Water St"; pkLat := Some 49.28;
     pkLng := Some (-123.12); pkMapsUri := None |}.

Definition plan : PlanResponse :=
  Eval vm_compute in
    {| destination := "Vancouver"; totalMinutes := 150; vibe := "culture";
       vibes := ["culture"]; parkOnce := true; riderMode := false;
       bufferMinutes := 10; source := "google";
       items :=
         assembleItems (fun _ => 45) true (Some lot)
           (planStops (items (Sample.swapPlan "B"))) [15; 20] |}.

Definition body : Req.Body :=
  Eval vm_compute in
    match Client.swapRequest plan "culture" true false true 2 with
    | Some b => b
    | None => Sample.swapBody
    end.

Definition answer : PlanResponse :=
  Eval vm_compute in
    match
      swapRebuildOf (Sample.provider [] []) body (swapNextStops body "C")
    with
    | Next (Json p) => p
    | _ => plan
    end.

End Parked.

(** ** The fallback route

    The earlier handler of the same route, which answers a plan without
    any provider: two or three stops named after the vibe, walks of 12
    minutes between them. *)
Module Legacy.

Record Body : Type := mkBody {
  destination : option string;
  totalMinutes : option JsNum;
  vibe : option string
}.

Record Item : Type := mkItem {
  isStop : bool;
  title : string;
  durationMin : Q
}.

Inductive Response : Type :=
| Plan (destination : string) (totalMinutes : Q) (vibe : string)
    (items : list Item)
| Error (error : string) (status : nat).

(** [byVibe[vibe] ?? byVibe.culture], read as [titles[i]].  [inherited]
    says that [vibe] names a property every object inherits
    ([constructor], [toString], ...): [byVibe[vibe]] is then that
    property, which is not nullish and has no title at any index. *)
Definition titlesOf (inherited : string -> bool) (vibe : string) (i : nat)
    : option string :=
  let culture := ["Museum or gallery"; "Historic walk"; "Local landmark"] in
  if vibe =? "relaxed"
  then nth_error ["Waterfront stroll"; "Coffee break"; "Scenic viewpoint"] i
  else if vibe =? "foodie"
  then nth_error ["Top-rated café"; "Local specialty"; "Dessert stop"] i
  else if vibe =? "adventure"
  then nth_error ["Easy trail"; "Lookout point"; "Recovery café"] i
  else if vibe =? "culture" then nth_error culture i
  else if inherited vibe then None
  else nth_error culture i.

(** [POST]: [body] is [None] when the request holds no JSON, which the
    handler answers as any failure; [floorMul remaining c] is
    [Math.floor(remaining * c)]. *)
Definition POST (floorMul : Q -> Q -> Z) (inherited : string -> bool)
    (body : option Body) : Response :=
  match body with
  | None => Error "Failed to generate itinerary" 500
  | Some body =>
      let destination := trim (nullish (destination body) "") in
      let totalMinutes := nullish (totalMinutes body) (Fin 150) in
      let vibe := nullish (vibe body) "culture" in
      if destination =? "" then Error "Destination is required" 400
      else
        let minutes := clamp totalMinutes 120 180 in
        let stopCount := if Qle_bool minutes 140 then 2%nat else 3%nat in
        let travelMinEach := 12 in
        let travelTotal :=
          inject_Z (Z.of_nat (stopCount - 1)) * travelMinEach in
        let stopDurations :=
          splitStopDurationsWith floorMul minutes travelTotal stopCount in
        let items :=
          flat_map
            (fun i =>
               {| isStop := true;
                  title :=
                    nullish (titlesOf inherited vibe i) "Stop" ++ " in "
                    ++ destination;
                  durationMin :=
                    match nth_error stopDurations i with
                    | Some d => Qmax 25 d
                    | None => 25
                    end |}
               :: (if (i <? stopCount - 1)%nat
                   then [{| isStop := false;
                            title := "Walk to next stop";
                            durationMin := travelMinEach |}]
                   else []))
            (seq 0 stopCount) in
        Plan destination minutes vibe items
  end.

End Legacy.

(** [floorMul x c] is [Math.floor] of a product that is [x * c] up to
    half a unit: the exact floor, or that of the rounded product. *)
Definition closeFloor (floorMul : Q -> Q -> Z) : Prop :=
  forall x c : Q,
    x * c - (3 # 2) < inject_Z (floorMul x c) /\
    inject_Z (floorMul x c) <= x * c + (1 # 2).



(** One round of the loop over [want.slice(1)]: the place picked for the
    category [cat], from the nearest pool that has one. *)
Definition wishStep (poolPrimary poolRelaxed filtered picked : list Place)
    (cat : Category) : list Place :=
  match pickFromPool picked poolPrimary cat with
  | Some next => (picked ++ [next])%list
  | None =>
      match pickFromPool picked poolRelaxed cat with
      | Some next => (picked ++ [next])%list
      | None =>
          match pickFromPool picked filtered cat with
          | Some next => (picked ++ [next])%list
          | None => picked
          end
      end
  end.

(** The sample swap in a park-once plan, with a provider whose text
    searches find a parking place with coordinates. *)
Module Walked.

Definition lotPlace : Place :=
  {| id := Some "lot"; displayName := Some "Gastown Parkade";
     formattedAddress := Some "150 Water St"; location := Some Sample.center;
     types := ["parking"]; pRating := None; pUserRatingCount := None |}.

Definition provider : Provider :=
  {| placesSearchText :=
       fun q _ =>
         match q with
         | Near _ _ _ => Ok [Sample.placeC]
         | Text _ => Ok [lotPlace]
         end;
     placeDetails := placeDetails (Sample.provider [] []);
     photoMedia := fun _ _ => Ok None;
     routesCompute := fun _ _ _ => Ok (Some 600);
     floorProduct := fun x c => Qfloor (x * c) |}.

Definition body : Req.Body :=
  {| Req.action := Some "swap"; Req.destination := Some "Vancouver";
     Req.totalMinutes := Some (Fin 150); Req.vibe := Some "culture";
     Req.vibes := None; Req.parkOnce := true; Req.riderMode := false;
     Req.bufferMinutes := Some (Fin 10); Req.excludePlaceIds := [];
     Req.swapIndex := Some (Fin 1); Req.swapPlaceId := Some "B";
     Req.swapLat := Fin 49.28; Req.swapLng := Fin (-123.12);
     Req.stops := [Sample.rawStop "A" 45; Sample.rawStop "B" 300] |}.

Definition plan : PlanResponse :=
  Eval vm_compute in
    match swapRebuildOf provider body (swapNextStops body "C") with
    | Next (Json p) => p
    | _ => Sample.swapPlan "C"
    end.

End Walked.

(** ** A swap request with a padded id and a stop without id *)

Module Padded.

(** U+00A0, the no-break space, in UTF-8. *)
Definition nbsp : string :=
  String (ascii_of_nat 194) (String (ascii_of_nat 160) EmptyString).

(** Three stops are sent: [A] with white space around its id, one
    without id, and [B].  The handler keeps the first and the last, and
    [swapIndex] 1 names [B] among those. *)
Definition body : Req.Body :=
  {| Req.action := Some "swap"; Req.destination := Some "Vancouver";
     Req.totalMinutes := Some (Fin 150); Req.vibe := Some "culture";
     Req.vibes := None; Req.parkOnce := false; Req.riderMode := false;
     Req.bufferMinutes := Some (Fin 10); Req.excludePlaceIds := [];
     Req.swapIndex := Some (Fin 1); Req.swapPlaceId := Some "B";
     Req.swapLat := Fin 49.28; Req.swapLng := Fin (-123.12);
     Req.stops :=
       [Sample.rawStop (" A" ++ nbsp) 45;
        {| Raw.placeId := None; Raw.title := Some "Somewhere";
           Raw.durationMin := Some (Fin 60);
           Raw.lat := Fin 49.28; Raw.lng := Fin (-123.12) |};
        Sample.rawStop "B" 300] |}.

(** The plan of [body] when the replacement is [C]. *)
Definition answer : PlanResponse :=
  Eval vm_compute in
    match
      swapRebuildOf (Sample.provider [] []) body (swapNextStops body "C")
    with
    | Next (Json p) => p
    | _ => Sample.swapPlan "C"
    end.

End Padded.

(** ** A fresh request that finds fewer places than it wants *)

Module Sparse.

(** The sample park-once request, for 150 minutes: three stops are
    wanted, and [Sample.freshProvider] finds two places. *)
Definition body : Req.Body :=
  {| Req.action := None; Req.destination := Some "Vancouver";
     Req.totalMinutes := Some (Fin 150); Req.vibe := Some "culture";
     Req.vibes := None; Req.parkOnce := true; Req.riderMode := false;
     Req.bufferMinutes := None; Req.excludePlaceIds := [];
     Req.swapIndex := None; Req.swapPlaceId := None;
     Req.swapLat := NaN; Req.swapLng := NaN; Req.stops := [] |}.

End Sparse.

(** ** Requests that are turned away *)

Module Refused.

(** The sample fresh request, its destination a no-break space. *)
Definition blankBody : Req.Body :=
  {| Req.action := None; Req.destination := Some Padded.nbsp;
     Req.totalMinutes := Some (Fin 120); Req.vibe := Some "culture";
     Req.vibes := None; Req.parkOnce := true; Req.riderMode := false;
     Req.bufferMinutes := None; Req.excludePlaceIds := [];
     Req.swapIndex := None; Req.swapPlaceId := None;
     Req.swapLat := NaN; Req.swapLng := NaN; Req.stops := [] |}.

(** The sample swap request, with [swapIndex] 5 on its two stops. *)
Definition strayBody : Req.Body :=
  {| Req.action := Some "swap"; Req.destination := Some "Vancouver";
     Req.totalMinutes := Some (Fin 150); Req.vibe := Some "culture";
     Req.vibes := None; Req.parkOnce := false; Req.riderMode := false;
     Req.bufferMinutes := Some (Fin 10); Req.excludePlaceIds := [];
     Req.swapIndex := Some (Fin 5); Req.swapPlaceId := Some "B";
     Req.swapLat := Fin 49.28; Req.swapLng := Fin (-123.12);
     Req.stops := [Sample.rawStop "A" 45; Sample.rawStop "B" 300] |}.

End Refused.

(** * Properties *)

(** ** White space *)

Lemma dropBytes_length (n : nat) :
  forall s, (String.length (dropBytes n s) <= String.length s)%nat.
Proof.
  induction n as [| n' IH]; intros s; [apply Nat.le_refl |].
  destruct s as [| c rest]; [apply Nat.le_refl |].
  cbn [dropBytes String.length]. specialize (IH rest). lia.
Qed.

(** The rounds of [trimStart] are enough: what it answers starts with no
    white space. *)
Lemma trimStart_done (s : string) : spaceBytes (trimStart s) = 0%nat.
Proof.
  unfold trimStart.
  assert (H : forall fuel t,
            (String.length t <= fuel)%nat ->
            spaceBytes (trimStartFrom fuel t) = 0%nat).
  { induction fuel as [| fuel' IH]; intros t Hlen.
    - destruct t as [| c rest]; [reflexivity | simpl in Hlen; lia].
    - cbn [trimStartFrom]. destruct (spaceBytes t) as [| k] eqn:E;
        [exact E |].
      apply IH. destruct t as [| c rest]; [discriminate E |].
      cbn [dropBytes]. pose proof (dropBytes_length k rest) as Hd.
      simpl in Hlen. lia. }
  apply H. apply Nat.le_refl.
Qed.

(** ** Clamping and the stop count *)

Lemma clamp_nonfinite (n : JsNum) (min max : Q) :
  isFinite n = false -> clamp n min max = min.
Proof. destruct n; simpl; intros H; [discriminate H | reflexivity ..]. Qed.

Lemma clamp_range (n : JsNum) (min max : Q) :
  min <= max -> min <= clamp n min max /\ clamp n min max <= max.
Proof.
  intros Hle. destruct n as [q | | |]; simpl.
  - split.
    + apply Q.le_max_l.
    + apply Q.max_lub; [assumption | apply Q.le_min_l].
  - split; [apply Qle_refl | assumption].
  - split; [apply Qle_refl | assumption].
  - split; [apply Qle_refl | assumption].
Qed.

Lemma clamp_total_range (n : JsNum) :
  120 <= clamp n 120 420 /\ clamp n 120 420 <= 420.
Proof. apply clamp_range. discriminate. Qed.

Lemma clamp_buffer_range (n : JsNum) :
  0 <= clamp n 0 20 /\ clamp n 0 20 <= 20.
Proof. apply clamp_range. discriminate. Qed.

Lemma pickStopCount_le (t : Q) : t <= 140 -> pickStopCount t = 2%nat.
Proof.
  intros H. unfold pickStopCount.
  apply Qle_bool_iff in H. rewrite H. reflexivity.
Qed.

Lemma pickStopCount_gt (t : Q) : 140 < t -> pickStopCount t = 3%nat.
Proof.
  intros H. unfold pickStopCount.
  destruct (Qle_bool t 140) eqn:E; [| reflexivity].
  apply Qle_bool_iff in E. exfalso. apply (Qlt_not_le _ _ H E).
Qed.

Lemma pickStopCount_cases (t : Q) :
  pickStopCount t = 2%nat \/ pickStopCount t = 3%nat.
Proof. unfold pickStopCount. destruct (Qle_bool t 140); auto. Qed.

(** The stop count as a function of the clamped total minutes. *)
Lemma stopCountOf_spec (body : Req.Body) :
  let t := clamp (nullish (Req.totalMinutes body) (Fin 150)) 120 420 in
  (120 <= t /\ t <= 420) /\
  stopCountOf body = pickStopCount t /\
  (t <= 140 -> stopCountOf body = 2%nat) /\
  (141 <= t -> t <= 420 -> stopCountOf body = 3%nat) /\
  (stopCountOf body = 2%nat \/ stopCountOf body = 3%nat).
Proof.
  intros t. unfold stopCountOf. fold t.
  split; [apply clamp_total_range |].
  split; [reflexivity |].
  split; [apply pickStopCount_le |].
  split; [| apply pickStopCount_cases].
  intros H _. apply pickStopCount_gt.
  apply Qlt_le_trans with (y := 141); [reflexivity | assumption].
Qed.

(** ** Timing allocator *)









(** ** Candidate scorer *)

Section Scorer.
Local Open Scope R_scope.

Lemma ln_10_pos : 0 < ln 10.
Proof. rewrite <- ln_1. apply ln_increasing; lra. Qed.

Lemma ln_le (x y : R) : 0 < x -> x <= y -> ln x <= ln y.
Proof.
  intros Hx [Hlt | Heq].
  - left. apply ln_increasing; assumption.
  - right. rewrite Heq. reflexivity.
Qed.

Lemma log10_le (x y : R) : 0 < x -> x <= y -> log10 x <= log10 y.
Proof.
  intros Hx Hxy. unfold log10, Rdiv.
  apply Rmult_le_compat_r.
  - left. apply Rinv_0_lt_compat. apply ln_10_pos.
  - apply ln_le; assumption.
Qed.

Lemma log10_1 : log10 1 = 0.
Proof. unfold log10. rewrite ln_1. unfold Rdiv. apply Rmult_0_l. Qed.

(** The unboosted score grows with the rating and with the count. *)
Lemma base_score_le (r1 r2 c1 c2 : Q) :
  (r1 <= r2)%Q -> (c1 <= c2)%Q ->
  Q2R r1 * 12 + log10 (Rmax 1 (Q2R c1)) * 8
  <= Q2R r2 * 12 + log10 (Rmax 1 (Q2R c2)) * 8.
Proof.
  intros Hr Hc.
  apply Qreals.Qle_Rle in Hr. apply Qreals.Qle_Rle in Hc.
  assert (Hlog : log10 (Rmax 1 (Q2R c1)) <= log10 (Rmax 1 (Q2R c2))).
  { apply log10_le.
    - apply Rlt_le_trans with (r2 := 1); [lra | apply Rmax_l].
    - apply Rle_max_compat_l. assumption. }
  lra.
Qed.

(** Two places with the same tags: the one with the higher rating and
    count does not score lower. *)
Lemma scoreCandidate_le (p1 p2 : Place) (riderMode : bool) :
  types p1 = types p2 ->
  (nullish (pRating p1) 0 <= nullish (pRating p2) 0)%Q ->
  (nullish (pUserRatingCount p1) 0 <= nullish (pUserRatingCount p2) 0)%Q ->
  scoreCandidate p1 riderMode <= scoreCandidate p2 riderMode.
Proof.
  intros Ht Hr Hc. unfold scoreCandidate. rewrite Ht.
  pose proof (base_score_le _ _ _ _ Hr Hc) as Hbase.
  destruct riderMode;
    [ destruct (existsb _ (types p2));
      [| destruct (includes (types p2) "cafe" || includes (types p2) "restaurant"
                   || includes (types p2) "bakery")%bool ] |];
    destruct (pickCategory (types p2)); lra.
Qed.

(** C7. With the tags and the other field fixed, [scoreCandidate] does
    not decrease when the rating grows, nor when the review count grows,
    with rider mode on or off. *)
Theorem scoreCandidate_monotone (p : Place) (riderMode : bool)
    (r1 r2 c1 c2 : Q) :
  (r1 <= r2)%Q ->
  (c1 <= c2)%Q ->
  scoreCandidate (withRating p (Some r1)) riderMode
  <= scoreCandidate (withRating p (Some r2)) riderMode
  /\
  scoreCandidate (withReviewCount p (Some c1)) riderMode
  <= scoreCandidate (withReviewCount p (Some c2)) riderMode.
Proof.
  intros Hr Hc. split; apply scoreCandidate_le; simpl;
    solve [reflexivity | assumption | apply Qle_refl].
Qed.

Lemma scoreCandidate_monotone_witness :
  let p :=
    {| id := Some "viewpoint-1"; displayName := Some "Prospect Point";
       formattedAddress := None;
       location := Some {| latitude := 49.3; longitude := -123.1 |};
       types := ["viewpoint"; "tourist_attraction"];
       pRating := Some 4.4%Q; pUserRatingCount := Some 250%Q |} in
  scoreCandidate (withRating p (Some 4.2%Q)) true
  <= scoreCandidate (withRating p (Some 4.6%Q)) true
  /\
  scoreCandidate (withReviewCount p (Some 30%Q)) true
  <= scoreCandidate (withReviewCount p (Some 900%Q)) true.
Proof.
  intros p.
  apply (scoreCandidate_monotone p true 4.2%Q 4.6%Q 30%Q 900%Q);
    discriminate.
Defined.

End Scorer.

(** ** Route sequencer *)

Section Sequencer.

Lemma insertBy_perm {A : Type} (le : A -> A -> bool) (x : A) (l : list A) :
  Permutation (x :: l) (insertBy le x l).
Proof.
  induction l as [| y rest IH]; simpl.
  - apply Permutation_refl.
  - destruct (le x y).
    + apply Permutation_refl.
    + apply perm_trans with (l' := y :: x :: rest).
      * apply perm_swap.
      * apply perm_skip. exact IH.
Qed.

Lemma sortBy_perm {A : Type} (le : A -> A -> bool) (l : list A) :
  Permutation l (sortBy le l).
Proof.
  induction l as [| x rest IH]; simpl.
  - apply perm_nil.
  - apply perm_trans with (l' := x :: sortBy le rest).
    + apply perm_skip. exact IH.
    + apply insertBy_perm.
Qed.

Lemma nearestIdx_bound (lastLoc : LatLng) (remaining : list Place) :
  forall (i bestIdx : nat) (bestD : option R),
    (bestIdx < i + List.length remaining)%nat ->
    (nearestIdx lastLoc remaining i bestIdx bestD < i + List.length remaining)%nat.
Proof.
  induction remaining as [| p rest IH]; intros i bestIdx bestD Hb; simpl in *.
  - exact Hb.
  - replace (i + S (List.length rest))%nat with (S i + List.length rest)%nat by lia.
    destruct (location p) as [loc |].
    + destruct (match bestD with
                | Some b => Rltb (haversineKm lastLoc loc) b
                | None => true
                end); apply IH; lia.
    + apply IH. lia.
Qed.

Lemma removeNth_perm {A : Type} (l : list A) :
  forall (k : nat) (p : A),
    nth_error l k = Some p -> Permutation l (p :: removeNth k l).
Proof.
  induction l as [| x rest IH]; intros k p Hk.
  - destruct k; discriminate Hk.
  - destruct k as [| k']; simpl in *.
    + injection Hk as ->. apply Permutation_refl.
    + apply perm_trans with (l' := x :: p :: removeNth k' rest).
      * apply perm_skip. apply IH. exact Hk.
      * apply perm_swap.
Qed.

Lemma removeNth_length {A : Type} (l : list A) :
  forall (k : nat),
    (k < List.length l)%nat ->
    List.length (removeNth k l) = pred (List.length l).
Proof.
  induction l as [| x rest IH]; intros k Hk; simpl in *.
  - lia.
  - destruct k as [| k']; simpl.
    + reflexivity.
    + rewrite IH by lia. lia.
Qed.

(** With enough fuel the loop moves every remaining place to [ordered]. *)
Lemma nnLoop_perm (fuel : nat) :
  forall (ordered remaining : list Place),
    (List.length remaining <= fuel)%nat ->
    Permutation (ordered ++ remaining) (nnLoop fuel ordered remaining).
Proof.
  induction fuel as [| fuel' IH]; intros ordered remaining Hlen.
  - destruct remaining; [| simpl in Hlen; lia].
    simpl. rewrite app_nil_r. apply Permutation_refl.
  - destruct remaining as [| first rest].
    + simpl. rewrite app_nil_r. apply Permutation_refl.
    + cbn [nnLoop]. destruct (lastLocation ordered) as [lastLoc |].
      * pose proof (nearestIdx_bound lastLoc (first :: rest) 0 0 None) as Hb.
        simpl List.length in Hb. specialize (Hb ltac:(lia)).
        set (k := nearestIdx lastLoc (first :: rest) 0 0 None) in *.
        destruct (nth_error (first :: rest) k) as [p |] eqn:Hk.
        -- apply perm_trans
             with (l' := ((ordered ++ [p]) ++ removeNth k (first :: rest))%list).
           ++ rewrite <- app_assoc. apply Permutation_app_head.
              simpl app. apply removeNth_perm. exact Hk.
           ++ apply IH. rewrite removeNth_length by (simpl; lia).
              simpl in *. lia.
        -- apply nth_error_None in Hk. simpl in Hk. lia.
      * apply perm_trans with (l' := ((ordered ++ [first]) ++ rest)%list).
        -- rewrite <- app_assoc. apply Permutation_refl.
        -- apply IH. simpl in Hlen. lia.
Qed.

(** The sequencer returns the places it was given, in some order. *)
Lemma orderByNearestNeighbor_perm (places : list Place) (riderMode : bool) :
  Permutation places (orderByNearestNeighbor places riderMode).
Proof.
  unfold orderByNearestNeighbor.
  destruct (List.length places <=? 2)%nat; [apply Permutation_refl |].
  pose proof (sortBy_perm (byScoreDesc riderMode) places) as Hs.
  destruct (sortBy (byScoreDesc riderMode) places) as [| first rest].
  - exact Hs.
  - apply perm_trans with (l' := first :: rest); [exact Hs |].
    apply (nnLoop_perm (List.length rest) [first] rest). apply Nat.le_refl.
Qed.

(** C6. A list of at most two places comes back unchanged; for three or
    more places with distinct ids and coordinates, no id occurs twice in
    the output. *)
Theorem orderByNearestNeighbor_no_revisit (places : list Place)
    (riderMode : bool) :
  ((List.length places <= 2)%nat ->
   orderByNearestNeighbor places riderMode = places)
  /\
  ((3 <= List.length places)%nat ->
   NoDup (map id places) ->
   Forall (fun p => location p <> None) places ->
   NoDup (map id (orderByNearestNeighbor places riderMode))).
Proof.
  split.
  - intros Hlen. unfold orderByNearestNeighbor.
    apply Nat.leb_le in Hlen. rewrite Hlen. reflexivity.
  - intros _ Hnd _.
    apply Permutation_NoDup with (l := map id places); [| exact Hnd].
    apply Permutation_map. apply orderByNearestNeighbor_perm.
Qed.

End Sequencer.

(** ** Control flow of the handler *)

Lemma bind_Next {A B : Type} (m : Step A) (k : A -> Step B) (b : B) :
  bind m k = Next b -> exists a, m = Next a /\ k a = Next b.
Proof.
  destruct m as [a | r | msg]; simpl; intros H; try discriminate H.
  exists a. split; [reflexivity | exact H].
Qed.

Lemma bind_Return {A B : Type} (m : Step A) (k : A -> Step B) (r : Response) :
  bind m k = Return_ r ->
  m = Return_ r \/ exists a, m = Next a /\ k a = Return_ r.
Proof.
  destruct m as [a | r' | msg]; simpl; intros H; try discriminate H.
  - right. exists a. split; [reflexivity | exact H].
  - left. injection H as ->. reflexivity.
Qed.

Lemma await_not_Return {A : Type} (c : result A) (r : Response) :
  await c <> Return_ r.
Proof. destruct c; simpl; discriminate. Qed.

Lemma returnIf_Return (cond : bool) (e r : Response) :
  returnIf cond e = Return_ r -> r = e.
Proof.
  unfold returnIf. destruct cond; intros H; [| discriminate H].
  injection H as <-. reflexivity.
Qed.

Lemma returnIf_Next (cond : bool) (e : Response) (u : unit) :
  returnIf cond e = Next u -> cond = false.
Proof. unfold returnIf. destruct cond; [discriminate | reflexivity]. Qed.

Section HandlerFacts.

Variable P : Provider.

Lemma enrichStop_not_Return (destination placeId : string)
    (fallbackTitle : option string) (details : Details) (r : Response) :
  enrichStop P destination placeId fallbackTitle details <> Return_ r.
Proof.
  unfold enrichStop. intros H.
  apply bind_Return in H. destruct H as [H | [a [_ H]]].
  - destruct (truthy (dPhotoName details)).
    + exact (await_not_Return _ _ H).
    + discriminate H.
  - discriminate H.
Qed.

Lemma enrichAll_Return (destination : string) (nextStops : list StopInput)
    (r : Response) :
  enrichAll P destination nextStops = Return_ r -> isError r.
Proof.
  induction nextStops as [| s rest IH]; simpl; intros H.
  - discriminate H.
  - apply bind_Return in H. destruct H as [H | [details [_ H]]].
    { exfalso. exact (await_not_Return _ _ H). }
    apply bind_Return in H. destruct H as [H | [u [_ H]]].
    { apply returnIf_Return in H. subst r. exact I. }
    apply bind_Return in H. destruct H as [H | [stop [_ H]]].
    { exfalso. exact (enrichStop_not_Return _ _ _ _ _ H). }
    apply bind_Return in H. destruct H as [H | [more [_ H]]].
    { apply IH. exact H. }
    discriminate H.
Qed.

Lemma legsBetween_not_Return (travelMode : TravelMode) (bufferMinutes : Q)
    (stops : list StopDetails) (r : Response) :
  legsBetween P travelMode bufferMinutes stops <> Return_ r.
Proof.
  induction stops as [| a rest IH]; simpl; [discriminate |].
  destruct rest as [| b rest']; [discriminate |].
  intros H. apply bind_Return in H. destruct H as [H | [mins [_ H]]].
  { exact (await_not_Return _ _ H). }
  apply bind_Return in H. destruct H as [H | [more [_ H]]].
  { exact (IH H). }
  discriminate H.
Qed.

Lemma computeTravelMins_not_Return (parkOnce : bool)
    (parkOnceLocation : option ParkingOption) (bufferMinutes : Q)
    (stops : list StopDetails) (r : Response) :
  computeTravelMins P parkOnce parkOnceLocation bufferMinutes stops <> Return_ r.
Proof.
  unfold computeTravelMins.
  destruct (parkingShown parkOnce parkOnceLocation) as [[[pk pLat] pLng] |];
    [| apply legsBetween_not_Return].
  destruct stops as [| firstStop rest]; [apply legsBetween_not_Return |].
  intros H. apply bind_Return in H. destruct H as [H | [mins [_ H]]].
  { exact (await_not_Return _ _ H). }
  apply bind_Return in H. destruct H as [H | [more [_ H]]].
  { exact (legsBetween_not_Return _ _ _ _ H). }
  discriminate H.
Qed.

End HandlerFacts.

(** ** Swap branch: how a request runs *)

Section SwapRuns.

Variable P : Provider.

Lemma swapRebuild_Return (destination : string) (totalMinutes : Q)
    (vibeLabel : string) (vibesFinal : list string) (parkOnce riderMode : bool)
    (bufferMinutes : Q) (nextStops : list StopInput) (r : Response) :
  swapRebuild P destination totalMinutes vibeLabel vibesFinal parkOnce riderMode
    bufferMinutes nextStops = Return_ r ->
  isError r.
Proof.
  unfold swapRebuild. intros H.
  apply bind_Return in H. destruct H as [H | [stops [_ H]]].
  { exact (enrichAll_Return P _ _ _ H). }
  apply bind_Return in H. destruct H as [H | [travelMins [_ H]]].
  { exfalso. exact (computeTravelMins_not_Return P _ _ _ _ _ H). }
  discriminate H.
Qed.

Lemma swapRebuild_Next (destination : string) (totalMinutes : Q)
    (vibeLabel : string) (vibesFinal : list string) (parkOnce riderMode : bool)
    (bufferMinutes : Q) (nextStops : list StopInput) (r : Response) :
  swapRebuild P destination totalMinutes vibeLabel vibesFinal parkOnce riderMode
    bufferMinutes nextStops = Next r ->
  exists stops travelMins,
    enrichAll P destination nextStops = Next stops /\
    computeTravelMins P parkOnce
      (lookupParkOnce P parkOnce destination stops) bufferMinutes stops
    = Next travelMins /\
    r = Json {| destination := destination;
                totalMinutes := totalMinutes;
                vibe := vibeLabel;
                vibes := vibesFinal;
                parkOnce := parkOnce;
                riderMode := riderMode;
                bufferMinutes := bufferMinutes;
                source := "google";
                items :=
                  assembleItems
                    (fun i =>
                       nullish
                         (nth_error
                            (map (fun s => clamp (Fin (siDurationMin s)) 20 180)
                               nextStops) i) 40)
                    parkOnce (lookupParkOnce P parkOnce destination stops)
                    stops travelMins |}.
Proof.
  unfold swapRebuild. intros H.
  apply bind_Next in H. destruct H as [stops [Hstops H]].
  apply bind_Next in H. destruct H as [travelMins [Hlegs H]].
  exists stops, travelMins. repeat split; try assumption.
  injection H as <-. reflexivity.
Qed.

(** An accepted swap request runs the replacement loop over the first
    twelve candidates and, with a replacement, the rebuild. *)
Lemma swapBranch_accepted (key : option string) (body : Req.Body)
    (centerLat centerLng : Q) :
  swapAccepted key body = Some (centerLat, centerLng) ->
  swapBranch P key body =
  match pickReplacement P (firstn 12 (swapPoolOf P body centerLat centerLng)) with
  | None => Return_ (ErrorJson "No OPEN replacement found nearby" 404)
  | Some replacement =>
      swapRebuildOf P body (swapNextStops body (nullish (id replacement) ""))
  end.
Proof.
  unfold swapAccepted, swapBranch, swapPoolOf, swapRebuildOf, swapNextStops,
    destinationOf, swapStopsInput, swapIndexOf, swapPlaceIdOf, totalMinutesOf,
    bufferMinutesOf.
  cbv zeta. intros H.
  destruct (trim (nullish (Req.destination body) "") =? ""); [discriminate H |].
  destruct (truthy key); [| discriminate H].
  destruct (List.length (stopsInputOf (Req.stops body)) <? 2)%nat;
    [discriminate H |].
  destruct (Qltb _ 0 || Qle_bool _ _)%bool; [discriminate H |].
  destruct (trim (nullish (Req.swapPlaceId body) "") =? ""); [discriminate H |].
  cbn [orb negb returnIf bind] in *.
  destruct (centerOf (Req.swapLat body) _) as [la |]; [| discriminate H].
  destruct (centerOf (Req.swapLng body) _) as [lo |]; [| discriminate H].
  injection H as -> ->. reflexivity.
Qed.

(** A swap request that fails a check is answered with an error. *)
Lemma swapBranch_rejected (key : option string) (body : Req.Body) :
  swapAccepted key body = None ->
  exists msg status, swapBranch P key body = Return_ (ErrorJson msg status).
Proof.
  unfold swapAccepted, swapBranch, swapPoolOf, swapRebuildOf, swapNextStops,
    destinationOf, swapStopsInput, swapIndexOf, swapPlaceIdOf, totalMinutesOf,
    bufferMinutesOf.
  cbv zeta. intros H.
  destruct (trim (nullish (Req.destination body) "") =? "");
    [do 2 eexists; reflexivity |].
  destruct (truthy key); [| do 2 eexists; reflexivity].
  destruct (List.length (stopsInputOf (Req.stops body)) <? 2)%nat;
    [do 2 eexists; reflexivity |].
  destruct (Qltb _ 0 || Qle_bool _ _)%bool; [do 2 eexists; reflexivity |].
  cbn [orb negb returnIf bind] in *.
  destruct (trim (nullish (Req.swapPlaceId body) "") =? "");
    [do 2 eexists; reflexivity |].
  destruct (centerOf (Req.swapLat body) _) as [la |];
    [| do 2 eexists; reflexivity].
  destruct (centerOf (Req.swapLng body) _) as [lo |];
    [discriminate H | do 2 eexists; reflexivity].
Qed.

(** A plan answered to a swap request comes from the rebuild around an
    accepted replacement. *)
Lemma swap_plan_inv (key : option string) (body : Req.Body)
    (plan : PlanResponse) :
  actionOf body = "swap" ->
  POST P key body = Json plan ->
  exists centerLat centerLng replacement,
    swapAccepted key body = Some (centerLat, centerLng) /\
    pickReplacement P (firstn 12 (swapPoolOf P body centerLat centerLng))
    = Some replacement /\
    swapRebuildOf P body (swapNextStops body (nullish (id replacement) ""))
    = Next (Json plan).
Proof.
  unfold POST, actionOf. intros Ha H. rewrite Ha in H. simpl in H.
  destruct (swapAccepted key body) as [[centerLat centerLng] |] eqn:Hacc.
  - rewrite (swapBranch_accepted _ _ _ _ Hacc) in H.
    exists centerLat, centerLng.
    destruct (pickReplacement P _) as [replacement |]; [| discriminate H].
    exists replacement. repeat split; try reflexivity.
    destruct (swapRebuildOf P body _) as [r | r | msg] eqn:Hr.
    + rewrite H. reflexivity.
    + apply swapRebuild_Return in Hr. rewrite H in Hr. destruct Hr.
    + discriminate H.
  - destruct (swapBranch_rejected _ _ Hacc) as [msg [status Hrej]].
    rewrite Hrej in H. discriminate H.
Qed.

End SwapRuns.

(** ** Swap branch: the replacement loop *)

Section Replacement.

Variable P : Provider.

Lemma Rleb_true (x y : R) : Rleb x y = true <-> (x <= y)%R.
Proof.
  unfold Rleb. destruct (Rle_dec x y) as [H | H]; split; intros H';
    try assumption; try reflexivity; try discriminate H'.
  contradiction.
Qed.

Lemma Rleb_false (x y : R) : Rleb x y = false -> (y < x)%R.
Proof.
  unfold Rleb. destruct (Rle_dec x y) as [H | H]; intros H';
    [discriminate H' | apply Rnot_le_lt; exact H].
Qed.

Lemma insertBy_score_Sorted (riderMode : bool) (x : Place) (l : list Place) :
  Sorted (scoresDescend riderMode) l ->
  Sorted (scoresDescend riderMode) (insertBy (byScoreDesc riderMode) x l).
Proof.
  induction l as [| y rest IH]; intros Hs; simpl.
  - constructor; constructor.
  - destruct (byScoreDesc riderMode x y) eqn:E.
    + constructor; [exact Hs |]. constructor.
      apply Rleb_true. exact E.
    + inversion Hs as [| y' rest' Hrest Hhd]; subst.
      constructor; [apply IH; exact Hrest |].
      apply Rleb_false in E.
      destruct rest as [| z rest'']; simpl.
      * constructor. unfold scoresDescend. lra.
      * destruct (byScoreDesc riderMode x z).
        -- constructor. unfold scoresDescend. lra.
        -- inversion Hhd; subst. constructor. assumption.
Qed.

Lemma sortBy_score_Sorted (riderMode : bool) (l : list Place) :
  Sorted (scoresDescend riderMode) (sortBy (byScoreDesc riderMode) l).
Proof.
  induction l as [| x rest IH]; simpl.
  - constructor.
  - apply insertBy_score_Sorted. exact IH.
Qed.

(** The sort by score puts every place before the places that score
    lower. *)
Lemma sortBy_score_StronglySorted (riderMode : bool) (l : list Place) :
  StronglySorted (scoresDescend riderMode) (sortBy (byScoreDesc riderMode) l).
Proof.
  apply Sorted_StronglySorted; [| apply sortBy_score_Sorted].
  intros a b c Hab Hbc. unfold scoresDescend in *. lra.
Qed.

Lemma pickReplacement_In (cands : list Place) (replacement : Place) :
  pickReplacement P cands = Some replacement ->
  In replacement cands /\ ~ passedOver P replacement.
Proof.
  induction cands as [| cand rest IH]; simpl; intros H; [discriminate H |].
  destruct (nullish (id cand) "" =? "") eqn:Eid.
  { destruct (IH H) as [Hin Hnp]. split; [right; exact Hin | exact Hnp]. }
  destruct (getPlaceDetails P (nullish (id cand) "")) as [details | msg] eqn:Ed.
  - destruct (dOpenNow details) as [[|] |] eqn:Eo.
    + injection H as <-. split; [left; reflexivity |].
      unfold passedOver. rewrite Ed, Eo. discriminate.
    + destruct (IH H) as [Hin Hnp]. split; [right; exact Hin | exact Hnp].
    + injection H as <-. split; [left; reflexivity |].
      unfold passedOver. rewrite Ed, Eo. discriminate.
  - destruct (IH H) as [Hin Hnp]. split; [right; exact Hin | exact Hnp].
Qed.

Lemma pickReplacement_None (cands : list Place) :
  (forall cand, In cand cands -> passedOver P cand) ->
  pickReplacement P cands = None.
Proof.
  induction cands as [| cand rest IH]; simpl; intros Hall; [reflexivity |].
  assert (Hrest : pickReplacement P rest = None).
  { apply IH. intros c Hc. apply Hall. right. exact Hc. }
  destruct (nullish (id cand) "" =? ""); [exact Hrest |].
  pose proof (Hall cand (or_introl eq_refl)) as Hc. unfold passedOver in Hc.
  destruct (getPlaceDetails P (nullish (id cand) "")) as [details | msg].
  - rewrite Hc. exact Hrest.
  - exact Hrest.
Qed.

(** C8. In an accepted swap request the candidates are sorted by score,
    highest first; a replacement is one of the first twelve, one that the
    loop does not pass over; and when the loop passes over each of the
    first twelve (its details cannot be fetched, or they say closed), the
    answer is the error "No OPEN replacement found nearby" with status
    404, not a plan. *)
Theorem swap_without_open_replacement (key : option string) (body : Req.Body)
    (centerLat centerLng : Q) :
  actionOf body = "swap" ->
  swapAccepted key body = Some (centerLat, centerLng) ->
  let filtered := swapPoolOf P body centerLat centerLng in
  StronglySorted (scoresDescend (Req.riderMode body)) filtered
  /\
  (forall replacement,
     pickReplacement P (firstn 12 filtered) = Some replacement ->
     In replacement (firstn 12 filtered) /\ ~ passedOver P replacement)
  /\
  ((forall cand, In cand (firstn 12 filtered) -> passedOver P cand) ->
   POST P key body = ErrorJson "No OPEN replacement found nearby" 404).
Proof.
  intros Ha Hacc filtered. split; [| split].
  - unfold filtered, swapPoolOf, swapPool, swapFiltered.
    apply sortBy_score_StronglySorted.
  - intros replacement. apply pickReplacement_In.
  - intros Hall. unfold POST. unfold actionOf in Ha. rewrite Ha. simpl.
    rewrite (swapBranch_accepted P _ _ _ _ Hacc).
    fold filtered. rewrite (pickReplacement_None _ Hall). reflexivity.
Qed.

End Replacement.

(** ** Plan assembly: the stop items *)

Section Assembly.

Lemma stopEntries_app (a b : list PlanItem) :
  stopEntries (a ++ b) = (stopEntries a ++ stopEntries b)%list.
Proof. unfold stopEntries. apply flat_map_app. Qed.

Lemma travelModes_app (a b : list PlanItem) :
  travelModes (a ++ b) = (travelModes a ++ travelModes b)%list.
Proof. unfold travelModes. apply flat_map_app. Qed.

Lemma nth_error_middle {A : Type} (pre : list A) (x : A) (rest : list A) :
  nth_error (pre ++ x :: rest) (List.length pre) = Some x.
Proof. induction pre as [| y pre IH]; simpl; [reflexivity | exact IH]. Qed.

(** A loop over the indices of [stops] that emits, for each stop, its
    stop item and possibly travel items, has the entries of [stops]. *)
Lemma stopEntries_index_loop (durationAt : nat -> Q)
    (f : nat -> list PlanItem) (all : list StopDetails) :
  (forall i s, nth_error all i = Some s ->
               stopEntries (f i) = [(placeId s, durationAt i)]) ->
  forall (l pre : list StopDetails),
    all = (pre ++ l)%list ->
    stopEntries (flat_map f (seq (List.length pre) (List.length l)))
    = entriesFrom durationAt (List.length pre) l.
Proof.
  intros Hf. induction l as [| x rest IH]; intros pre Hall; simpl.
  - reflexivity.
  - rewrite stopEntries_app.
    rewrite (Hf (List.length pre) x)
      by (rewrite Hall; apply nth_error_middle).
    simpl. f_equal.
    specialize (IH (pre ++ [x])%list).
    rewrite length_app in IH. simpl in IH.
    replace (List.length pre + 1)%nat with (S (List.length pre)) in IH by lia.
    apply IH. rewrite <- app_assoc. exact Hall.
Qed.

Lemma stopEntries_walkItems (durationAt : nat -> Q) (stops : list StopDetails)
    (travelMins : list Q) :
  stopEntries (walkItems durationAt stops travelMins)
  = entriesFrom durationAt 0 stops.
Proof.
  unfold walkItems.
  apply (stopEntries_index_loop durationAt _ stops) with (pre := []);
    [| reflexivity].
  intros i s Hi. rewrite Hi.
  destruct (i <? List.length stops - 1)%nat; reflexivity.
Qed.

Lemma stopEntries_driveItems (durationAt : nat -> Q) (stops : list StopDetails)
    (travelMins : list Q) :
  stopEntries (driveItems durationAt stops travelMins)
  = entriesFrom durationAt 0 stops.
Proof.
  unfold driveItems.
  apply (stopEntries_index_loop durationAt _ stops) with (pre := []);
    [| reflexivity].
  intros i s Hi. rewrite Hi.
  destruct (nth_error travelMins i); reflexivity.
Qed.

(** The stop items of an assembled plan: the stops, after the parking
    pseudo-stop (5 minutes) when there is one. *)
Lemma stopEntries_assembleItems (durationAt : nat -> Q) (parkOnce : bool)
    (parkOnceLocation : option ParkingOption) (stops : list StopDetails)
    (travelMins : list Q) :
  exists pre,
    stopEntries
      (assembleItems durationAt parkOnce parkOnceLocation stops travelMins)
    = (pre ++ entriesFrom durationAt 0 stops)%list /\
    (pre = [] \/ (parkOnce = true /\ exists pid, pre = [(pid, 5)])).
Proof.
  unfold assembleItems.
  destruct (parkingShown parkOnce parkOnceLocation)
    as [[[pk pLat] pLng] |] eqn:Hshown.
  - exists [(if truthy (pkPlaceId pk) then nullish (pkPlaceId pk) ""
              else "parking", 5)].
    split.
    + destruct travelMins as [| first more]; simpl;
        rewrite stopEntries_walkItems; reflexivity.
    + right. split.
      * unfold parkingShown in Hshown.
        destruct parkOnce; [reflexivity | discriminate Hshown].
      * eexists. reflexivity.
  - exists []. split; [| left; reflexivity].
    simpl. apply stopEntries_driveItems.
Qed.

Lemma nth_error_entriesFrom (durationAt : nat -> Q) (stops : list StopDetails) :
  forall (k i : nat),
    nth_error (entriesFrom durationAt k stops) i
    = option_map (fun s => (placeId s, durationAt (k + i)%nat))
        (nth_error stops i).
Proof.
  induction stops as [| s rest IH]; intros k i; simpl.
  - destruct i; reflexivity.
  - destruct i as [| i']; simpl.
    + rewrite Nat.add_0_r. reflexivity.
    + rewrite IH. replace (S k + i')%nat with (k + S i')%nat by lia.
      reflexivity.
Qed.

Lemma entriesFrom_length (durationAt : nat -> Q) (stops : list StopDetails) :
  forall k, List.length (entriesFrom durationAt k stops) = List.length stops.
Proof.
  induction stops as [| s rest IH]; intros k; simpl;
    [reflexivity | rewrite IH; reflexivity].
Qed.

End Assembly.

(** ** Swap branch: what the rebuild keeps *)

Section SwapFrame.

Variable P : Provider.

Lemma enrichStop_placeId (destination pid : string)
    (fallbackTitle : option string) (details : Details) (stop : StopDetails) :
  enrichStop P destination pid fallbackTitle details = Next stop ->
  placeId stop = pid.
Proof.
  unfold enrichStop. intros H.
  apply bind_Next in H. destruct H as [photo [_ H]].
  injection H as <-. reflexivity.
Qed.

(** The enriched stops carry the place ids of [nextStops], in order. *)
Lemma enrichAll_placeIds (destination : string) (nextStops : list StopInput) :
  forall stops,
    enrichAll P destination nextStops = Next stops ->
    map placeId stops = map siPlaceId nextStops.
Proof.
  induction nextStops as [| s rest IH]; simpl; intros stops H.
  - injection H as <-. reflexivity.
  - apply bind_Next in H. destruct H as [details [_ H]].
    apply bind_Next in H. destruct H as [u [_ H]].
    apply bind_Next in H. destruct H as [stop [Hstop H]].
    apply bind_Next in H. destruct H as [more [Hmore H]].
    injection H as <-. simpl.
    rewrite (enrichStop_placeId _ _ _ _ _ Hstop), (IH _ Hmore). reflexivity.
Qed.

Lemma setNth_length {A : Type} (l : list A) :
  forall k v, List.length (setNth l k v) = List.length l.
Proof.
  induction l as [| x rest IH]; intros k v; simpl; [reflexivity |].
  destruct k; simpl; [reflexivity | rewrite IH; reflexivity].
Qed.

Lemma nth_error_setNth_other {A : Type} (l : list A) :
  forall k v i, i <> k -> nth_error (setNth l k v) i = nth_error l i.
Proof.
  induction l as [| x rest IH]; intros k v i Hik; simpl; [reflexivity |].
  destruct k as [| k'], i as [| i']; simpl; try reflexivity.
  - contradiction Hik. reflexivity.
  - apply IH. intros E. apply Hik. rewrite E. reflexivity.
Qed.


Lemma arrayIndex_Some (q : Q) (k : nat) :
  arrayIndex q = Some k -> q == inject_Z (Z.of_nat k).
Proof.
  unfold arrayIndex.
  destruct (Qeq_bool q (inject_Z (Qfloor q))) eqn:E1; [| discriminate].
  destruct (0 <=? Qfloor q)%Z eqn:E2; [| discriminate].
  simpl. intros H. injection H as <-.
  apply Qeq_bool_iff in E1. apply Z.leb_le in E2.
  rewrite Z2Nat.id by exact E2. exact E1.
Qed.

Lemma nextStopsOf_length (stopsInput : list StopInput) (swapIndex : Q)
    (replacementId : string) :
  List.length (nextStopsOf stopsInput swapIndex replacementId)
  = List.length stopsInput.
Proof.
  unfold nextStopsOf. destruct (arrayIndex swapIndex) as [k |]; [| reflexivity].
  destruct (nth_error stopsInput k); [apply setNth_length | reflexivity].
Qed.

(** Away from [swapIndex], [nextStops] is [stopsInput]. *)
Lemma nextStopsOf_other (stopsInput : list StopInput) (swapIndex : Q)
    (replacementId : string) (i : nat) :
  ~ swapIndex == inject_Z (Z.of_nat i) ->
  nth_error (nextStopsOf stopsInput swapIndex replacementId) i
  = nth_error stopsInput i.
Proof.
  intros Hne. unfold nextStopsOf.
  destruct (arrayIndex swapIndex) as [k |] eqn:Hk; [| reflexivity].
  destruct (nth_error stopsInput k); [| reflexivity].
  apply nth_error_setNth_other. intros E. subst i.
  apply Hne. apply arrayIndex_Some. exact Hk.
Qed.

(** Every stop of [nextStops] has the duration of the same stop of
    [stopsInput]. *)
Lemma nextStopsOf_durations (stopsInput : list StopInput) (swapIndex : Q)
    (replacementId : string) :
  map siDurationMin (nextStopsOf stopsInput swapIndex replacementId)
  = map siDurationMin stopsInput.
Proof.
  unfold nextStopsOf. destruct (arrayIndex swapIndex) as [k |]; [| reflexivity].
  destruct (nth_error stopsInput k) as [s |] eqn:Hs; [| reflexivity].
  revert k Hs. induction stopsInput as [| x rest IH]; intros k Hs.
  - destruct k; discriminate Hs.
  - destruct k as [| k']; simpl in *.
    + injection Hs as ->. reflexivity.
    + f_equal. apply IH. exact Hs.
Qed.

(** Clamping a clamped duration again changes nothing. *)
Lemma clamp_idempotent (n : JsNum) :
  clamp (Fin (clamp n 20 180)) 20 180 = clamp n 20 180.
Proof.
  destruct n as [q | | |]; try reflexivity.
  unfold clamp, Qmax, Qmin, GenericMinMax.gmax, GenericMinMax.gmin.
  destruct (180 ?= q) eqn:E1.
  - reflexivity.
  - reflexivity.
  - destruct (20 ?= q) eqn:E2.
    + reflexivity.
    + rewrite E1, E2. reflexivity.
    + reflexivity.
Qed.

(** Well-formed raw stops: none is dropped, and each keeps its id. *)
Lemma stopsInputOf_wellFormed (rawStops : list Raw.Stop) :
  forallb wellFormedStop rawStops = true ->
  stopsInputOf rawStops = map stopInputOf rawStops /\
  forall i raw,
    nth_error rawStops i = Some raw ->
    Raw.placeId raw = Some (siPlaceId (stopInputOf raw)).
Proof.
  intros Hwf. split.
  - unfold stopsInputOf.
    induction rawStops as [| s rest IH]; simpl in *; [reflexivity |].
    apply andb_true_iff in Hwf. destruct Hwf as [Hs Hrest].
    unfold wellFormedStop in Hs.
    destruct (Raw.placeId s) as [pid |] eqn:Hp; [| discriminate Hs].
    apply andb_true_iff in Hs. destruct Hs as [Hne Htrim].
    apply String.eqb_eq in Htrim.
    unfold stopInputOf at 1. simpl. rewrite Hp. simpl. rewrite Htrim, Hne.
    f_equal; [| apply IH; exact Hrest].
    unfold stopInputOf. rewrite Hp. simpl. rewrite Htrim. reflexivity.
  - intros i raw Hi.
    assert (Hin : In raw rawStops) by (eapply nth_error_In; exact Hi).
    rewrite forallb_forall in Hwf. specialize (Hwf raw Hin).
    unfold wellFormedStop in Hwf.
    destruct (Raw.placeId raw) as [pid |] eqn:Hp; [| discriminate Hwf].
    apply andb_true_iff in Hwf. destruct Hwf as [_ Htrim].
    apply String.eqb_eq in Htrim.
    unfold stopInputOf. simpl. rewrite Hp. simpl. rewrite Htrim. reflexivity.
Qed.

End SwapFrame.

Section SwapFrameTheorem.

Variable P : Provider.

(** The stops the handler keeps are those that carry an id once it is
    trimmed, normalised one by one. *)
Lemma stopsInputOf_kept (rawStops : list Raw.Stop) :
  stopsInputOf rawStops = map stopInputOf (keptStops rawStops).
Proof.
  unfold stopsInputOf, keptStops.
  induction rawStops as [| s rest IH]; simpl; [reflexivity |].
  destruct (trim (nullish (Raw.placeId s) "") =? ""); simpl;
    rewrite IH; reflexivity.
Qed.

(** Stops whose ids are clean are all kept, each with the id it has. *)
Lemma keptStops_wellFormed (rawStops : list Raw.Stop) :
  forallb wellFormedStop rawStops = true ->
  keptStops rawStops = rawStops /\
  forall raw,
    In raw rawStops ->
    Raw.placeId raw = Some (trim (nullish (Raw.placeId raw) "")).
Proof.
  intros Hwf. rewrite forallb_forall in Hwf.
  assert (Hclean : forall raw,
            In raw rawStops ->
            Raw.placeId raw = Some (trim (nullish (Raw.placeId raw) "")) /\
            (trim (nullish (Raw.placeId raw) "") =? "") = false).
  { intros raw Hin. specialize (Hwf raw Hin). unfold wellFormedStop in Hwf.
    destruct (Raw.placeId raw) as [pid |]; [| discriminate Hwf].
    apply andb_true_iff in Hwf. destruct Hwf as [Hne Htrim].
    apply String.eqb_eq in Htrim. cbn [nullish]. rewrite Htrim.
    split; [reflexivity | apply negb_true_iff; exact Hne]. }
  split; [| intros raw Hin; apply Hclean; exact Hin].
  unfold keptStops. clear Hwf.
  induction rawStops as [| s rest IH]; simpl; [reflexivity |].
  rewrite (proj2 (Hclean s (or_introl eq_refl))). simpl. f_equal.
  apply IH. intros raw Hin. apply Hclean. right. exact Hin.
Qed.

(** C1. Every swap request that is answered with a plan: the stop items
    of the plan are the stops of the request that carry a place id, in
    their order, after the parking pseudo-stop in a park-once plan; each
    has the caller's [durationMin] clamped to [20, 180], and each one
    whose index is not [swapIndex] has the caller's place id, as the
    handler reads it (trimmed).  When every stop of the request carries a
    clean place id (not empty, without surrounding white space), every
    stop is kept and the id the handler reads is the id as sent. *)
Theorem swap_keeps_other_stops (key : option string) (body : Req.Body)
    (plan : PlanResponse) :
  actionOf body = "swap" ->
  POST P key body = Json plan ->
  exists pre rest,
    stopEntries (items plan) = (pre ++ rest)%list /\
    (pre = [] \/ (Req.parkOnce body = true /\ exists pid, pre = [(pid, 5)])) /\
    List.length rest = List.length (keptStops (Req.stops body)) /\
    (forall i raw,
       nth_error (keptStops (Req.stops body)) i = Some raw ->
       exists pid,
         nth_error rest i
         = Some (pid, clamp (nullish (Raw.durationMin raw) (Fin 40)) 20 180) /\
         (~ swapIndexOf body == inject_Z (Z.of_nat i) ->
          pid = trim (nullish (Raw.placeId raw) ""))) /\
    (forallb wellFormedStop (Req.stops body) = true ->
     keptStops (Req.stops body) = Req.stops body /\
     forall raw,
       In raw (Req.stops body) ->
       Raw.placeId raw = Some (trim (nullish (Raw.placeId raw) ""))).
Proof.
  intros Ha Hpost.
  destruct (swap_plan_inv P key body plan Ha Hpost)
    as (centerLat & centerLng & replacement & _ & _ & Hre).
  unfold swapRebuildOf in Hre. apply swapRebuild_Next in Hre.
  destruct Hre as (stops & travelMins & Hstops & _ & Hplan).
  injection Hplan as ->. cbn [items].
  set (nextStops := swapNextStops body (nullish (id replacement) "")) in *.
  set (durationAt := fun i : nat =>
         nullish
           (nth_error
              (map (fun s => clamp (Fin (siDurationMin s)) 20 180) nextStops) i)
           40).
  destruct (stopEntries_assembleItems durationAt (Req.parkOnce body)
              (lookupParkOnce P (Req.parkOnce body) (destinationOf body) stops)
              stops travelMins) as (pre & Hent & Hpre).
  exists pre, (entriesFrom durationAt 0 stops).
  split; [exact Hent |]. split; [exact Hpre |].
  pose proof (enrichAll_placeIds P _ _ _ Hstops) as Hids.
  pose proof (stopsInputOf_kept (Req.stops body)) as Hinput.
  assert (Hlen : List.length stops = List.length (keptStops (Req.stops body))).
  { rewrite <- (length_map placeId stops), Hids, length_map.
    unfold nextStops, swapNextStops. rewrite nextStopsOf_length.
    unfold swapStopsInput. rewrite Hinput. apply length_map. }
  split; [rewrite entriesFrom_length; exact Hlen |].
  split; [| apply keptStops_wellFormed].
  intros i raw Hi.
  assert (Hin : nth_error (swapStopsInput body) i = Some (stopInputOf raw)).
  { unfold swapStopsInput. rewrite Hinput, nth_error_map, Hi. reflexivity. }
  assert (Hlt : (i < List.length nextStops)%nat).
  { unfold nextStops, swapNextStops. rewrite nextStopsOf_length.
    apply nth_error_Some. rewrite Hin. discriminate. }
  destruct (nth_error nextStops i) as [ns |] eqn:Hns;
    [| apply nth_error_None in Hns; lia].
  assert (Hdur : siDurationMin ns = siDurationMin (stopInputOf raw)).
  { pose proof (nextStopsOf_durations (swapStopsInput body) (swapIndexOf body)
                  (nullish (id replacement) "")) as Hd.
    fold (swapNextStops body (nullish (id replacement) "")) in Hd.
    fold nextStops in Hd.
    apply (f_equal (fun l => nth_error l i)) in Hd.
    rewrite !nth_error_map, Hns, Hin in Hd. simpl in Hd.
    injection Hd as Hd. exact Hd. }
  assert (Hst : nth_error (map placeId stops) i = Some (siPlaceId ns)).
  { rewrite Hids, nth_error_map, Hns. reflexivity. }
  rewrite nth_error_map in Hst.
  destruct (nth_error stops i) as [st |] eqn:Hsti; [| discriminate Hst].
  simpl in Hst. injection Hst as Hst.
  exists (siPlaceId ns). split.
  - rewrite nth_error_entriesFrom, Hsti. cbn [option_map Nat.add]. rewrite Hst.
    unfold durationAt. rewrite nth_error_map, Hns. cbn [option_map nullish].
    rewrite Hdur. unfold stopInputOf. cbn [siDurationMin].
    rewrite clamp_idempotent. reflexivity.
  - intros Hne.
    pose proof (nextStopsOf_other (swapStopsInput body) (swapIndexOf body)
                  (nullish (id replacement) "") i Hne) as Hsame.
    fold (swapNextStops body (nullish (id replacement) "")) in Hsame.
    fold nextStops in Hsame. rewrite Hns, Hin in Hsame.
    injection Hsame as ->. reflexivity.
Qed.

End SwapFrameTheorem.

(** ** The sample swap requests *)

Section SampleSwap.
Import Sample.

Lemma haversineKm_same (a : LatLng) : haversineKm a a = 0%R.
Proof.
  unfold haversineKm.
  assert (H0 : forall x : R, ((x - x) * PI / 180 / 2 = 0)%R)
    by (intros x; field).
  rewrite !H0, sin_0.
  replace (0 * 0 + cos (Q2R (latitude a) * PI / 180)
                   * cos (Q2R (latitude a) * PI / 180) * 0 * 0)%R
    with 0%R by ring.
  rewrite sqrt_0, Rmin_right by lra. rewrite asin_0. ring.
Qed.

(** A place at the centre is within any non-negative radius. *)
Lemma withinKm_center (c : LatLng) (p : Place) (maxKm : R) :
  location p = Some c -> (0 <= maxKm)%R -> withinKm c p maxKm = true.
Proof.
  intros Hloc Hkm. unfold withinKm. rewrite Hloc, haversineKm_same.
  apply Rleb_true. exact Hkm.
Qed.

(** A single candidate that passes every test is the whole pool. *)
Lemma swapFiltered_single (p : Place) (excludeIds : list string)
    (targetCategory : Category) (swapCenter : LatLng) (maxKm : R)
    (riderMode : bool) :
  truthy (id p) = true ->
  location p = Some swapCenter ->
  includes excludeIds (nullish (id p) "") = false ->
  isNoisyType (types p) = false ->
  Category_eqb (pickCategory (types p)) targetCategory = true ->
  (0 <= maxKm)%R ->
  swapFiltered [p] excludeIds targetCategory swapCenter maxKm riderMode = [p].
Proof.
  intros Hid Hloc Hex Hnoisy Hcat Hkm. unfold swapFiltered.
  cbn [filter]. rewrite Hid, Hloc. cbn [andb filter]. rewrite Hex.
  cbn [negb filter]. rewrite Hnoisy. cbn [negb filter]. rewrite Hcat.
  cbn [filter]. rewrite (withinKm_center _ _ _ Hloc Hkm). reflexivity.
Qed.

Lemma sample_pool (pid : string) (closed : list string) :
  (pid =? "A") = false -> (pid =? "") = false ->
  swapPoolOf (provider [placeAt pid] closed) swapBody 49.28 (-123.12)
  = [placeAt pid].
Proof.
  intros HA Hne.
  change (swapFiltered [placeAt pid]
            (excludeIdsOf (swapStopsInput swapBody) "B") attraction center
            4.0%R false = [placeAt pid]).
  apply swapFiltered_single; try reflexivity.
  - change (negb (pid =? "") = true). rewrite Hne. reflexivity.
  - change (includes ["A"] pid = false).
    unfold includes. cbn [existsb]. rewrite HA. reflexivity.
  - lra.
Qed.

End SampleSwap.

(** ** Swap branch: which places can be the replacement *)

Section SwapPool.

Variable P : Provider.

Lemma In_firstn {A : Type} (n : nat) :
  forall (l : list A) (x : A), In x (firstn n l) -> In x l.
Proof.
  induction n as [| n' IH]; intros l x H; simpl in H; [destruct H |].
  destruct l as [| y rest]; [destruct H |].
  destruct H as [H | H]; [left; exact H | right; apply IH; exact H].
Qed.

Lemma includes_In (l : list string) (k : string) :
  includes l k = true <-> In k l.
Proof.
  unfold includes. rewrite existsb_exists. split.
  - intros [x [Hin Heq]]. apply String.eqb_eq in Heq. subst x. exact Hin.
  - intros Hin. exists k. split; [exact Hin | apply String.eqb_refl].
Qed.

(** A place of the swap pool has an id, and the id is not excluded. *)
Lemma swapFiltered_In (candidates : list Place) (excludeIds : list string)
    (targetCategory : Category) (swapCenter : LatLng) (maxKm : R)
    (riderMode : bool) (p : Place) :
  In p (swapFiltered candidates excludeIds targetCategory swapCenter maxKm
          riderMode) ->
  In p candidates /\
  truthy (id p) = true /\
  includes excludeIds (nullish (id p) "") = false.
Proof.
  unfold swapFiltered. intros H.
  apply (Permutation_in _ (Permutation_sym (sortBy_perm _ _))) in H.
  apply filter_In in H. destruct H as [H _].
  apply filter_In in H. destruct H as [H _].
  apply filter_In in H. destruct H as [H _].
  apply filter_In in H. destruct H as [H Hex].
  apply filter_In in H. destruct H as [H Hid].
  apply andb_true_iff in Hid. destruct Hid as [Hid _].
  apply negb_true_iff in Hex. auto.
Qed.

(** C2, as amended. The replacement of an accepted swap request has a
    place id, and that id differs from the id of every input stop other
    than [swapPlaceId]: the ids of the other stops are excluded from the
    pool, [swapPlaceId] itself is not. *)
Theorem swap_replacement_avoids_other_stops (key : option string)
    (body : Req.Body) (centerLat centerLng : Q) (replacement : Place) :
  swapAccepted key body = Some (centerLat, centerLng) ->
  pickReplacement P (firstn 12 (swapPoolOf P body centerLat centerLng))
  = Some replacement ->
  exists rid,
    id replacement = Some rid /\
    forall s,
      In s (swapStopsInput body) ->
      siPlaceId s <> swapPlaceIdOf body ->
      rid <> siPlaceId s.
Proof.
  intros _ Hpick.
  apply pickReplacement_In in Hpick. destruct Hpick as [Hin _].
  apply In_firstn in Hin. unfold swapPoolOf, swapPool in Hin.
  apply swapFiltered_In in Hin. destruct Hin as (_ & Hid & Hex).
  destruct (id replacement) as [rid |] eqn:Hrid; [| discriminate Hid].
  exists rid. split; [reflexivity |].
  intros s Hs Hne Heq. simpl in Hex.
  assert (Hinc : includes (excludeIdsOf (swapStopsInput body) (swapPlaceIdOf body))
                   rid = true).
  { apply includes_In. unfold excludeIdsOf. apply filter_In. split.
    - rewrite Heq. apply in_map. exact Hs.
    - apply negb_true_iff. apply String.eqb_neq. rewrite Heq. exact Hne. }
  rewrite Hinc in Hex. discriminate Hex.
Qed.

End SwapPool.

(** ** The sample swap requests, run *)

Section SampleSwapRuns.
Import Sample.

Lemma sample_swap_accepted :
  swapAccepted key swapBody = Some (49.28, -123.12).
Proof. reflexivity. Qed.

(** With [C] nearby and open, the swap of [B] answers the plan with [C]. *)
Lemma sample_swap_to_C :
  POST (provider [placeC] []) key swapBody = Json (swapPlan "C").
Proof.
  unfold POST.
  replace (trim (nullish (Req.action swapBody) "") =? "swap") with true
    by reflexivity.
  rewrite (swapBranch_accepted _ _ _ _ _ sample_swap_accepted).
  unfold placeC. rewrite sample_pool by reflexivity.
  vm_compute. reflexivity.
Qed.

(** With only [B] itself nearby, the swap of [B] answers the plan it was
    given. *)
Lemma sample_swap_to_B :
  POST (provider [placeB] []) key swapBody = Json (swapPlan "B").
Proof.
  unfold POST.
  replace (trim (nullish (Req.action swapBody) "") =? "swap") with true
    by reflexivity.
  rewrite (swapBranch_accepted _ _ _ _ _ sample_swap_accepted).
  unfold placeB. rewrite sample_pool by reflexivity.
  vm_compute. reflexivity.
Qed.

Lemma padded_pool :
  swapPoolOf (provider [placeC] []) Padded.body 49.28 (-123.12) = [placeC].
Proof.
  change (swapFiltered [placeC]
            (excludeIdsOf (swapStopsInput Padded.body) "B") attraction center
            4.0%R false = [placeC]).
  apply swapFiltered_single; try reflexivity. lra.
Qed.

(** The padded request is answered: [A] under its trimmed id, the stop
    without id gone, [C] in the place of [B]. *)
Lemma padded_swap_answer :
  POST (provider [placeC] []) key Padded.body = Json Padded.answer /\
  stopEntries (items Padded.answer) = [("A", 45); ("C", 180)].
Proof.
  split; [| reflexivity].
  unfold POST.
  replace (trim (nullish (Req.action Padded.body) "") =? "swap") with true
    by reflexivity.
  rewrite (swapBranch_accepted _ key Padded.body 49.28 (-123.12) eq_refl).
  rewrite padded_pool. vm_compute. reflexivity.
Qed.

Lemma swap_keeps_other_stops_witness :
  exists pre rest,
    stopEntries (items Padded.answer) = (pre ++ rest)%list /\
    (pre = [] \/
     (Req.parkOnce Padded.body = true /\ exists pid, pre = [(pid, 5)])) /\
    List.length rest = List.length (keptStops (Req.stops Padded.body)) /\
    (forall i raw,
       nth_error (keptStops (Req.stops Padded.body)) i = Some raw ->
       exists pid,
         nth_error rest i
         = Some (pid, clamp (nullish (Raw.durationMin raw) (Fin 40)) 20 180) /\
         (~ swapIndexOf Padded.body == inject_Z (Z.of_nat i) ->
          pid = trim (nullish (Raw.placeId raw) ""))) /\
    (forallb wellFormedStop (Req.stops Padded.body) = true ->
     keptStops (Req.stops Padded.body) = Req.stops Padded.body /\
     forall raw,
       In raw (Req.stops Padded.body) ->
       Raw.placeId raw = Some (trim (nullish (Raw.placeId raw) ""))).
Proof.
  apply (swap_keeps_other_stops (provider [placeC] []) key Padded.body
           Padded.answer).
  - reflexivity.
  - apply padded_swap_answer.
Defined.

Lemma swap_replacement_avoids_other_stops_witness :
  exists rid,
    id placeC = Some rid /\
    forall s,
      In s (swapStopsInput swapBody) ->
      siPlaceId s <> swapPlaceIdOf swapBody ->
      rid <> siPlaceId s.
Proof.
  apply (swap_replacement_avoids_other_stops (provider [placeC] []) key
           swapBody 49.28 (-123.12) placeC).
  - reflexivity.
  - unfold placeC. rewrite sample_pool by reflexivity. reflexivity.
Defined.

(** C2, as stated, fails: [B] is swapped out, only [B] itself is found
    nearby, and [B] is in the pool, is chosen as the replacement, and
    stands in the answered plan where it stood. *)
Lemma swap_replacement_counterexample :
  let P := provider [placeB] [] in
  swapAccepted key swapBody = Some (49.28, -123.12) /\
  swapPlaceIdOf swapBody = "B" /\
  option_map siPlaceId (at_ (swapStopsInput swapBody) (swapIndexOf swapBody))
  = Some "B" /\
  In placeB (swapPoolOf P swapBody 49.28 (-123.12)) /\
  pickReplacement P (firstn 12 (swapPoolOf P swapBody 49.28 (-123.12)))
  = Some placeB /\
  id placeB = Some "B" /\
  exists plan,
    POST P key swapBody = Json plan /\
    stopEntries (items plan) = [("A", 45); ("B", 180)].
Proof.
  intros P. unfold P, placeB. rewrite sample_pool by reflexivity.
  repeat split; try reflexivity.
  - left. reflexivity.
  - exists (swapPlan "B"). split; [apply sample_swap_to_B | reflexivity].
Qed.

Lemma swap_without_open_replacement_witness :
  POST (provider [placeC] ["C"]) key swapBody
  = ErrorJson "No OPEN replacement found nearby" 404.
Proof.
  apply (proj2 (proj2
           (swap_without_open_replacement (provider [placeC] ["C"]) key
              swapBody 49.28 (-123.12) eq_refl eq_refl))).
  unfold placeC. rewrite sample_pool by reflexivity.
  intros cand [<- | []]. reflexivity.
Defined.

End SampleSwapRuns.

(** ** Fresh plan: the rating gate *)

Section RatingGate.

Lemma Qltb_true (x y : Q) : Qltb x y = true <-> x < y.
Proof.
  unfold Qltb. rewrite negb_true_iff. split.
  - intros H. apply Qnot_le_lt. intros Hle.
    apply Qle_bool_iff in Hle. rewrite Hle in H. discriminate H.
  - intros H. destruct (Qle_bool y x) eqn:E; [| reflexivity].
    apply Qle_bool_iff in E. exfalso. exact (Qlt_not_le _ _ H E).
Qed.

(** The gate turns away a rated place with enough reviews and a rating
    under the bar. *)
Lemma qualityGate_rejects (destCenter : option LatLng) (radiusKm : R)
    (p : Place) :
  (20 <= nullish (pUserRatingCount p) 0 /\
   0 < nullish (pRating p) 0 /\ nullish (pRating p) 0 < 4.1) \/
  (5 <= nullish (pUserRatingCount p) 0 /\
   0 < nullish (pRating p) 0 /\ nullish (pRating p) 0 < 3.9) ->
  qualityGate destCenter radiusKm p = false.
Proof.
  unfold qualityGate. intros [(Hc & Hpos & Hr) | (Hc & Hpos & Hr)].
  - apply Qle_bool_iff in Hc. apply Qltb_true in Hpos. apply Qltb_true in Hr.
    rewrite Hc, Hpos, Hr. reflexivity.
  - apply Qle_bool_iff in Hc. apply Qltb_true in Hpos. apply Qltb_true in Hr.
    rewrite Hc, Hpos, Hr. cbn [andb].
    destruct (Qle_bool 20 (nullish (pUserRatingCount p) 0) && true
              && Qltb (nullish (pRating p) 0) 4.1)%bool; reflexivity.
Qed.

(** C3, as amended. A pooled candidate with at least 20 reviews and a
    rating that is positive and below 4.1 is not in the filtered pool, nor
    is one with at least 5 reviews and a rating that is positive and below
    3.9 (a missing rating counts as 0 and a missing review count as 0). *)
Theorem fresh_rating_gate (pooled : list Place) (excludeSet : list string)
    (destCenter : option LatLng) (riderMode : bool) (p : Place) :
  (20 <= nullish (pUserRatingCount p) 0 /\
   0 < nullish (pRating p) 0 /\ nullish (pRating p) 0 < 4.1) \/
  (5 <= nullish (pUserRatingCount p) 0 /\
   0 < nullish (pRating p) 0 /\ nullish (pRating p) 0 < 3.9) ->
  ~ In p (freshFiltered pooled excludeSet destCenter riderMode).
Proof.
  intros Hlow Hin. unfold freshFiltered in Hin.
  apply (Permutation_in _ (Permutation_sym (sortBy_perm _ _))) in Hin.
  apply filter_In in Hin. destruct Hin as [_ Hgate].
  rewrite (qualityGate_rejects _ _ _ Hlow) in Hgate. discriminate Hgate.
Qed.

Lemma fresh_rating_gate_witness :
  let p :=
    {| id := Some "diner"; displayName := Some "Diner";
       formattedAddress := None; location := Some Sample.center;
       types := ["restaurant"]; pRating := Some 3.8;
       pUserRatingCount := Some 64 |} in
  ~ In p (freshFiltered [p; Sample.placeC] [] None false).
Proof.
  intros p. apply (fresh_rating_gate [p; Sample.placeC] [] None false p).
  left. repeat split; vm_compute; congruence.
Defined.

(** C3, as stated, fails: a place with 25 reviews and no rating (rating
    0, below 4.1 and below 3.9) stays in the filtered pool. *)
Lemma fresh_rating_gate_counterexample :
  let p :=
    {| id := Some "unrated"; displayName := Some "Unrated";
       formattedAddress := None; location := Some Sample.center;
       types := ["museum"]; pRating := None;
       pUserRatingCount := Some 25 |} in
  20 <= nullish (pUserRatingCount p) 0 /\
  nullish (pRating p) 0 < 3.9 /\
  freshFiltered [p] [] None false = [p].
Proof.
  intros p. split; [discriminate |]. split; reflexivity.
Qed.

End RatingGate.

(** ** Fresh plan: how a request runs *)

Section FreshRuns.

Variable P : Provider.

Lemma searchAll_not_Return (queries : list string) (r : Response) :
  searchAll P queries <> Return_ r.
Proof.
  induction queries as [| q rest IH]; simpl; [discriminate |].
  intros H. apply bind_Return in H. destruct H as [H | [places [_ H]]].
  { exact (await_not_Return _ _ H). }
  apply bind_Return in H. destruct H as [H | [more [_ H]]].
  { exact (IH H). }
  discriminate H.
Qed.

Lemma enrichOpen_not_Return (destination : string) (stopCount maxAttempts : nat)
    (candidatesOrdered : list Place) (r : Response) :
  forall stops usedIds attempts,
    enrichOpen P destination stopCount maxAttempts candidatesOrdered stops
      usedIds attempts <> Return_ r.
Proof.
  induction candidatesOrdered as [| p rest IH]; intros stops usedIds attempts;
    simpl; [discriminate |].
  destruct (stopCount <=? List.length stops)%nat; [discriminate |].
  destruct (maxAttempts <=? attempts)%nat; [discriminate |].
  destruct (nullish (id p) "" =? ""); [apply IH |].
  destruct (includes usedIds (nullish (id p) "")); [apply IH |].
  intros H. apply bind_Return in H. destruct H as [H | [details [_ H]]].
  { exact (await_not_Return _ _ H). }
  destruct (dOpenNow details) as [[|] |].
  - apply bind_Return in H. destruct H as [H | [stop [_ H]]].
    { exact (enrichStop_not_Return P _ _ _ _ _ H). }
    exact (IH _ _ _ H).
  - exact (IH _ _ _ H).
  - apply bind_Return in H. destruct H as [H | [stop [_ H]]].
    { exact (enrichStop_not_Return P _ _ _ _ _ H). }
    exact (IH _ _ _ H).
Qed.

(** The enrichment loop never holds more than [stopCount] stops (or than
    it started with). *)
Lemma enrichOpen_length (destination : string) (stopCount maxAttempts : nat)
    (candidatesOrdered : list Place) :
  forall stops usedIds attempts result,
    enrichOpen P destination stopCount maxAttempts candidatesOrdered stops
      usedIds attempts = Next result ->
    (List.length result <= Nat.max stopCount (List.length stops))%nat.
Proof.
  induction candidatesOrdered as [| p rest IH];
    intros stops usedIds attempts result; simpl.
  - intros H. injection H as <-. lia.
  - destruct (stopCount <=? List.length stops)%nat eqn:Efull.
    { intros H. injection H as <-. lia. }
    apply Nat.leb_gt in Efull.
    destruct (maxAttempts <=? attempts)%nat.
    { intros H. injection H as <-. lia. }
    destruct (nullish (id p) "" =? ""); [apply IH |].
    destruct (includes usedIds (nullish (id p) "")); [apply IH |].
    intros H. apply bind_Next in H. destruct H as [details [_ H]].
    assert (Hpush : forall stop,
              enrichOpen P destination stopCount maxAttempts rest
                (stops ++ [stop])%list (nullish (id p) "" :: usedIds)
                (S attempts) = Next result ->
              (List.length result <= Nat.max stopCount (List.length stops))%nat).
    { intros stop Hrun. apply IH in Hrun.
      rewrite length_app in Hrun. simpl in Hrun. lia. }
    destruct (dOpenNow details) as [[|] |].
    + apply bind_Next in H. destruct H as [stop [_ H]]. exact (Hpush _ H).
    + exact (IH _ _ _ _ H).
    + apply bind_Next in H. destruct H as [stop [_ H]]. exact (Hpush _ H).
Qed.

Lemma freshStops_Return (destination : string) (vibesFinal : list string)
    (parkOnce riderMode : bool) (excludeSet : list string) (stopCount : nat)
    (r : Response) :
  freshStops P destination vibesFinal parkOnce riderMode excludeSet stopCount
  = Return_ r ->
  isError r.
Proof.
  unfold freshStops. intros H.
  apply bind_Return in H. destruct H as [H | [destPlaces [_ H]]].
  { exfalso. exact (await_not_Return _ _ H). }
  apply bind_Return in H. destruct H as [H | [vibeResults [_ H]]].
  { exfalso. exact (searchAll_not_Return _ _ H). }
  apply bind_Return in H. destruct H as [H | [candA [_ H]]].
  { exfalso. exact (await_not_Return _ _ H). }
  apply bind_Return in H. destruct H as [H | [candF [_ H]]].
  { exfalso. exact (await_not_Return _ _ H). }
  apply bind_Return in H. destruct H as [H | [candP [_ H]]].
  { exfalso. exact (await_not_Return _ _ H). }
  apply bind_Return in H. destruct H as [H | [candScenic [_ H]]].
  { exfalso. exact (await_not_Return _ _ H). }
  apply bind_Return in H. destruct H as [H | [candRideCoffee [_ H]]].
  { exfalso. exact (await_not_Return _ _ H). }
  unfold freshSelect in H.
  apply bind_Return in H. destruct H as [H | [u [_ H]]].
  { apply returnIf_Return in H. subst r. exact I. }
  apply bind_Return in H. destruct H as [H | [stops [_ H]]].
  { exfalso. exact (enrichOpen_not_Return _ _ _ _ _ _ _ _ H). }
  apply bind_Return in H. destruct H as [H | [u' [_ H]]].
  { apply returnIf_Return in H. subst r. exact I. }
  discriminate H.
Qed.

(** The open stops of a fresh plan are at least two and at most
    [stopCount]. *)
Lemma freshStops_length (destination : string) (vibesFinal : list string)
    (parkOnce riderMode : bool) (excludeSet : list string) (stopCount : nat)
    (stops : list StopDetails) :
  freshStops P destination vibesFinal parkOnce riderMode excludeSet stopCount
  = Next stops ->
  (2 <= List.length stops <= Nat.max stopCount 2)%nat.
Proof.
  unfold freshStops. intros H.
  apply bind_Next in H. destruct H as [destPlaces [_ H]].
  apply bind_Next in H. destruct H as [vibeResults [_ H]].
  apply bind_Next in H. destruct H as [candA [_ H]].
  apply bind_Next in H. destruct H as [candF [_ H]].
  apply bind_Next in H. destruct H as [candP [_ H]].
  apply bind_Next in H. destruct H as [candScenic [_ H]].
  apply bind_Next in H. destruct H as [candRideCoffee [_ H]].
  unfold freshSelect in H.
  apply bind_Next in H. destruct H as [u [_ H]].
  apply bind_Next in H. destruct H as [found [Hrun H]].
  apply bind_Next in H. destruct H as [u' [Hmin H]].
  injection H as <-.
  apply returnIf_Next in Hmin. apply Nat.ltb_ge in Hmin.
  apply enrichOpen_length in Hrun. simpl in Hrun. lia.
Qed.

Lemma freshFinish_not_Return (destination : string) (totalMinutes : Q)
    (vibeLabel : string) (vibesFinal : list string) (parkOnce riderMode : bool)
    (bufferMinutes : Q) (stops : list StopDetails) (r : Response) :
  freshFinish P destination totalMinutes vibeLabel vibesFinal parkOnce riderMode
    bufferMinutes stops <> Return_ r.
Proof.
  unfold freshFinish. intros H.
  apply bind_Return in H. destruct H as [H | [travelMins [_ H]]].
  { exact (computeTravelMins_not_Return P _ _ _ _ _ H). }
  discriminate H.
Qed.

Lemma freshFinish_Next (destination : string) (totalMinutes : Q)
    (vibeLabel : string) (vibesFinal : list string) (parkOnce riderMode : bool)
    (bufferMinutes : Q) (stops : list StopDetails) (r : Response) :
  freshFinish P destination totalMinutes vibeLabel vibesFinal parkOnce riderMode
    bufferMinutes stops = Next r ->
  exists travelMins,
    computeTravelMins P parkOnce
      (lookupParkOnce P parkOnce destination stops) bufferMinutes stops
    = Next travelMins /\
    r = Json {| destination := destination;
                totalMinutes := totalMinutes;
                vibe := vibeLabel;
                vibes := vibesFinal;
                parkOnce := parkOnce;
                riderMode := riderMode;
                bufferMinutes := bufferMinutes;
                source := "google";
                items :=
                  assembleItems
                    (freshDurationAt P totalMinutes travelMins (List.length stops))
                    parkOnce (lookupParkOnce P parkOnce destination stops)
                    stops travelMins |}.
Proof.
  unfold freshFinish. intros H.
  apply bind_Next in H. destruct H as [travelMins [Hlegs H]].
  exists travelMins. split; [exact Hlegs |].
  injection H as <-. reflexivity.
Qed.

Lemma freshBranch_accepted (key : option string) (body : Req.Body) :
  freshAccepted key body = true ->
  freshBranch P key body
  = (stops <- freshStopsOf P body ;; freshFinishOf P body stops).
Proof.
  unfold freshAccepted, freshBranch, freshStopsOf, freshFinishOf, destinationOf,
    totalMinutesOf, bufferMinutesOf, stopCountOf.
  cbv zeta. intros H. apply andb_true_iff in H. destruct H as [Hd Hk].
  apply negb_true_iff in Hd. rewrite Hd, Hk. reflexivity.
Qed.

Lemma freshBranch_rejected (key : option string) (body : Req.Body) :
  freshAccepted key body = false ->
  exists msg status, freshBranch P key body = Return_ (ErrorJson msg status).
Proof.
  unfold freshAccepted, freshBranch, destinationOf. cbv zeta. intros H.
  destruct (trim (nullish (Req.destination body) "") =? "");
    [do 2 eexists; reflexivity |].
  destruct (truthy key); [discriminate H | do 2 eexists; reflexivity].
Qed.

(** A plan answered to a fresh request comes from the end of the branch,
    run on the open stops. *)
Lemma fresh_plan_inv (key : option string) (body : Req.Body)
    (plan : PlanResponse) :
  (actionOf body =? "swap") = false ->
  POST P key body = Json plan ->
  exists stops,
    freshAccepted key body = true /\
    freshStopsOf P body = Next stops /\
    freshFinishOf P body stops = Next (Json plan).
Proof.
  unfold POST, actionOf. intros Ha H. rewrite Ha in H.
  destruct (freshAccepted key body) eqn:Hacc.
  - rewrite (freshBranch_accepted _ _ Hacc) in H.
    destruct (freshStopsOf P body) as [stops | r | msg] eqn:Hstops.
    + exists stops. repeat split. simpl in H.
      destruct (freshFinishOf P body stops) as [r | r | msg] eqn:Hr.
      * rewrite H. reflexivity.
      * exfalso. exact (freshFinish_not_Return _ _ _ _ _ _ _ _ _ Hr).
      * discriminate H.
    + simpl in H. apply freshStops_Return in Hstops.
      rewrite H in Hstops. destruct Hstops.
    + discriminate H.
  - destruct (freshBranch_rejected _ _ Hacc) as [msg [status Hrej]].
    rewrite Hrej in H. discriminate H.
Qed.

End FreshRuns.

(** ** What every plan echoes *)

Section Echo.

Variable P : Provider.

(** A plan echoes the clamped total and buffer minutes of its request. *)
Lemma POST_echo (key : option string) (body : Req.Body) (plan : PlanResponse) :
  POST P key body = Json plan ->
  totalMinutes plan = totalMinutesOf body /\
  bufferMinutes plan = bufferMinutesOf body.
Proof.
  intros H. destruct (actionOf body =? "swap") eqn:Ha.
  - apply String.eqb_eq in Ha.
    destruct (swap_plan_inv P key body plan Ha H)
      as (centerLat & centerLng & replacement & _ & _ & Hre).
    unfold swapRebuildOf in Hre. apply swapRebuild_Next in Hre.
    destruct Hre as (stops & travelMins & _ & _ & Hplan).
    injection Hplan as ->. split; reflexivity.
  - destruct (fresh_plan_inv P key body plan Ha H) as (stops & _ & _ & Hfin).
    unfold freshFinishOf in Hfin. apply freshFinish_Next in Hfin.
    destruct Hfin as (travelMins & _ & Hplan).
    injection Hplan as ->. split; reflexivity.
Qed.

(** C10. [clamp] answers [min] for a number that is not finite, and a
    value between [min] and [max] whenever [min <= max]; so every plan
    echoes total minutes in [120, 420] and buffer minutes in [0, 20],
    whatever the request carried. *)
Theorem plan_echoes_clamped_minutes (key : option string) (body : Req.Body)
    (n : JsNum) (min max : Q) :
  (isFinite n = false -> clamp n min max = min) /\
  (min <= max -> min <= clamp n min max /\ clamp n min max <= max) /\
  (forall plan,
     POST P key body = Json plan ->
     (120 <= totalMinutes plan /\ totalMinutes plan <= 420) /\
     (0 <= bufferMinutes plan /\ bufferMinutes plan <= 20)).
Proof.
  split; [apply clamp_nonfinite |]. split; [apply clamp_range |].
  intros plan H. destruct (POST_echo _ _ _ H) as [-> ->].
  split; [apply clamp_total_range | apply clamp_buffer_range].
Qed.

End Echo.

Lemma plan_echoes_clamped_minutes_witness :
  clamp NaN 120 420 = 120 /\
  (0 <= clamp (Fin 45) 0 20 /\ clamp (Fin 45) 0 20 <= 20) /\
  ((120 <= totalMinutes (Sample.swapPlan "C") /\
    totalMinutes (Sample.swapPlan "C") <= 420) /\
   (0 <= bufferMinutes (Sample.swapPlan "C") /\
    bufferMinutes (Sample.swapPlan "C") <= 20)).
Proof.
  split; [| split].
  - apply (proj1 (plan_echoes_clamped_minutes
                    (Sample.provider [Sample.placeC] []) Sample.key
                    Sample.swapBody NaN 120 420)).
    reflexivity.
  - apply (proj1 (proj2 (plan_echoes_clamped_minutes
                           (Sample.provider [Sample.placeC] []) Sample.key
                           Sample.swapBody (Fin 45) 0 20))).
    discriminate.
  - apply (proj2 (proj2 (plan_echoes_clamped_minutes
                           (Sample.provider [Sample.placeC] []) Sample.key
                           Sample.swapBody NaN 120 420))).
    apply sample_swap_to_C.
Defined.

(** ** Fresh plan: park once without a parking place *)

Section ParkOnce.

Variable P : Provider.

Lemma parkingShown_none (parkOnce : bool)
    (parkOnceLocation : option ParkingOption) :
  parkOnceLocation = None \/
  (exists pk, parkOnceLocation = Some pk /\
              (pkLat pk = None \/ pkLng pk = None)) ->
  parkingShown parkOnce parkOnceLocation = None.
Proof.
  unfold parkingShown. intros [-> | (pk & -> & [H | H])];
    destruct parkOnce; try reflexivity; rewrite H; try reflexivity.
  destruct (pkLat pk); reflexivity.
Qed.

Lemma travelModes_driveItems (durationAt : nat -> Q) (stops : list StopDetails)
    (travelMins : list Q) :
  Forall (eq DRIVE) (travelModes (driveItems durationAt stops travelMins)).
Proof.
  unfold driveItems. generalize (seq 0 (List.length stops)) as indices.
  induction indices as [| i rest IH]; simpl.
  - constructor.
  - rewrite travelModes_app. apply Forall_app. split; [| exact IH].
    destruct (nth_error stops i); [| constructor].
    destruct (nth_error travelMins i); simpl; repeat constructor.
Qed.


(** Without a shown parking place the end of the fresh plan is the
    driving one. *)
Lemma freshFinish_drive (body : Req.Body) (stops : list StopDetails) :
  parkingShown (Req.parkOnce body)
    (lookupParkOnce P (Req.parkOnce body) (destinationOf body) stops) = None ->
  freshFinishOf P body stops
  = (travelMins <- legsBetween P DRIVE (bufferMinutesOf body) stops ;;
     Next (Json (drivePlanOf P body stops travelMins))).
Proof.
  intros Hshown. unfold freshFinishOf, freshFinish, computeTravelMins,
    assembleItems, drivePlanOf, freshDurationAt.
  rewrite Hshown. reflexivity.
Qed.

(** A fresh request that reaches its open stops and shows no parking
    place is answered from the driving legs alone. *)
Lemma POST_fresh_drive (key : option string) (body : Req.Body)
    (stops : list StopDetails) :
  (actionOf body =? "swap") = false ->
  freshAccepted key body = true ->
  freshStopsOf P body = Next stops ->
  parkingShown (Req.parkOnce body)
    (lookupParkOnce P (Req.parkOnce body) (destinationOf body) stops) = None ->
  POST P key body =
  match legsBetween P DRIVE (bufferMinutesOf body) stops with
  | Next travelMins => Json (drivePlanOf P body stops travelMins)
  | Return_ r => r
  | Raise msg => ErrorJson msg 500
  end.
Proof.
  intros Ha Hacc Hstops Hshown.
  unfold POST. unfold actionOf in Ha. rewrite Ha.
  rewrite (freshBranch_accepted P _ _ Hacc), Hstops. cbn [bind].
  rewrite (freshFinish_drive _ _ Hshown).
  destruct (legsBetween P DRIVE (bufferMinutesOf body) stops); reflexivity.
Qed.

End ParkOnce.

(** ** The stop count of a plan *)

Section StopCount.

Variable P : Provider.

Lemma swapAccepted_stops (key : option string) (body : Req.Body)
    (center : Q * Q) :
  swapAccepted key body = Some center ->
  (2 <= List.length (swapStopsInput body))%nat.
Proof.
  unfold swapAccepted.
  destruct (destinationOf body =? ""); [discriminate |].
  destruct (negb (truthy key)); [discriminate |].
  destruct (List.length (swapStopsInput body) <? 2)%nat eqn:E;
    [discriminate |].
  intros _. apply Nat.ltb_ge in E. exact E.
Qed.

(** C5, as amended. With [t] the total minutes a plan echoes, which are
    those of the request clamped to [120, 420]: a fresh plan has at least
    2 stops and at most [pickStopCount t] (after the parking pseudo-stop
    of a park-once plan), where [pickStopCount t] is 2 when [t <= 140]
    and 3 above; so it has exactly 2 stops when [t <= 140], and 2 or 3
    above.  A swap plan has as many stops as its request has stops with a
    place id, at least 2. *)
Theorem stop_count_from_total_minutes (key : option string) (body : Req.Body)
    (plan : PlanResponse) :
  POST P key body = Json plan ->
  let t := totalMinutes plan in
  t = totalMinutesOf body /\
  (120 <= t /\ t <= 420) /\
  exists pre rest,
    stopEntries (items plan) = (pre ++ rest)%list /\
    (pre = [] \/
     (Req.parkOnce body = true /\ exists pid, pre = [(pid, 5)])) /\
    ((actionOf body =? "swap") = false ->
     (2 <= List.length rest <= pickStopCount t)%nat /\
     (t <= 140 -> pickStopCount t = 2%nat /\ List.length rest = 2%nat) /\
     (140 < t ->
      pickStopCount t = 3%nat /\
      (List.length rest = 2%nat \/ List.length rest = 3%nat))) /\
    (actionOf body = "swap" ->
     List.length rest = List.length (keptStops (Req.stops body)) /\
     (2 <= List.length rest)%nat).
Proof.
  intros Hplan t.
  assert (Ht : t = totalMinutesOf body) by apply (POST_echo P _ _ _ Hplan).
  split; [exact Ht |].
  split; [rewrite Ht; apply clamp_total_range |].
  destruct (actionOf body =? "swap") eqn:Ha.
  - apply String.eqb_eq in Ha.
    destruct (swap_plan_inv P key body plan Ha Hplan)
      as (centerLat & centerLng & replacement & Hacc & _ & Hre).
    unfold swapRebuildOf in Hre. apply swapRebuild_Next in Hre.
    destruct Hre as (stops & travelMins & Hstops & _ & Hjson).
    injection Hjson as Hjson. subst t. rewrite Hjson. cbn [items].
    match goal with
    | |- context [assembleItems ?d _ _ _ _] => set (durationAt := d)
    end.
    destruct (stopEntries_assembleItems durationAt (Req.parkOnce body)
                (lookupParkOnce P (Req.parkOnce body) (destinationOf body) stops)
                stops travelMins) as (pre & Hent & Hpre).
    exists pre, (entriesFrom durationAt 0 stops).
    split; [exact Hent |]. split; [exact Hpre |].
    split; [discriminate |]. intros _.
    rewrite entriesFrom_length.
    assert (Hlen : List.length stops = List.length (swapStopsInput body)).
    { rewrite <- (length_map placeId stops),
        (enrichAll_placeIds P _ _ _ Hstops), length_map.
      unfold swapNextStops. apply nextStopsOf_length. }
    rewrite Hlen. split.
    + unfold swapStopsInput. rewrite stopsInputOf_kept. apply length_map.
    + apply (swapAccepted_stops _ _ _ Hacc).
  - destruct (fresh_plan_inv P key body plan Ha Hplan)
      as (stops & _ & Hstops & Hfin).
    unfold freshFinishOf in Hfin. apply freshFinish_Next in Hfin.
    destruct Hfin as (travelMins & _ & Hjson).
    injection Hjson as Hjson. rewrite Ht. clear Ht. subst t.
    rewrite Hjson. cbn [items].
    match goal with
    | |- context [assembleItems ?d _ _ _ _] => set (durationAt := d)
    end.
    destruct (stopEntries_assembleItems durationAt (Req.parkOnce body)
                (lookupParkOnce P (Req.parkOnce body) (destinationOf body) stops)
                stops travelMins) as (pre & Hent & Hpre).
    exists pre, (entriesFrom durationAt 0 stops).
    split; [exact Hent |]. split; [exact Hpre |].
    split; [| intros Hswap; rewrite Hswap in Ha; discriminate Ha].
    intros _. rewrite entriesFrom_length.
    unfold freshStopsOf in Hstops. apply freshStops_length in Hstops.
    unfold stopCountOf in Hstops. fold (totalMinutesOf body) in Hstops.
    pose proof (pickStopCount_cases (totalMinutesOf body)) as Hcases.
    split; [destruct Hcases as [H2 | H3]; lia |]. split.
    + intros Hle. pose proof (pickStopCount_le _ Hle) as H2.
      split; [exact H2 | lia].
    + intros Hgt. pose proof (pickStopCount_gt _ Hgt) as H3.
      split; [exact H3 | lia].
Qed.

End StopCount.

(** ** The sample fresh plan, run *)

Section SampleFresh.
Import Sample.

Lemma walkPool_same_spot (parkOnce : bool) (c : LatLng) (walkKm : R)
    (filtered : list Place) :
  (0 <= walkKm)%R ->
  Forall (fun p => location p = Some c) filtered ->
  walkPool parkOnce (Some c) walkKm filtered = filtered.
Proof.
  intros Hkm Hall. unfold walkPool. destruct parkOnce; [| reflexivity].
  induction Hall as [| p rest Hp _ IH]; simpl; [reflexivity |].
  rewrite (withinKm_center _ _ _ Hp Hkm), IH. reflexivity.
Qed.

Lemma byScoreDesc_same (riderMode : bool) (a b : Place) :
  types a = types b -> pRating a = pRating b ->
  pUserRatingCount a = pUserRatingCount b ->
  byScoreDesc riderMode a b = true.
Proof.
  intros Ht Hr Hc. unfold byScoreDesc. apply Rleb_true.
  apply scoreCandidate_le.
  - symmetry. exact Ht.
  - rewrite Hr. apply Qle_refl.
  - rewrite Hc. apply Qle_refl.
Qed.

Lemma sample_filtered :
  freshFiltered [placeB; placeC] [] None false = [placeB; placeC].
Proof.
  unfold freshFiltered.
  change (sortBy (byScoreDesc false) [placeB; placeC] = [placeB; placeC]).
  unfold sortBy. cbn [fold_right insertBy].
  rewrite byScoreDesc_same by reflexivity. reflexivity.
Qed.

Lemma sample_picked :
  pickStops [placeB; placeC] (desiredCategoriesMulti ["culture"] 2) true 2
  = [placeB; placeC].
Proof.
  unfold pickStops.
  change (find_ _ [placeB; placeC]) with (Some placeB).
  cbv zeta. cbv iota.
  change (location placeB) with (Some center).
  rewrite !walkPool_same_spot by (try lra; repeat constructor).
  vm_compute. reflexivity.
Qed.

(** The sample fresh request finds [B] and [C] open. *)
Lemma sample_fresh_stops :
  freshStopsOf freshProvider freshBody = Next freshStopsFound.
Proof.
  change (freshSelect freshProvider "Vancouver" ["culture"] true false [] 2
            [placeB; placeC] None = Next freshStopsFound).
  unfold freshSelect. cbv zeta.
  rewrite sample_filtered, sample_picked.
  change (orderStops [placeB; placeC] true false) with [placeB; placeC].
  vm_compute. reflexivity.
Qed.


Lemma stop_count_from_total_minutes_witness :
  let plan := drivePlanOf freshProvider freshBody freshStopsFound [10] in
  let t := totalMinutes plan in
  t = totalMinutesOf freshBody /\
  (120 <= t /\ t <= 420) /\
  exists pre rest,
    stopEntries (items plan) = (pre ++ rest)%list /\
    (pre = [] \/
     (Req.parkOnce freshBody = true /\ exists pid, pre = [(pid, 5)])) /\
    ((actionOf freshBody =? "swap") = false ->
     (2 <= List.length rest <= pickStopCount t)%nat /\
     (t <= 140 -> pickStopCount t = 2%nat /\ List.length rest = 2%nat) /\
     (140 < t ->
      pickStopCount t = 3%nat /\
      (List.length rest = 2%nat \/ List.length rest = 3%nat))) /\
    (actionOf freshBody = "swap" ->
     List.length rest = List.length (keptStops (Req.stops freshBody)) /\
     (2 <= List.length rest)%nat).
Proof.
  apply (stop_count_from_total_minutes freshProvider key freshBody
           (drivePlanOf freshProvider freshBody freshStopsFound [10])).
  rewrite (POST_fresh_drive freshProvider key freshBody freshStopsFound
             eq_refl eq_refl sample_fresh_stops eq_refl).
  vm_compute. reflexivity.
Defined.

Lemma sparse_picked :
  pickStops [placeB; placeC] (desiredCategoriesMulti ["culture"] 3) true 3
  = [placeB; placeC].
Proof.
  unfold pickStops.
  change (find_ _ [placeB; placeC]) with (Some placeB).
  cbv zeta. cbv iota.
  change (location placeB) with (Some center).
  rewrite !walkPool_same_spot by (try lra; repeat constructor).
  vm_compute. reflexivity.
Qed.

(** The 150-minute request wants three stops and finds [B] and [C]. *)
Lemma sparse_stops :
  freshStopsOf freshProvider Sparse.body = Next freshStopsFound.
Proof.
  change (freshSelect freshProvider "Vancouver" ["culture"] true false [] 3
            [placeB; placeC] None = Next freshStopsFound).
  unfold freshSelect. cbv zeta.
  rewrite sample_filtered, sparse_picked.
  change (orderStops [placeB; placeC] true false) with [placeB; placeC].
  vm_compute. reflexivity.
Qed.

(** C5, as stated, fails: a fresh request for 150 minutes, for which the
    stop count is 3, is answered with a plan of two stops, the two places
    the search found. *)
Lemma stop_count_counterexample :
  let plan := drivePlanOf freshProvider Sparse.body freshStopsFound [10] in
  (actionOf Sparse.body =? "swap") = false /\
  totalMinutesOf Sparse.body = 150 /\
  pickStopCount (totalMinutesOf Sparse.body) = 3%nat /\
  POST freshProvider key Sparse.body = Json plan /\
  totalMinutes plan = 150 /\
  map fst (stopEntries (items plan)) = ["B"; "C"] /\
  List.length (planStops (items plan)) = 2%nat.
Proof.
  cbv zeta. repeat split; try reflexivity.
  rewrite (POST_fresh_drive freshProvider key Sparse.body freshStopsFound
             eq_refl eq_refl sparse_stops eq_refl).
  vm_compute. reflexivity.
Qed.

Lemma orderByNearestNeighbor_no_revisit_witness :
  orderByNearestNeighbor [placeB; placeC] false = [placeB; placeC] /\
  NoDup (map id (orderByNearestNeighbor [placeAt "A"; placeB; placeC] true)).
Proof.
  split.
  - apply (proj1 (orderByNearestNeighbor_no_revisit [placeB; placeC] false)).
    simpl. lia.
  - apply (proj2 (orderByNearestNeighbor_no_revisit
                    [placeAt "A"; placeB; placeC] true)).
    + simpl. lia.
    + repeat constructor; simpl; intuition discriminate.
    + repeat constructor; discriminate.
Defined.

End SampleFresh.

(** * Further properties *)

(** ** Category classifier *)

Section Classifier.

Lemma includes_or (t : list string) (tags : list string) :
  existsb (includes t) tags = true <-> hasTagIn tags t.
Proof.
  rewrite existsb_exists. split.
  - intros [x [Hx Hinc]]. apply includes_In in Hinc. exists x. auto.
  - intros [x [Hxt Hx]]. exists x. split; [exact Hx |].
    apply includes_In. exact Hxt.
Qed.

Lemma pickCategory_unfold (t : list string) :
  pickCategory t =
  if existsb (includes t) foodTags then food
  else if existsb (includes t) parkTags then park
  else attraction.
Proof.
  unfold pickCategory, foodTags, parkTags. cbn [existsb].
  rewrite !orb_false_r, !orb_assoc. reflexivity.
Qed.

(** X1. [pickCategory] is decided by priority: food when some tag is a
    food tag, whatever the other tags; park when no tag is a food tag and
    some tag is a park tag; attraction exactly when no tag is either. *)
Theorem pickCategory_priority (t : list string) :
  (pickCategory t = food <-> hasTagIn foodTags t) /\
  (pickCategory t = park <-> ~ hasTagIn foodTags t /\ hasTagIn parkTags t) /\
  (pickCategory t = attraction <->
   ~ hasTagIn foodTags t /\ ~ hasTagIn parkTags t).
Proof.
  rewrite pickCategory_unfold.
  pose proof (includes_or t foodTags) as Hf.
  pose proof (includes_or t parkTags) as Hp.
  destruct (existsb (includes t) foodTags) eqn:Ef;
    destruct (existsb (includes t) parkTags) eqn:Ep.
  - assert (HF : hasTagIn foodTags t) by (apply Hf; reflexivity).
    repeat split; try discriminate; tauto.
  - assert (HF : hasTagIn foodTags t) by (apply Hf; reflexivity).
    repeat split; try discriminate; tauto.
  - assert (HF : ~ hasTagIn foodTags t)
      by (intros H; apply Hf in H; discriminate H).
    assert (HP : hasTagIn parkTags t) by (apply Hp; reflexivity).
    repeat split; try discriminate; tauto.
  - assert (HF : ~ hasTagIn foodTags t)
      by (intros H; apply Hf in H; discriminate H).
    assert (HP : ~ hasTagIn parkTags t)
      by (intros H; apply Hp in H; discriminate H).
    repeat split; try discriminate; tauto.
Qed.

(** X2. [isNoisyType] holds exactly of a tag list that is not empty and
    whose tags are all on the denylist; and a noisy place is classified
    as an attraction, for no denylisted tag is a food or a park tag. *)
Theorem isNoisyType_iff (t : list string) :
  (isNoisyType t = true <-> t <> [] /\ forall x, In x t -> In x bad) /\
  (isNoisyType t = true -> pickCategory t = attraction).
Proof.
  assert (Hiff : isNoisyType t = true <->
                 t <> [] /\ forall x, In x t -> In x bad).
  { unfold isNoisyType. rewrite andb_true_iff, Nat.eqb_eq, Nat.ltb_lt.
    split.
    - intros [Hnone Hlen]. split.
      + intros ->. simpl in Hlen. lia.
      + intros x Hx. apply includes_In.
        destruct (includes bad x) eqn:E; [reflexivity |].
        assert (Hin : In x (filter (fun y => negb (includes bad y)) t)).
        { apply filter_In. split; [exact Hx | rewrite E; reflexivity]. }
        apply length_zero_iff_nil in Hnone. rewrite Hnone in Hin.
        destruct Hin.
    - intros [Hne Hall]. split.
      + apply length_zero_iff_nil.
        destruct (filter (fun y => negb (includes bad y)) t) as [| y rest] eqn:E;
          [reflexivity |].
        assert (Hy : In y (filter (fun y => negb (includes bad y)) t))
          by (rewrite E; left; reflexivity).
        apply filter_In in Hy. destruct Hy as [Hy Hneg].
        apply Hall in Hy. apply includes_In in Hy. rewrite Hy in Hneg.
        discriminate Hneg.
      + destruct t; [contradiction Hne; reflexivity | simpl; lia]. }
  split; [exact Hiff |].
  intros Hnoisy. apply Hiff in Hnoisy. destruct Hnoisy as [_ Hall].
  assert (Hnone : forall tags,
            (forall x, In x tags -> includes bad x = false) ->
            existsb (includes t) tags = false).
  { intros tags Htags.
    destruct (existsb (includes t) tags) eqn:E; [| reflexivity].
    apply includes_or in E. destruct E as [x [Hxt Hx]].
    apply Hall in Hxt. apply includes_In in Hxt.
    rewrite (Htags x Hx) in Hxt. discriminate Hxt. }
  rewrite pickCategory_unfold.
  rewrite (Hnone foodTags), (Hnone parkTags); [reflexivity | |];
    intros x Hx;
    repeat (destruct Hx as [<- | Hx]; [vm_compute; reflexivity |]);
    destruct Hx.
Qed.

End Classifier.

Lemma pickCategory_priority_witness :
  pickCategory ["park"; "cafe"] = food /\
  pickCategory ["park"; "museum"] = park.
Proof.
  split.
  - apply (proj1 (pickCategory_priority ["park"; "cafe"])).
    exists "cafe". split; [right; left; reflexivity | vm_compute; tauto].
  - apply (proj1 (proj2 (pickCategory_priority ["park"; "museum"]))). split.
    + intros [x [Hx Hfood]]. vm_compute in Hx, Hfood.
      destruct Hx as [<- | [<- | []]];
        repeat (destruct Hfood as [Hfood | Hfood]; [discriminate Hfood |]);
        destruct Hfood.
    + exists "park". split; [left; reflexivity | vm_compute; tauto].
Defined.

Lemma isNoisyType_iff_witness :
  pickCategory ["bank"; "atm"] = attraction.
Proof.
  apply (proj2 (isNoisyType_iff ["bank"; "atm"])). reflexivity.
Defined.

(** ** Great-circle distance *)

Section Haversine.
Local Open Scope R_scope.

Lemma asin_nonneg (x : R) : 0 <= x <= 1 -> 0 <= asin x.
Proof.
  intros [H0 H1]. rewrite <- asin_0.
  pose proof (asin_bound 0) as [Ha Hb].
  pose proof (asin_bound x) as [Hc Hd].
  apply sin_incr_0; try assumption.
  rewrite !sin_asin by lra. exact H0.
Qed.

(** X3. [haversineKm] is symmetric and is 0 from a point to itself; and
    it lies between 0 and half the circumference of the sphere of radius
    6371 km. *)
Theorem haversineKm_metric (a b : LatLng) :
  haversineKm a b = haversineKm b a /\
  haversineKm a a = 0 /\
  0 <= haversineKm a b <= 6371 * PI.
Proof.
  split; [| split].
  - unfold haversineKm.
    replace ((Q2R (latitude a) - Q2R (latitude b)) * PI / 180 / 2)
      with (- ((Q2R (latitude b) - Q2R (latitude a)) * PI / 180 / 2))
      by field.
    replace ((Q2R (longitude a) - Q2R (longitude b)) * PI / 180 / 2)
      with (- ((Q2R (longitude b) - Q2R (longitude a)) * PI / 180 / 2))
      by field.
    rewrite !sin_neg. do 4 f_equal. ring.
  - apply haversineKm_same.
  - unfold haversineKm.
    set (h := (sin _ * sin _ + _ * _ * _ * _)).
    assert (Hm : 0 <= Rmin 1 (sqrt h) <= 1).
    { split; [| apply Rmin_l].
      apply Rmin_glb; [lra | apply sqrt_pos]. }
    pose proof (asin_nonneg _ Hm) as Hlow.
    pose proof (asin_bound (Rmin 1 (sqrt h))) as [_ Hup].
    pose proof PI_RGT_0. split; nra.
Qed.

End Haversine.

(** ** Travel minutes *)

Section TravelMinutes.

Lemma Qfloor_bounds (x : Q) :
  inject_Z (Qfloor x) <= x /\ x < inject_Z (Qfloor x) + 1.
Proof.
  split; [apply Qfloor_le |].
  pose proof (Qlt_floor x) as H. rewrite inject_Z_plus in H. exact H.
Qed.

(** X4. [toMinsFromDuration] answers a whole number of minutes, never
    fewer than 5; a missing, unreadable or zero duration counts as 900
    seconds, that is 15 minutes; and from 270 seconds on the answer is
    the number of seconds over 60, rounded to the nearest minute. *)
Theorem toMinsFromDuration_rounds (secs : option Q) :
  5 <= toMinsFromDuration secs /\
  (exists n : Z, toMinsFromDuration secs == inject_Z n) /\
  ((secs = None \/ exists q, secs = Some q /\ q == 0) ->
   toMinsFromDuration secs == 15) /\
  (forall q, secs = Some q -> 270 <= q ->
     toMinsFromDuration secs - (1 # 2) <= q / 60 /\
     q / 60 < toMinsFromDuration secs + (1 # 2)).
Proof.
  split; [apply Q.le_max_l |].
  split.
  { unfold toMinsFromDuration.
    match goal with
    | |- exists n, Qmax 5 (inject_Z ?m) == _ =>
        destruct (Q.max_spec 5 (inject_Z m)) as [[_ He] | [_ He]]
    end.
    - eexists. exact He.
    - exists 5%Z. exact He. }
  split.
  - intros [-> | [q [-> Hq]]].
    + reflexivity.
    + unfold toMinsFromDuration. apply Qeq_bool_iff in Hq. rewrite Hq.
      reflexivity.
  - intros q -> Hq. unfold toMinsFromDuration.
    destruct (Qeq_bool q 0) eqn:E.
    { apply Qeq_bool_iff in E. rewrite E in Hq. lra. }
    unfold round.
    destruct (Qfloor_bounds (q / 60 + (1 # 2))) as [Hlo Hhi].
    assert (Hdiv : 270 / 60 <= q / 60).
    { apply Qmult_le_compat_r; [exact Hq | discriminate]. }
    assert (H45 : 270 / 60 == 9 # 2) by reflexivity.
    rewrite H45 in Hdiv.
    assert (H5 : 5 <= inject_Z (Qfloor (q / 60 + (1 # 2)))).
    { assert (Hz : (5 <= Qfloor (q / 60 + (1 # 2)))%Z).
      { change 5%Z with (Qfloor (inject_Z 5)).
        apply Qfloor_resp_le. change (inject_Z 5) with 5. lra. }
      rewrite Zle_Qle in Hz. exact Hz. }
    rewrite (Q.max_r _ _ H5). split; lra.
Qed.

Lemma toMinsFromDuration_rounds_witness :
  toMinsFromDuration None == 15 /\
  (toMinsFromDuration (Some 600) - (1 # 2) <= 600 / 60 /\
   600 / 60 < toMinsFromDuration (Some 600) + (1 # 2)).
Proof.
  split.
  - apply (proj1 (proj2 (proj2 (toMinsFromDuration_rounds None)))).
    left. reflexivity.
  - apply (proj2 (proj2 (proj2 (toMinsFromDuration_rounds (Some 600)))) 600).
    + reflexivity.
    + discriminate.
Defined.

End TravelMinutes.

(** ** Timing allocator: the shares *)

Section Shares.

Lemma exact_floor_near : nearFloor (fun x c => Qfloor (x * c)).
Proof.
  intros x c. destruct (Qfloor_bounds (x * c)) as [Hlo Hhi]. split; lra.
Qed.

(** X5. Whatever [Math.floor] makes of the products (the exact floor or
    one off), the shares of the stop time go down along the route and
    are positive: for two stops the first is longer than the second,
    which is at least 25 minutes (so the 25-minute floor of the assembly
    leaves both alone); for three stops the first is longer than the
    second and the second longer than the third. *)
Theorem split_shares_descend (floorMul : Q -> Q -> Z)
    (totalMinutes travelTotal : Q) :
  nearFloor floorMul ->
  (exists a b,
     splitStopDurationsWith floorMul totalMinutes travelTotal 2 = [a; b] /\
     b < a /\ 25 <= b) /\
  (exists a b c,
     splitStopDurationsWith floorMul totalMinutes travelTotal 3 = [a; b; c] /\
     b < a /\ c < b /\ 0 < c).
Proof.
  intros Hfloor. unfold splitStopDurationsWith. cbn [Nat.eqb].
  pose proof (Q.le_max_l 60 (totalMinutes - travelTotal)) as Hr.
  set (r := Qmax 60 (totalMinutes - travelTotal)) in *.
  split.
  - destruct (Hfloor r 0.55) as [Hlo Hhi].
    eexists. eexists. split; [reflexivity |]. split; lra.
  - destruct (Hfloor r 0.42) as [Hlo1 Hhi1].
    destruct (Hfloor r 0.35) as [Hlo2 Hhi2].
    eexists. eexists. eexists. split; [reflexivity |].
    repeat split; lra.
Qed.

Lemma split_shares_descend_witness :
  (exists a b,
     splitStopDurations 120 10 2 = [a; b] /\ b < a /\ 25 <= b) /\
  (exists a b c,
     splitStopDurations 150 24 3 = [a; b; c] /\ b < a /\ c < b /\ 0 < c).
Proof.
  split.
  - apply (proj1 (split_shares_descend (fun x c => Qfloor (x * c)) 120 10
                    exact_floor_near)).
  - apply (proj2 (split_shares_descend (fun x c => Qfloor (x * c)) 150 24
                    exact_floor_near)).
Defined.

End Shares.

(** ** Category wishes *)

Section Wishes.

(** X6. [desiredCategoriesMulti] gives as many wishes as stops (up to
    three), the first always an attraction; with the foodie vibe the
    second is food, and without it but with the adventure or the relaxed
    vibe the second is a park. *)
Theorem desiredCategoriesMulti_wishes (vibes : list string) (stopCount : nat) :
  ((stopCount <= 3)%nat ->
   List.length (desiredCategoriesMulti vibes stopCount) = stopCount) /\
  ((1 <= stopCount)%nat ->
   nth_error (desiredCategoriesMulti vibes stopCount) 0 = Some attraction) /\
  ((2 <= stopCount)%nat -> In "foodie" vibes ->
   nth_error (desiredCategoriesMulti vibes stopCount) 1 = Some food) /\
  ((2 <= stopCount)%nat -> ~ In "foodie" vibes ->
   In "adventure" vibes \/ In "relaxed" vibes ->
   nth_error (desiredCategoriesMulti vibes stopCount) 1 = Some park).
Proof.
  unfold desiredCategoriesMulti.
  pose proof (includes_In vibes "foodie") as Hf.
  pose proof (includes_In vibes "adventure") as Ha.
  pose proof (includes_In vibes "relaxed") as Hr.
  destruct (includes vibes "foodie") eqn:Ef;
    destruct (includes vibes "adventure") eqn:Ea;
    destruct (includes vibes "relaxed") eqn:Er;
    destruct (includes vibes "culture") eqn:Ec;
    cbn [orb fold_left wantsIncludes existsb Category_eqb negb app];
    (split; [| split; [| split]]);
    try (intros Hn; destruct stopCount as [| [| [| [| n]]]];
         solve [reflexivity | lia]);
    try (intros Hn Hx; destruct stopCount as [| [| n]];
         solve [reflexivity | lia
               | exfalso; apply Hf in Hx; discriminate Hx]);
    try (intros Hn Hnf Hx; destruct stopCount as [| [| n]];
         solve [reflexivity | lia
               | exfalso; apply Hnf; apply Hf; reflexivity
               | exfalso; destruct Hx as [Hx | Hx];
                 [apply Ha in Hx | apply Hr in Hx]; discriminate Hx]).
Qed.

Lemma desiredCategoriesMulti_wishes_witness :
  List.length (desiredCategoriesMulti ["foodie"; "relaxed"] 3) = 3%nat /\
  nth_error (desiredCategoriesMulti ["foodie"; "relaxed"] 3) 0 = Some attraction /\
  nth_error (desiredCategoriesMulti ["foodie"; "relaxed"] 3) 1 = Some food /\
  nth_error (desiredCategoriesMulti ["adventure"] 2) 1 = Some park.
Proof.
  pose proof (desiredCategoriesMulti_wishes ["foodie"; "relaxed"] 3)
    as (Hlen & Hfirst & Hfood & _).
  pose proof (desiredCategoriesMulti_wishes ["adventure"] 2)
    as (_ & _ & _ & Hpark).
  split; [apply Hlen; lia |].
  split; [apply Hfirst; lia |].
  split; [apply Hfood; [lia | left; reflexivity] |].
  apply Hpark; [lia | simpl; intuition discriminate | left; left; reflexivity].
Defined.

End Wishes.

(** ** The merged pool *)

Section Merge.

Lemma truthy_Some (o : option string) :
  truthy o = true -> o = Some (nullish o "") /\ nullish o "" <> "".
Proof.
  destruct o as [s |]; simpl; [| discriminate].
  intros H. apply negb_true_iff in H. apply String.eqb_neq in H. auto.
Qed.

Lemma mergeById_In (places : list Place) :
  forall seen p,
    In p (mergeById seen places) ->
    In p places /\ truthy (id p) = true /\ ~ In (nullish (id p) "") seen.
Proof.
  induction places as [| q rest IH]; intros seen p Hin; simpl in Hin.
  - destruct Hin.
  - destruct (truthy (id q)) eqn:Et;
      [destruct (includes seen (nullish (id q) "")) eqn:Es |];
      cbn [andb negb] in Hin.
    + apply IH in Hin. destruct Hin as (H1 & H2 & H3).
      split; [right; exact H1 | auto].
    + destruct Hin as [<- | Hin].
      * split; [left; reflexivity |]. split; [exact Et |].
        intros Hseen. apply includes_In in Hseen. rewrite Hseen in Es.
        discriminate Es.
      * apply IH in Hin. destruct Hin as (H1 & H2 & H3).
        split; [right; exact H1 |]. split; [exact H2 |].
        intros Hseen. apply H3. right. exact Hseen.
    + apply IH in Hin. destruct Hin as (H1 & H2 & H3).
      split; [right; exact H1 | auto].
Qed.

Lemma mergeById_NoDup (places : list Place) :
  forall seen, NoDup (map id (mergeById seen places)).
Proof.
  induction places as [| q rest IH]; intros seen; simpl.
  - constructor.
  - destruct (truthy (id q) && negb (includes seen (nullish (id q) "")))%bool
      eqn:E; [| apply IH].
    simpl. constructor; [| apply IH].
    intros Hin. apply in_map_iff in Hin. destruct Hin as [p [Hid Hp]].
    apply mergeById_In in Hp. destruct Hp as (_ & _ & Hseen).
    apply Hseen. left. rewrite Hid. reflexivity.
Qed.

Lemma mergeById_first (l1 : list Place) :
  forall seen p l2,
    truthy (id p) = true ->
    ~ In (nullish (id p) "") seen ->
    (forall q, In q l1 -> id q <> id p) ->
    In p (mergeById seen (l1 ++ p :: l2)).
Proof.
  induction l1 as [| q rest IH]; intros seen p l2 Ht Hseen Hfirst; simpl.
  - rewrite Ht. cbn [andb].
    destruct (includes seen (nullish (id p) "")) eqn:Es.
    + apply includes_In in Es. contradiction.
    + left. reflexivity.
  - assert (Hrest : forall x, In x rest -> id x <> id p)
      by (intros x Hx; apply Hfirst; right; exact Hx).
    destruct (truthy (id q) && negb (includes seen (nullish (id q) "")))%bool
      eqn:E.
    + right. apply IH; try assumption.
      intros [Heq | Hin]; [| contradiction].
      apply andb_true_iff in E. destruct E as [Eq _].
      apply truthy_Some in Eq. destruct Eq as [Eq _].
      apply truthy_Some in Ht. destruct Ht as [Ht _].
      apply (Hfirst q (or_introl eq_refl)). rewrite Eq, Ht, Heq. reflexivity.
    + apply IH; assumption.
Qed.

(** X7. The merged pool holds places of the search results only, each
    with a place id, no id twice; and of the results with one id the
    first is the one kept. *)
Theorem mergeById_first_wins (places : list Place) :
  NoDup (map id (mergeById [] places)) /\
  (forall p, In p (mergeById [] places) ->
             In p places /\ truthy (id p) = true) /\
  (forall l1 p l2,
     places = (l1 ++ p :: l2)%list ->
     truthy (id p) = true ->
     (forall q, In q l1 -> id q <> id p) ->
     In p (mergeById [] places)).
Proof.
  split; [apply mergeById_NoDup |]. split.
  - intros p Hp. apply mergeById_In in Hp. tauto.
  - intros l1 p l2 -> Ht Hfirst.
    apply mergeById_first; [exact Ht | intros [] | exact Hfirst].
Qed.

Lemma mergeById_first_wins_witness :
  In Sample.placeB
    (mergeById [] [Sample.parkingLot; Sample.placeB; Sample.placeC;
                   Sample.placeB]).
Proof.
  apply (proj2 (proj2 (mergeById_first_wins
                         [Sample.parkingLot; Sample.placeB; Sample.placeC;
                          Sample.placeB]))
           [Sample.parkingLot] Sample.placeB [Sample.placeC; Sample.placeB]).
  - reflexivity.
  - reflexivity.
  - intros q [<- | []]. discriminate.
Defined.

End Merge.

(** ** The shape of the assembled items *)

Section Weave.

Lemma nth_error_next {A : Type} (pre : list A) (x y : A) (rest : list A) :
  nth_error (pre ++ x :: y :: rest) (List.length pre + 1) = Some y.
Proof.
  replace (pre ++ x :: y :: rest)%list with ((pre ++ [x]) ++ y :: rest)%list
    by (rewrite <- app_assoc; reflexivity).
  replace (List.length pre + 1)%nat with (List.length (pre ++ [x])%list)
    by (rewrite length_app; reflexivity).
  apply nth_error_middle.
Qed.

Lemma nth_error_end {A : Type} (l : list A) :
  nth_error l (List.length l) = None.
Proof. apply nth_error_None. apply Nat.le_refl. Qed.

Lemma length_snoc {A : Type} (pre : list A) (x : A) :
  List.length (pre ++ [x])%list = S (List.length pre).
Proof. rewrite length_app. simpl. lia. Qed.

(** The driving loop over the indices is the weaving of stops and legs. *)
Lemma drive_loop_weave (durationAt : nat -> Q) (all : list StopDetails)
    (allLegs : list Q) :
  forall (l pre : list StopDetails) (legs preLegs : list Q),
    all = (pre ++ l)%list ->
    allLegs = (preLegs ++ legs)%list ->
    List.length preLegs = List.length pre ->
    List.length legs = pred (List.length l) ->
    flat_map
      (fun i =>
         match nth_error all i with
         | None => []
         | Some s =>
             StopItem (durationAt i) s ::
             match nth_error allLegs i with
             | Some leg =>
                 [TravelItem ("Drive to " ++ titleAt all (i + 1) "next stop")
                    leg DRIVE]
             | None => []
             end
         end)
      (seq (List.length pre) (List.length l))
    = weave DRIVE "Drive to " durationAt (List.length pre) l legs.
Proof.
  induction l as [| x rest IH]; intros pre legs preLegs Hall Hlegs Hpre Hlen.
  - reflexivity.
  - cbn [List.length seq flat_map weave].
    rewrite Hall at 1. rewrite nth_error_middle.
    destruct rest as [| y rest'].
    + destruct legs; [| discriminate Hlen].
      rewrite Hlegs, !app_nil_r, <- Hpre, nth_error_end. reflexivity.
    + destruct legs as [| leg legs']; [discriminate Hlen |].
      rewrite Hlegs at 1. rewrite <- Hpre, nth_error_middle, Hpre.
      unfold titleAt at 1. rewrite Hall at 1. rewrite nth_error_next.
      cbn [app]. f_equal. f_equal.
      specialize (IH (pre ++ [x])%list legs' (preLegs ++ [leg])%list).
      rewrite !length_snoc in IH. apply IH.
      * rewrite <- app_assoc. exact Hall.
      * rewrite <- app_assoc. exact Hlegs.
      * rewrite Hpre. reflexivity.
      * simpl in Hlen. injection Hlen as Hlen. exact Hlen.
Qed.

(** The walking loop reads its legs one place further. *)
Lemma walk_loop_weave (durationAt : nat -> Q) (all : list StopDetails)
    (first : Q) (allLegs : list Q) :
  forall (l pre : list StopDetails) (legs preLegs : list Q),
    all = (pre ++ l)%list ->
    allLegs = (preLegs ++ legs)%list ->
    List.length preLegs = List.length pre ->
    List.length legs = pred (List.length l) ->
    flat_map
      (fun i =>
         match nth_error all i with
         | None => []
         | Some s =>
             StopItem (durationAt i) s ::
             (if (i <? List.length all - 1)%nat
              then [TravelItem ("Walk to " ++ titleAt all (i + 1) "next stop")
                      (nullish (nth_error (first :: allLegs) (i + 1)) 10) WALK]
              else [])
         end)
      (seq (List.length pre) (List.length l))
    = weave WALK "Walk to " durationAt (List.length pre) l legs.
Proof.
  induction l as [| x rest IH]; intros pre legs preLegs Hall Hlegs Hpre Hlen.
  - reflexivity.
  - cbn [List.length seq flat_map weave].
    rewrite Hall at 1. rewrite nth_error_middle.
    assert (Hsize : List.length all = (List.length pre + S (List.length rest))%nat)
      by (rewrite Hall, length_app; reflexivity).
    destruct rest as [| y rest'].
    + destruct legs; [| discriminate Hlen].
      replace (List.length pre <? List.length all - 1)%nat with false
        by (symmetry; apply Nat.ltb_ge; simpl in Hsize; lia).
      reflexivity.
    + destruct legs as [| leg legs']; [discriminate Hlen |].
      replace (List.length pre <? List.length all - 1)%nat with true
        by (symmetry; apply Nat.ltb_lt; simpl in Hsize; lia).
      replace (List.length pre + 1)%nat with (S (List.length pre)) at 2 by lia.
      cbn [nth_error].
      rewrite Hlegs at 1. rewrite <- Hpre, nth_error_middle, Hpre.
      unfold titleAt at 1. rewrite Hall at 1. rewrite nth_error_next.
      cbn [app nullish]. f_equal. f_equal.
      specialize (IH (pre ++ [x])%list legs' (preLegs ++ [leg])%list).
      rewrite !length_snoc in IH. apply IH.
      * rewrite <- app_assoc. exact Hall.
      * rewrite <- app_assoc. exact Hlegs.
      * rewrite Hpre. reflexivity.
      * simpl in Hlen. injection Hlen as Hlen. exact Hlen.
Qed.

Lemma driveItems_weave (durationAt : nat -> Q) (stops : list StopDetails)
    (legs : list Q) :
  List.length legs = pred (List.length stops) ->
  driveItems durationAt stops legs = weave DRIVE "Drive to " durationAt 0 stops legs.
Proof.
  intros Hlen. unfold driveItems.
  apply (drive_loop_weave durationAt stops legs stops [] legs []);
    solve [reflexivity | exact Hlen].
Qed.

Lemma walkItems_weave (durationAt : nat -> Q) (stops : list StopDetails)
    (first : Q) (legs : list Q) :
  List.length legs = pred (List.length stops) ->
  walkItems durationAt stops (first :: legs)
  = weave WALK "Walk to " durationAt 0 stops legs.
Proof.
  intros Hlen. unfold walkItems.
  apply (walk_loop_weave durationAt stops first legs stops [] legs []);
    solve [reflexivity | exact Hlen].
Qed.

End Weave.

(** ** What every plan is made of *)

Section PlanParts.

Variable P : Provider.

Lemma computeRouteMinutes_min (origin destination : JsNum * JsNum)
    (travelMode : TravelMode) (mins : Q) :
  computeRouteMinutes P origin destination travelMode = Ok mins -> 5 <= mins.
Proof.
  unfold computeRouteMinutes.
  destruct (routesCompute P origin destination travelMode) as [dur | msg];
    intros H; [| discriminate H].
  injection H as <-. unfold toMinsFromDuration. apply Q.le_max_l.
Qed.

Lemma await_Next {A : Type} (c : result A) (a : A) :
  await c = Next a -> c = Ok a.
Proof. destruct c; simpl; intros H; [injection H as -> | discriminate H]; reflexivity. Qed.

Lemma legsBetween_shape (travelMode : TravelMode) (bufferMinutes : Q)
    (stops : list StopDetails) :
  forall legs,
    legsBetween P travelMode bufferMinutes stops = Next legs ->
    List.length legs = pred (List.length stops) /\
    Forall (fun m => 5 + bufferMinutes <= m) legs.
Proof.
  induction stops as [| a rest IH]; intros legs H.
  - injection H as <-. split; [reflexivity | constructor].
  - destruct rest as [| b rest'].
    + injection H as <-. split; [reflexivity | constructor].
    + cbn [legsBetween] in H.
      apply bind_Next in H. destruct H as [mins [Hmins H]].
      apply bind_Next in H. destruct H as [more [Hmore H]].
      injection H as <-. apply await_Next in Hmins.
      apply computeRouteMinutes_min in Hmins.
      destruct (IH _ Hmore) as [Hlen Hall]. split.
      * simpl in *. rewrite Hlen. reflexivity.
      * constructor; [lra | exact Hall].
Qed.

(** The legs that [computeTravelMins] answers: one per pair of
    consecutive stops, after the walk from the parking place when one is
    shown; each lasts at least 5 minutes plus the buffer. *)
Lemma computeTravelMins_shape (parkOnce : bool)
    (parkOnceLocation : option ParkingOption) (bufferMinutes : Q)
    (stops : list StopDetails) (travelMins : list Q) :
  stops <> [] ->
  computeTravelMins P parkOnce parkOnceLocation bufferMinutes stops
  = Next travelMins ->
  exists legs,
    List.length legs = pred (List.length stops) /\
    Forall (fun m => 5 + bufferMinutes <= m) legs /\
    match parkingShown parkOnce parkOnceLocation with
    | None => travelMins = legs
    | Some _ =>
        exists first, 5 + bufferMinutes <= first /\ travelMins = first :: legs
    end.
Proof.
  intros Hne. unfold computeTravelMins.
  destruct (parkingShown parkOnce parkOnceLocation) as [[[pk pLat] pLng] |].
  - destruct stops as [| firstStop rest]; [contradiction Hne; reflexivity |].
    intros H. apply bind_Next in H. destruct H as [first [Hfirst H]].
    apply bind_Next in H. destruct H as [legs [Hlegs H]].
    injection H as <-. apply await_Next in Hfirst.
    apply computeRouteMinutes_min in Hfirst.
    destruct (legsBetween_shape _ _ _ _ Hlegs) as [Hlen Hall].
    exists legs. split; [exact Hlen |]. split; [exact Hall |].
    eexists. split; [| reflexivity]. lra.
  - intros H. destruct (legsBetween_shape _ _ _ _ H) as [Hlen Hall].
    exists travelMins. auto.
Qed.

(** The items of a plan, from its stops and legs. *)
Lemma assembleItems_form (durationAt : nat -> Q) (parkOnce : bool)
    (parkOnceLocation : option ParkingOption) (bufferMinutes : Q)
    (stops : list StopDetails) (travelMins : list Q) :
  stops <> [] ->
  computeTravelMins P parkOnce parkOnceLocation bufferMinutes stops
  = Next travelMins ->
  exists legs,
    List.length legs = pred (List.length stops) /\
    Forall (fun m => 5 + bufferMinutes <= m) legs /\
    (assembleItems durationAt parkOnce parkOnceLocation stops travelMins
     = weave DRIVE "Drive to " durationAt 0 stops legs
     \/
     (parkOnce = true /\
      exists pk pLat pLng first,
        5 + bufferMinutes <= first /\
        assembleItems durationAt parkOnce parkOnceLocation stops travelMins
        = parkOnceItem pk pLat pLng
          :: TravelItem ("Walk to " ++ titleAt stops 0 "first stop") first WALK
          :: weave WALK "Walk to " durationAt 0 stops legs)).
Proof.
  intros Hne Hmins.
  destruct (computeTravelMins_shape _ _ _ _ _ Hne Hmins)
    as (legs & Hlen & Hall & Hform).
  exists legs. split; [exact Hlen |]. split; [exact Hall |].
  unfold assembleItems.
  destruct (parkingShown parkOnce parkOnceLocation)
    as [[[pk pLat] pLng] |] eqn:Hshown.
  - destruct Hform as (first & Hfirst & ->). right. split.
    + unfold parkingShown in Hshown.
      destruct parkOnce; [reflexivity | discriminate Hshown].
    + exists pk, pLat, pLng, first. split; [exact Hfirst |].
      cbn [app]. rewrite (walkItems_weave _ _ _ _ Hlen). reflexivity.
  - subst travelMins. left. apply driveItems_weave. exact Hlen.
Qed.

Lemma enrichStop_openNow (destination pid : string)
    (fallbackTitle : option string) (details : Details) (stop : StopDetails) :
  enrichStop P destination pid fallbackTitle details = Next stop ->
  openNow stop = dOpenNow details.
Proof.
  unfold enrichStop. intros H.
  apply bind_Next in H. destruct H as [photo [_ H]].
  injection H as <-. reflexivity.
Qed.

Lemma enrichAll_open (destination : string) (nextStops : list StopInput) :
  forall stops,
    enrichAll P destination nextStops = Next stops ->
    Forall notClosed stops.
Proof.
  induction nextStops as [| s rest IH]; simpl; intros stops H.
  - injection H as <-. constructor.
  - apply bind_Next in H. destruct H as [details [_ H]].
    apply bind_Next in H. destruct H as [u [Hopen H]].
    apply bind_Next in H. destruct H as [stop [Hstop H]].
    apply bind_Next in H. destruct H as [more [Hmore H]].
    injection H as <-. constructor; [| apply IH; exact Hmore].
    unfold notClosed. rewrite (enrichStop_openNow _ _ _ _ _ Hstop).
    apply returnIf_Next in Hopen.
    destruct (dOpenNow details) as [[|] |]; discriminate.
Qed.

Lemma enrichOpen_open (destination : string) (stopCount maxAttempts : nat)
    (candidatesOrdered : list Place) :
  forall stops usedIds attempts result,
    Forall notClosed stops ->
    enrichOpen P destination stopCount maxAttempts candidatesOrdered stops
      usedIds attempts = Next result ->
    Forall notClosed result.
Proof.
  induction candidatesOrdered as [| p rest IH];
    intros stops usedIds attempts result Hinv; simpl.
  - intros H. injection H as <-. exact Hinv.
  - destruct (stopCount <=? List.length stops)%nat.
    { intros H. injection H as <-. exact Hinv. }
    destruct (maxAttempts <=? attempts)%nat.
    { intros H. injection H as <-. exact Hinv. }
    destruct (nullish (id p) "" =? ""); [apply IH; exact Hinv |].
    destruct (includes usedIds (nullish (id p) "")); [apply IH; exact Hinv |].
    intros H. apply bind_Next in H. destruct H as [details [_ H]].
    assert (Hpush : forall stop,
              enrichStop P destination (nullish (id p) "") None details
              = Next stop ->
              dOpenNow details <> Some false ->
              Forall notClosed (stops ++ [stop])).
    { intros stop Hstop Hopen. apply Forall_app. split; [exact Hinv |].
      constructor; [| constructor]. unfold notClosed.
      rewrite (enrichStop_openNow _ _ _ _ _ Hstop). exact Hopen. }
    destruct (dOpenNow details) as [[|] |] eqn:Eo.
    + apply bind_Next in H. destruct H as [stop [Hstop H]].
      apply (IH _ _ _ _ (Hpush stop Hstop ltac:(discriminate)) H).
    + apply (IH _ _ _ _ Hinv H).
    + apply bind_Next in H. destruct H as [stop [Hstop H]].
      apply (IH _ _ _ _ (Hpush stop Hstop ltac:(discriminate)) H).
Qed.

End PlanParts.

(** ** Properties of the woven items *)

Section WeaveFacts.

Lemma weave_alternates (travelMode : TravelMode) (verb : string)
    (durationAt : nat -> Q) (stops : list StopDetails) :
  forall k legs,
    stops <> [] ->
    List.length legs = pred (List.length stops) ->
    alternates (weave travelMode verb durationAt k stops legs) = true.
Proof.
  induction stops as [| s rest IH]; intros k legs Hne Hlen.
  - contradiction Hne. reflexivity.
  - destruct rest as [| next rest'].
    + destruct legs; reflexivity.
    + destruct legs as [| leg legs']; [discriminate Hlen |].
      cbn [weave alternates]. apply (IH (S k) legs'); [discriminate |].
      simpl in Hlen. injection Hlen as Hlen. exact Hlen.
Qed.

Lemma weave_travelModes (travelMode : TravelMode) (verb : string)
    (durationAt : nat -> Q) (stops : list StopDetails) :
  forall k legs,
    Forall (eq travelMode)
      (travelModes (weave travelMode verb durationAt k stops legs)).
Proof.
  induction stops as [| s rest IH]; intros k legs; [constructor |].
  cbn [weave]. destruct rest as [| next rest'].
  - destruct legs; constructor.
  - destruct legs as [| leg legs'].
    + apply (IH (S k) []).
    + change (Forall (eq travelMode)
                (travelMode
                 :: travelModes
                      (weave travelMode verb durationAt (S k) (next :: rest')
                         legs'))).
      constructor; [reflexivity | apply IH].
Qed.

Lemma weave_travelMinutes (travelMode : TravelMode) (verb : string)
    (durationAt : nat -> Q) (stops : list StopDetails) :
  forall k legs,
    List.length legs = pred (List.length stops) ->
    travelMinutes (weave travelMode verb durationAt k stops legs) = legs.
Proof.
  induction stops as [| s rest IH]; intros k legs Hlen.
  - destruct legs; [reflexivity | discriminate Hlen].
  - destruct rest as [| next rest'].
    + destruct legs; [reflexivity | discriminate Hlen].
    + destruct legs as [| leg legs']; [discriminate Hlen |].
      change (leg :: travelMinutes
                       (weave travelMode verb durationAt (S k) (next :: rest')
                          legs') = leg :: legs').
      f_equal. apply IH. simpl in Hlen. injection Hlen as Hlen. exact Hlen.
Qed.

Lemma weave_planStops (travelMode : TravelMode) (verb : string)
    (durationAt : nat -> Q) (stops : list StopDetails) :
  forall k legs,
    planStops (weave travelMode verb durationAt k stops legs) = stops.
Proof.
  induction stops as [| s rest IH]; intros k legs; [reflexivity |].
  cbn [weave]. destruct rest as [| next rest'].
  - destruct legs; reflexivity.
  - destruct legs as [| leg legs'].
    + change (s :: planStops
                     (weave travelMode verb durationAt (S k) (next :: rest') [])
              = s :: next :: rest').
      f_equal. apply IH.
    + change (s :: planStops
                     (weave travelMode verb durationAt (S k) (next :: rest')
                        legs')
              = s :: next :: rest').
      f_equal. apply IH.
Qed.

Lemma alternates_counts (items : list PlanItem) :
  alternates items = true ->
  List.length (planStops items) = S (List.length (travelMinutes items)).
Proof.
  assert (Hgen : forall n items,
            (List.length items <= n)%nat ->
            alternates items = true ->
            List.length (planStops items)
            = S (List.length (travelMinutes items))).
  { induction n as [| n IH]; intros l Hn Halt.
    - destruct l; [discriminate Halt | simpl in Hn; lia].
    - destruct l as [| [d s | t d m] rest]; try discriminate Halt.
      destruct rest as [| [d' s' | t d' m] rest']; try discriminate Halt.
      + reflexivity.
      + cbn [alternates] in Halt.
        change (S (List.length (planStops rest'))
                = S (S (List.length (travelMinutes rest')))).
        f_equal. apply IH; [simpl in Hn; lia | exact Halt]. }
  apply (Hgen (List.length items)). apply Nat.le_refl.
Qed.

End WeaveFacts.

(** ** Fresh plan: the legs of a park-once plan without a parking place *)

Section ParkOnceLegs.

Variable P : Provider.

(** Each leg that [legsBetween] answers is the route the provider
    computes from a stop to the next one in the given mode, in minutes,
    plus the buffer. *)
Lemma legsBetween_asked (travelMode : TravelMode) (bufferMinutes : Q)
    (stops : list StopDetails) :
  forall legs i a b,
    legsBetween P travelMode bufferMinutes stops = Next legs ->
    nth_error stops i = Some a ->
    nth_error stops (S i) = Some b ->
    exists dur,
      routesCompute P (lat a, lng a) (lat b, lng b) travelMode = Ok dur /\
      nth_error legs i = Some (toMinsFromDuration dur + bufferMinutes).
Proof.
  induction stops as [| a0 rest IH]; intros legs i a b H Ha Hb.
  - destruct i; discriminate Ha.
  - destruct rest as [| b0 rest'].
    + destruct i as [| [| i']]; discriminate Hb.
    + cbn [legsBetween] in H.
      apply bind_Next in H. destruct H as [mins [Hmins H]].
      apply bind_Next in H. destruct H as [more [Hmore H]].
      injection H as <-. apply await_Next in Hmins.
      destruct i as [| i'].
      * simpl in Ha, Hb. injection Ha as <-. injection Hb as <-.
        unfold computeRouteMinutes in Hmins.
        destruct (routesCompute P (lat a0, lng a0) (lat b0, lng b0) travelMode)
          as [dur | msg]; [| discriminate Hmins].
        injection Hmins as <-. exists dur. split; reflexivity.
      * apply (IH more i' a b Hmore); assumption.
Qed.

(** When the provider computes every route between consecutive stops in a
    mode, [legsBetween] answers the legs of that mode. *)
Lemma legsBetween_answers (travelMode : TravelMode) (bufferMinutes : Q)
    (stops : list StopDetails) :
  (forall i a b,
     nth_error stops i = Some a ->
     nth_error stops (S i) = Some b ->
     exists dur,
       routesCompute P (lat a, lng a) (lat b, lng b) travelMode = Ok dur) ->
  exists legs, legsBetween P travelMode bufferMinutes stops = Next legs.
Proof.
  induction stops as [| a0 rest IH]; intros Hall.
  - exists []. reflexivity.
  - destruct rest as [| b0 rest'].
    + exists []. reflexivity.
    + destruct (Hall 0%nat a0 b0 eq_refl eq_refl) as [dur Hdur].
      destruct IH as [more Hmore].
      { intros i a b Ha Hb. apply (Hall (S i) a b); assumption. }
      exists (toMinsFromDuration dur + bufferMinutes :: more).
      change (legsBetween P travelMode bufferMinutes (a0 :: b0 :: rest'))
        with (mins <- await (computeRouteMinutes P (lat a0, lng a0)
                               (lat b0, lng b0) travelMode) ;;
              more <- legsBetween P travelMode bufferMinutes (b0 :: rest') ;;
              Next (mins + bufferMinutes :: more)).
      unfold computeRouteMinutes. rewrite Hdur, Hmore. reflexivity.
Qed.

(** C9. A fresh-plan request with [parkOnce] set that reaches its open
    stops, and whose parking lookup gives nothing or a place without
    coordinates.  When the provider computes the DRIVE route between
    every two consecutive stops, the plan is answered.  An answered plan
    has exactly the open stops as its stop items, so no parking
    pseudo-stop; it has one travel item between consecutive stops and
    none before the first; every travel item is in DRIVE mode; and the
    minutes of each are those of the route the provider computes in DRIVE
    mode from the stop before it to the stop after it, plus the
    buffer. *)
Theorem park_once_without_parking (key : option string) (body : Req.Body)
    (stops : list StopDetails) :
  (actionOf body =? "swap") = false ->
  freshAccepted key body = true ->
  Req.parkOnce body = true ->
  freshStopsOf P body = Next stops ->
  (lookupParkOnce P true (destinationOf body) stops = None \/
   exists pk,
     lookupParkOnce P true (destinationOf body) stops = Some pk /\
     (pkLat pk = None \/ pkLng pk = None)) ->
  ((forall i a b,
      nth_error stops i = Some a ->
      nth_error stops (S i) = Some b ->
      exists dur,
        routesCompute P (lat a, lng a) (lat b, lng b) DRIVE = Ok dur) ->
   exists plan, POST P key body = Json plan)
  /\
  (forall plan,
     POST P key body = Json plan ->
     parkOnce plan = true /\
     planStops (items plan) = stops /\
     List.length (travelMinutes (items plan)) = pred (List.length stops) /\
     Forall (eq DRIVE) (travelModes (items plan)) /\
     forall i a b,
       nth_error stops i = Some a ->
       nth_error stops (S i) = Some b ->
       exists dur,
         routesCompute P (lat a, lng a) (lat b, lng b) DRIVE = Ok dur /\
         nth_error (travelMinutes (items plan)) i
         = Some (toMinsFromDuration dur + bufferMinutes plan)).
Proof.
  intros Ha Hacc Hpark Hstops Hlookup.
  assert (Hshown :
            parkingShown (Req.parkOnce body)
              (lookupParkOnce P (Req.parkOnce body) (destinationOf body) stops)
            = None).
  { rewrite Hpark. apply parkingShown_none. exact Hlookup. }
  pose proof (POST_fresh_drive P key body stops Ha Hacc Hstops Hshown) as Hpost.
  split.
  - intros Hall.
    destruct (legsBetween_answers DRIVE (bufferMinutesOf body) stops Hall)
      as [legs Hlegs].
    exists (drivePlanOf P body stops legs). rewrite Hpost, Hlegs. reflexivity.
  - intros plan Hplan. rewrite Hpost in Hplan.
    destruct (legsBetween P DRIVE (bufferMinutesOf body) stops)
      as [legs | r | msg] eqn:Hlegs.
    + injection Hplan as <-.
      destruct (legsBetween_shape P _ _ _ _ Hlegs) as [Hlen _].
      cbn [items drivePlanOf parkOnce bufferMinutes].
      rewrite (driveItems_weave _ _ _ Hlen).
      rewrite weave_planStops, (weave_travelMinutes _ _ _ _ _ _ Hlen).
      split; [exact Hpark |]. split; [reflexivity |].
      split; [exact Hlen |]. split; [apply weave_travelModes |].
      intros i a b Hia Hib.
      apply (legsBetween_asked DRIVE (bufferMinutesOf body) stops legs i a b);
        assumption.
    + exfalso. exact (legsBetween_not_Return P _ _ _ _ Hlegs).
    + discriminate Hplan.
Qed.

End ParkOnceLegs.

Lemma park_once_without_parking_witness :
  ((forall i a b,
      nth_error Sample.freshStopsFound i = Some a ->
      nth_error Sample.freshStopsFound (S i) = Some b ->
      exists dur,
        routesCompute Sample.freshProvider (lat a, lng a) (lat b, lng b) DRIVE
        = Ok dur) ->
   exists plan, POST Sample.freshProvider Sample.key Sample.freshBody = Json plan)
  /\
  (forall plan,
     POST Sample.freshProvider Sample.key Sample.freshBody = Json plan ->
     parkOnce plan = true /\
     planStops (items plan) = Sample.freshStopsFound /\
     List.length (travelMinutes (items plan))
     = pred (List.length Sample.freshStopsFound) /\
     Forall (eq DRIVE) (travelModes (items plan)) /\
     forall i a b,
       nth_error Sample.freshStopsFound i = Some a ->
       nth_error Sample.freshStopsFound (S i) = Some b ->
       exists dur,
         routesCompute Sample.freshProvider (lat a, lng a) (lat b, lng b) DRIVE
         = Ok dur /\
         nth_error (travelMinutes (items plan)) i
         = Some (toMinsFromDuration dur + bufferMinutes plan)).
Proof.
  apply (park_once_without_parking Sample.freshProvider Sample.key
           Sample.freshBody Sample.freshStopsFound).
  - reflexivity.
  - reflexivity.
  - reflexivity.
  - apply sample_fresh_stops.
  - right. eexists. split; [vm_compute; reflexivity | left; reflexivity].
Defined.

(** The sample park-once request, whose provider drives a leg in 600
    seconds and walks it in 1500: the one leg of the plan takes the 10
    minutes of the drive. *)
Lemma sample_fresh_legs :
  exists plan,
    POST Sample.freshProvider Sample.key Sample.freshBody = Json plan /\
    travelMinutes (items plan) = [10] /\
    map placeId (planStops (items plan)) = ["B"; "C"].
Proof.
  eexists. split.
  - rewrite (POST_fresh_drive Sample.freshProvider Sample.key Sample.freshBody
               Sample.freshStopsFound eq_refl eq_refl sample_fresh_stops eq_refl).
    vm_compute. reflexivity.
  - split; reflexivity.
Qed.

(** ** What every plan is made of, continued *)

Section PlanAssembly.

Variable P : Provider.

Lemma freshStops_open (destination : string) (vibesFinal : list string)
    (parkOnce riderMode : bool) (excludeSet : list string) (stopCount : nat)
    (stops : list StopDetails) :
  freshStops P destination vibesFinal parkOnce riderMode excludeSet stopCount
  = Next stops ->
  Forall notClosed stops.
Proof.
  unfold freshStops. intros H.
  apply bind_Next in H. destruct H as [destPlaces [_ H]].
  apply bind_Next in H. destruct H as [vibeResults [_ H]].
  apply bind_Next in H. destruct H as [candA [_ H]].
  apply bind_Next in H. destruct H as [candF [_ H]].
  apply bind_Next in H. destruct H as [candP [_ H]].
  apply bind_Next in H. destruct H as [candScenic [_ H]].
  apply bind_Next in H. destruct H as [candRideCoffee [_ H]].
  unfold freshSelect in H.
  apply bind_Next in H. destruct H as [u [_ H]].
  apply bind_Next in H. destruct H as [found [Hrun H]].
  apply bind_Next in H. destruct H as [u' [_ H]].
  injection H as <-.
  apply (enrichOpen_open P _ _ _ _ _ _ _ _ (Forall_nil _) Hrun).
Qed.

(** The parts of a plan: at least two stops, none reported closed; the
    legs between them, each of at least 5 minutes plus the buffer; and the
    items, woven from both, after the parking pseudo-stop and the walk
    from it in a park-once plan.  A stop lasts at least 20 minutes, and at
    least 25 in a fresh plan. *)
Lemma plan_assembly (key : option string) (body : Req.Body)
    (plan : PlanResponse) :
  POST P key body = Json plan ->
  exists durationAt stops legs,
    (2 <= List.length stops)%nat /\
    List.length legs = pred (List.length stops) /\
    Forall notClosed stops /\
    Forall (fun m => 5 + bufferMinutes plan <= m) legs /\
    (forall i, 20 <= durationAt i) /\
    ((actionOf body =? "swap") = false -> forall i, 25 <= durationAt i) /\
    (items plan = weave DRIVE "Drive to " durationAt 0 stops legs
     \/
     (parkOnce plan = true /\
      exists pk pLat pLng first,
        5 + bufferMinutes plan <= first /\
        items plan
        = parkOnceItem pk pLat pLng
          :: TravelItem ("Walk to " ++ titleAt stops 0 "first stop") first WALK
          :: weave WALK "Walk to " durationAt 0 stops legs)).
Proof.
  intros H. destruct (actionOf body =? "swap") eqn:Ha.
  - apply String.eqb_eq in Ha.
    destruct (swap_plan_inv P key body plan Ha H)
      as (centerLat & centerLng & replacement & Hacc & _ & Hre).
    unfold swapRebuildOf in Hre. apply swapRebuild_Next in Hre.
    destruct Hre as (stops & travelMins & Hstops & Hlegs & Hplan).
    injection Hplan as ->. cbn [items bufferMinutes parkOnce].
    assert (Hlen : (2 <= List.length stops)%nat).
    { rewrite <- (length_map placeId stops),
        (enrichAll_placeIds P _ _ _ Hstops), length_map.
      unfold swapNextStops. rewrite nextStopsOf_length.
      exact (swapAccepted_stops _ _ _ Hacc). }
    assert (Hne : stops <> []) by (intros ->; simpl in Hlen; lia).
    match goal with
    | |- context [assembleItems ?d _ _ _ _] => set (durationAt := d)
    end.
    destruct (assembleItems_form P durationAt _ _ _ _ _ Hne Hlegs)
      as (legs & Hlegslen & Hmin & Hform).
    exists durationAt, stops, legs.
    split; [exact Hlen |]. split; [exact Hlegslen |].
    split; [exact (enrichAll_open P _ _ _ Hstops) |].
    split; [exact Hmin |]. split; [| split; [discriminate | exact Hform]].
    intros i. unfold durationAt. rewrite nth_error_map.
    destruct (nth_error _ i); cbn [option_map nullish];
      [apply Q.le_max_l | discriminate].
  - destruct (fresh_plan_inv P key body plan Ha H) as (stops & _ & Hstops & Hfin).
    unfold freshFinishOf in Hfin. apply freshFinish_Next in Hfin.
    destruct Hfin as (travelMins & Hlegs & Hplan).
    injection Hplan as ->. cbn [items bufferMinutes parkOnce].
    unfold freshStopsOf in Hstops.
    pose proof (freshStops_length P _ _ _ _ _ _ _ Hstops) as [Hlen _].
    assert (Hne : stops <> []) by (intros ->; simpl in Hlen; lia).
    destruct (assembleItems_form P
                (freshDurationAt P (totalMinutesOf body) travelMins
                   (List.length stops)) _ _ _ _ _ Hne Hlegs)
      as (legs & Hlegslen & Hmin & Hform).
    exists (freshDurationAt P (totalMinutesOf body) travelMins (List.length stops)),
      stops, legs.
    split; [exact Hlen |]. split; [exact Hlegslen |].
    split; [exact (freshStops_open _ _ _ _ _ _ _ Hstops) |].
    split; [exact Hmin |].
    assert (H25 : forall i,
              25 <= freshDurationAt P (totalMinutesOf body) travelMins
                      (List.length stops) i)
      by (intros i; apply Q.le_max_l).
    split; [| split; [intros _; exact H25 | exact Hform]].
    intros i. specialize (H25 i). lra.
Qed.

End PlanAssembly.

(** ** The shape of every plan *)

Section PlanShape.

Lemma weave_stopMinutes (travelMode : TravelMode) (verb : string)
    (durationAt : nat -> Q) (holds : Q -> Prop) (stops : list StopDetails) :
  (forall i, holds (durationAt i)) ->
  forall k legs,
    Forall holds (stopMinutes (weave travelMode verb durationAt k stops legs)) /\
    List.length (stopMinutes (weave travelMode verb durationAt k stops legs))
    = List.length stops.
Proof.
  intros Hall. unfold stopMinutes.
  induction stops as [| s rest IH]; intros k legs; [split; [constructor | reflexivity] |].
  cbn [weave]. destruct rest as [| next rest'].
  - destruct legs; (split; [repeat constructor; apply Hall | reflexivity]).
  - destruct legs as [| leg legs'].
    + destruct (IH (S k) []) as [IH1 IH2].
      split; [constructor; [apply Hall | exact IH1] |].
      change (S (List.length
                   (map snd
                      (stopEntries
                         (weave travelMode verb durationAt (S k)
                            (next :: rest') []))))
              = S (List.length (next :: rest'))).
      f_equal. exact IH2.
    + destruct (IH (S k) legs') as [IH1 IH2].
      split; [constructor; [apply Hall | exact IH1] |].
      change (S (List.length
                   (map snd
                      (stopEntries
                         (weave travelMode verb durationAt (S k)
                            (next :: rest') legs'))))
              = S (List.length (next :: rest'))).
      f_equal. exact IH2.
Qed.

(** X8. The items of every plan the handler answers go stop, travel,
    stop, ..., stop: the first and the last item are stops, a travel item
    stands between any two stops and nowhere else, so there is one stop
    more than there are travel items; and there are at least two stops. *)
Theorem plan_items_alternate (P : Provider) (key : option string)
    (body : Req.Body) (plan : PlanResponse) :
  POST P key body = Json plan ->
  alternates (items plan) = true /\
  (2 <= List.length (planStops (items plan)))%nat /\
  List.length (planStops (items plan))
  = S (List.length (travelMinutes (items plan))).
Proof.
  intros H.
  destruct (plan_assembly P key body plan H)
    as (durationAt & stops & legs & Hlen & Hlegs & _ & _ & _ & _ & Hform).
  assert (Hne : stops <> []) by (intros ->; simpl in Hlen; lia).
  assert (Halt : alternates (items plan) = true).
  { destruct Hform as [-> | (_ & pk & pLat & pLng & first & _ & ->)].
    - apply weave_alternates; assumption.
    - unfold parkOnceItem. cbn [alternates].
      apply weave_alternates; assumption. }
  split; [exact Halt |]. split; [| apply alternates_counts; exact Halt].
  destruct Hform as [-> | (_ & pk & pLat & pLng & first & _ & ->)].
  - rewrite weave_planStops. exact Hlen.
  - unfold parkOnceItem.
    match goal with
    | |- (2 <= List.length (planStops (StopItem ?d ?s :: TravelItem ?t ?m ?w :: ?r)))%nat =>
        change (2 <= S (List.length (planStops r)))%nat
    end.
    rewrite weave_planStops. lia.
Qed.

Lemma plan_items_alternate_witness :
  alternates (items (Sample.swapPlan "C")) = true /\
  (2 <= List.length (planStops (items (Sample.swapPlan "C"))))%nat /\
  List.length (planStops (items (Sample.swapPlan "C")))
  = S (List.length (travelMinutes (items (Sample.swapPlan "C")))).
Proof.
  apply (plan_items_alternate (Sample.provider [Sample.placeC] []) Sample.key
           Sample.swapBody).
  apply sample_swap_to_C.
Defined.

(** X9. A plan never mixes travel modes: either every travel item is
    driven, or the plan is a park-once plan that opens with the 5-minute
    parking pseudo-stop and every travel item is walked. *)
Theorem plan_single_travel_mode (P : Provider) (key : option string)
    (body : Req.Body) (plan : PlanResponse) :
  POST P key body = Json plan ->
  Forall (eq DRIVE) (travelModes (items plan)) \/
  (parkOnce plan = true /\
   Forall (eq WALK) (travelModes (items plan)) /\
   exists pk pLat pLng rest,
     items plan = parkOnceItem pk pLat pLng :: rest).
Proof.
  intros H.
  destruct (plan_assembly P key body plan H)
    as (durationAt & stops & legs & _ & _ & _ & _ & _ & _ & Hform).
  destruct Hform as [-> | (Hpark & pk & pLat & pLng & first & _ & ->)].
  - left. apply weave_travelModes.
  - right. split; [exact Hpark |]. split.
    + unfold parkOnceItem.
      match goal with
      | |- Forall _ (travelModes (StopItem ?d ?s :: TravelItem ?t ?m ?w :: ?r)) =>
          change (Forall (eq WALK) (WALK :: travelModes r))
      end.
      constructor; [reflexivity | apply weave_travelModes].
    + exists pk, pLat, pLng. eexists. reflexivity.
Qed.

Lemma plan_single_travel_mode_witness :
  Forall (eq DRIVE) (travelModes (items (Sample.swapPlan "C"))) \/
  (parkOnce (Sample.swapPlan "C") = true /\
   Forall (eq WALK) (travelModes (items (Sample.swapPlan "C"))) /\
   exists pk pLat pLng rest,
     items (Sample.swapPlan "C") = parkOnceItem pk pLat pLng :: rest).
Proof.
  apply (plan_single_travel_mode (Sample.provider [Sample.placeC] [])
           Sample.key Sample.swapBody).
  apply sample_swap_to_C.
Defined.

(** X10. Every travel item of a plan lasts at least 5 minutes plus the
    plan's buffer minutes, whatever the routes provider answered (a route
    without a duration counts 15 minutes, a shorter one is raised to 5). *)
Theorem plan_travel_minimum (P : Provider) (key : option string)
    (body : Req.Body) (plan : PlanResponse) :
  POST P key body = Json plan ->
  0 <= bufferMinutes plan <= 20 /\
  Forall (fun m => 5 + bufferMinutes plan <= m) (travelMinutes (items plan)).
Proof.
  intros H. split.
  - destruct (POST_echo P key body plan H) as [_ ->].
    apply clamp_buffer_range.
  - destruct (plan_assembly P key body plan H)
      as (durationAt & stops & legs & _ & Hlegs & _ & Hmin & _ & _ & Hform).
    destruct Hform as [-> | (_ & pk & pLat & pLng & first & Hfirst & ->)].
    + rewrite (weave_travelMinutes _ _ _ _ _ _ Hlegs). exact Hmin.
    + unfold parkOnceItem.
      match goal with
      | |- Forall _ (travelMinutes (StopItem ?d ?s :: TravelItem ?t ?m ?w :: ?r)) =>
          change (Forall (fun m => 5 + bufferMinutes plan <= m)
                    (first :: travelMinutes r))
      end.
      constructor; [exact Hfirst |].
      rewrite (weave_travelMinutes _ _ _ _ _ _ Hlegs). exact Hmin.
Qed.

Lemma plan_travel_minimum_witness :
  0 <= bufferMinutes (Sample.swapPlan "C") <= 20 /\
  Forall (fun m => 5 + bufferMinutes (Sample.swapPlan "C") <= m)
    (travelMinutes (items (Sample.swapPlan "C"))).
Proof.
  apply (plan_travel_minimum (Sample.provider [Sample.placeC] []) Sample.key
           Sample.swapBody).
  apply sample_swap_to_C.
Defined.

(** X11. No plan holds a stop that the provider reported closed: every
    stop item of every plan, fresh or swapped, has [openNow] true or
    unknown.  In a swap this covers the stops the caller sent as well as
    the replacement: a kept stop that has closed fails the request. *)
Theorem plan_stops_not_closed (P : Provider) (key : option string)
    (body : Req.Body) (plan : PlanResponse) :
  POST P key body = Json plan ->
  Forall notClosed (planStops (items plan)).
Proof.
  intros H.
  destruct (plan_assembly P key body plan H)
    as (durationAt & stops & legs & _ & _ & Hopen & _ & _ & _ & Hform).
  destruct Hform as [-> | (_ & pk & pLat & pLng & first & _ & ->)].
  - rewrite weave_planStops. exact Hopen.
  - unfold parkOnceItem.
    match goal with
    | |- Forall _ (planStops (StopItem ?d ?s :: TravelItem ?t ?m ?w :: ?r)) =>
        change (Forall notClosed (s :: planStops r))
    end.
    constructor; [discriminate |].
    rewrite weave_planStops. exact Hopen.
Qed.

Lemma plan_stops_not_closed_witness :
  Forall notClosed (planStops (items (Sample.swapPlan "C"))).
Proof.
  apply (plan_stops_not_closed (Sample.provider [Sample.placeC] []) Sample.key
           Sample.swapBody).
  apply sample_swap_to_C.
Defined.

End PlanShape.

(** ** The minutes of a fresh plan *)

Section PlanMinutes.








End PlanMinutes.

(** ** Swap branch: what the replacement is like *)

Section SwapProfile.

Variable P : Provider.

Lemma Category_eqb_eq (a b : Category) : Category_eqb a b = true -> a = b.
Proof. destruct a, b; simpl; intros H; try reflexivity; discriminate H. Qed.





End SwapProfile.


(** ** Fresh plan: which places become stops *)

Section FreshStops.

Variable P : Provider.


Lemma find__In {A : Type} (f : A -> bool) (l : list A) (x : A) :
  find_ f l = Some x -> In x l.
Proof. unfold find_. intros H. apply find_some in H. apply H. Qed.

Lemma walkPool_incl (parkOnce : bool) (anchorLoc : option LatLng) (walkKm : R)
    (filtered : list Place) :
  incl (walkPool parkOnce anchorLoc walkKm filtered) filtered.
Proof.
  unfold walkPool. destruct parkOnce; [| apply incl_refl].
  destruct anchorLoc; [| apply incl_refl].
  intros p Hp. apply filter_In in Hp. apply Hp.
Qed.

Lemma incl_snoc {A : Type} (l m : list A) (x : A) :
  incl l m -> In x m -> incl (l ++ [x])%list m.
Proof.
  intros Hl Hx. apply incl_app; [exact Hl |].
  intros y [<- | []]. exact Hx.
Qed.

Lemma fillFrom_incl (stopCount : nat) (pool filtered : list Place) :
  incl pool filtered ->
  forall fuel picked,
    incl picked filtered ->
    incl (fillFrom fuel stopCount pool picked) filtered.
Proof.
  intros Hpool. induction fuel as [| fuel IH]; intros picked Hp; simpl;
    [exact Hp |].
  destruct (List.length picked <? stopCount)%nat; [| exact Hp].
  destruct (find_ _ pool) as [next |] eqn:E; [| exact Hp].
  apply IH. apply incl_snoc; [exact Hp |].
  apply Hpool. apply (find__In _ _ _ E).
Qed.

(** Every picked place is a place of [filtered]. *)
Lemma pickStops_incl (filtered : list Place) (want : list Category)
    (parkOnce : bool) (stopCount : nat) :
  incl (pickStops filtered want parkOnce stopCount) filtered.
Proof.
  unfold pickStops.
  set (anchor := match find_ _ filtered with
                 | Some a => Some a
                 | None => hd_error filtered
                 end).
  set (anchorLoc := match anchor with Some a => location a | None => None end).
  assert (Hanchor : incl (match anchor with Some a => [a] | None => [] end)
                      filtered).
  { unfold anchor. destruct (find_ _ filtered) as [a |] eqn:E.
    - intros x [<- | []]. apply (find__In _ _ _ E).
    - destruct filtered as [| a rest]; simpl.
      + intros x [].
      + intros x [<- | []]. left. reflexivity. }
  pose proof (walkPool_incl parkOnce anchorLoc 1.5%R filtered) as H1.
  pose proof (walkPool_incl parkOnce anchorLoc 3%R filtered) as H2.
  repeat (apply fillFrom_incl; [assumption || apply incl_refl |]).
  generalize dependent (match anchor with Some a => [a] | None => [] end).
  induction (tl want) as [| cat cats IH]; intros picked Hp; simpl;
    [exact Hp |].
  apply IH. unfold pickFromPool.
  destruct (find_ _ (walkPool parkOnce anchorLoc 1.5%R filtered))
    as [next |] eqn:E1.
  { apply incl_snoc; [exact Hp | apply H1, (find__In _ _ _ E1)]. }
  destruct (find_ _ (walkPool parkOnce anchorLoc 3%R filtered))
    as [next |] eqn:E2.
  { apply incl_snoc; [exact Hp | apply H2, (find__In _ _ _ E2)]. }
  match goal with
  | |- incl (match ?f with Some _ => _ | None => _ end) _ =>
      destruct f as [next |] eqn:E3; [| exact Hp]
  end.
  apply incl_snoc; [exact Hp | apply (find__In _ _ _ E3)].
Qed.





End FreshStops.


(** ** The error answers *)

Section ErrorAnswers.

Variable P : Provider.

Lemma answers_bind {A B : Type} (m : Step A) (k : A -> Step B) :
  answers P m -> (forall a, answers P (k a)) -> answers P (bind m k).
Proof. destruct m as [a | r | msg]; simpl; auto. Qed.

Lemma answers_search (q : Query) (n : nat) :
  answers P (await (searchPlacesText P q n)).
Proof.
  unfold searchPlacesText. destruct (placesSearchText P q n) eqn:E; simpl;
    [exact I |].
  left. eauto.
Qed.

Lemma answers_details (pid : string) :
  answers P (await (getPlaceDetails P pid)).
Proof.
  unfold getPlaceDetails. destruct (placeDetails P pid) eqn:E; simpl;
    [exact I |].
  right. left. eauto.
Qed.

Lemma answers_photo (name : string) (w : nat) :
  answers P (await (getPhotoUri P name w)).
Proof.
  unfold getPhotoUri. destruct (photoMedia P name w) eqn:E; simpl; [exact I |].
  right. right. left. eauto.
Qed.

Lemma answers_route (a b : JsNum * JsNum) (m : TravelMode) :
  answers P (await (computeRouteMinutes P a b m)).
Proof.
  unfold computeRouteMinutes. destruct (routesCompute P a b m) eqn:E; simpl;
    [exact I |].
  right. right. right. eauto.
Qed.

Lemma answers_returnIf (cond : bool) (r : Response) :
  ownError r -> answers P (returnIf cond r).
Proof. intros H. unfold returnIf. destruct cond; simpl; auto. Qed.

Lemma answers_enrichStop (destination pid : string)
    (fallbackTitle : option string) (details : Details) :
  answers P (enrichStop P destination pid fallbackTitle details).
Proof.
  unfold enrichStop. apply answers_bind; [| intros; exact I].
  destruct (truthy (dPhotoName details)); [apply answers_photo | exact I].
Qed.

Lemma answers_enrichAll (destination : string) (nextStops : list StopInput) :
  answers P (enrichAll P destination nextStops).
Proof.
  induction nextStops as [| s rest IH]; simpl; [exact I |].
  apply answers_bind; [apply answers_details | intros details].
  apply answers_bind.
  { apply answers_returnIf. right. left. split; [reflexivity |].
    right. eexists. reflexivity. }
  intros _. apply answers_bind; [apply answers_enrichStop | intros stop].
  apply answers_bind; [exact IH | intros; exact I].
Qed.

Lemma answers_legsBetween (travelMode : TravelMode) (bufferMinutes : Q)
    (stops : list StopDetails) :
  answers P (legsBetween P travelMode bufferMinutes stops).
Proof.
  induction stops as [| a rest IH]; simpl; [exact I |].
  destruct rest as [| b rest']; [exact I |].
  apply answers_bind; [apply answers_route | intros mins].
  apply answers_bind; [exact IH | intros; exact I].
Qed.

Lemma answers_computeTravelMins (parkOnce : bool)
    (parkOnceLocation : option ParkingOption) (bufferMinutes : Q)
    (stops : list StopDetails) :
  answers P (computeTravelMins P parkOnce parkOnceLocation bufferMinutes stops).
Proof.
  unfold computeTravelMins.
  destruct (parkingShown parkOnce parkOnceLocation) as [[[pk pLat] pLng] |];
    [| apply answers_legsBetween].
  destruct stops as [| firstStop rest]; [apply answers_legsBetween |].
  apply answers_bind; [apply answers_route | intros first].
  apply answers_bind; [apply answers_legsBetween | intros; exact I].
Qed.

Lemma answers_swapBranch (key : option string) (body : Req.Body) :
  answers P (swapBranch P key body).
Proof.
  unfold swapBranch. cbv zeta.
  apply answers_bind.
  { apply answers_returnIf. left. split; [reflexivity | simpl; auto]. }
  intros _. apply answers_bind.
  { apply answers_returnIf. right. right. split; reflexivity. }
  intros _. apply answers_bind.
  { apply answers_returnIf. left. split; [reflexivity | simpl; auto]. }
  intros _. apply answers_bind.
  { apply answers_returnIf. left. split; [reflexivity | simpl; auto]. }
  intros _.
  assert (Hinvalid : answers P
            (Return_ (A := Response) (ErrorJson "Invalid swap request" 400))).
  { left. split; [reflexivity | simpl; auto]. }
  destruct (trim (nullish (Req.swapPlaceId body) "") =? ""); [exact Hinvalid |].
  destruct (centerOf (Req.swapLat body) _) as [centerLat |]; [| exact Hinvalid].
  destruct (centerOf (Req.swapLng body) _) as [centerLng |]; [| exact Hinvalid].
  destruct (pickReplacement P _) as [replacement |].
  - unfold swapRebuild.
    apply answers_bind; [apply answers_enrichAll | intros stops].
    apply answers_bind; [apply answers_computeTravelMins | intros; exact I].
  - right. left. split; [reflexivity | left; simpl; auto].
Qed.

Lemma answers_searchAll (queries : list string) :
  answers P (searchAll P queries).
Proof.
  induction queries as [| q rest IH]; simpl; [exact I |].
  apply answers_bind; [apply answers_search | intros r].
  apply answers_bind; [exact IH | intros; exact I].
Qed.

Lemma answers_enrichOpen (destination : string) (stopCount maxAttempts : nat)
    (candidatesOrdered : list Place) :
  forall stops usedIds attempts,
    answers P
      (enrichOpen P destination stopCount maxAttempts candidatesOrdered stops
         usedIds attempts).
Proof.
  induction candidatesOrdered as [| p rest IH]; intros stops usedIds attempts;
    simpl; [exact I |].
  destruct (stopCount <=? List.length stops)%nat; [exact I |].
  destruct (maxAttempts <=? attempts)%nat; [exact I |].
  destruct (nullish (id p) "" =? ""); [apply IH |].
  destruct (includes usedIds (nullish (id p) "")); [apply IH |].
  apply answers_bind; [apply answers_details | intros details].
  destruct (dOpenNow details) as [[|] |]; try apply IH;
    (apply answers_bind; [apply answers_enrichStop | intros stop; apply IH]).
Qed.

Lemma answers_freshBranch (key : option string) (body : Req.Body) :
  answers P (freshBranch P key body).
Proof.
  unfold freshBranch. cbv zeta.
  apply answers_bind.
  { apply answers_returnIf. left. split; [reflexivity | simpl; auto]. }
  intros _. apply answers_bind.
  { apply answers_returnIf. right. right. split; reflexivity. }
  intros _. apply answers_bind.
  - unfold freshStops.
    apply answers_bind; [apply answers_search | intros destPlaces].
    apply answers_bind; [apply answers_searchAll | intros vibeResults].
    do 5 (apply answers_bind; [apply answers_search | intros ?]).
    unfold freshSelect. apply answers_bind.
    { apply answers_returnIf. right. left.
      split; [reflexivity | left; simpl; auto]. }
    intros _. apply answers_bind; [apply answers_enrichOpen | intros stops].
    apply answers_bind; [| intros; exact I].
    apply answers_returnIf. right. left.
    split; [reflexivity | left; simpl; auto].
  - intros stops. unfold freshFinish.
    apply answers_bind; [apply answers_computeTravelMins | intros; exact I].
Qed.

(** X15. The error answers of the handler.  An answer that is not a plan
    has status 400 with one of the four validation messages, status 404
    with one of the three nothing-found messages or the closed-stop
    message, or status 500 with the missing-key message or with the
    message of an error thrown by a call to the provider. *)
Theorem POST_error_answers (key : option string) (body : Req.Body)
    (msg : string) (status : nat) :
  POST P key body = ErrorJson msg status ->
  ownError (ErrorJson msg status) \/
  (status = 500%nat /\ thrownBy P msg).
Proof.
  unfold POST. cbv zeta.
  set (m := if _ =? "swap" then swapBranch P key body else freshBranch P key body).
  assert (Hm : answers P m).
  { unfold m. destruct (_ =? "swap");
      [apply answers_swapBranch | apply answers_freshBranch]. }
  assert (Hnext : forall r, m = Next r -> r <> ErrorJson msg status).
  { unfold m. intros r Hr Heq. subst r.
    destruct (_ =? "swap") eqn:Ha.
    - revert Hr. unfold swapBranch. cbv zeta. intros Hr.
      repeat (apply bind_Next in Hr; destruct Hr as [? [_ Hr]]).
      destruct (trim (nullish (Req.swapPlaceId body) "") =? "");
        [discriminate Hr |].
      destruct (centerOf (Req.swapLat body) _); [| discriminate Hr].
      destruct (centerOf (Req.swapLng body) _); [| discriminate Hr].
      destruct (pickReplacement P _); [| discriminate Hr].
      apply swapRebuild_Next in Hr. destruct Hr as (? & ? & _ & _ & Hr).
      discriminate Hr.
    - revert Hr. unfold freshBranch. cbv zeta. intros Hr.
      apply bind_Next in Hr. destruct Hr as [? [_ Hr]].
      apply bind_Next in Hr. destruct Hr as [? [_ Hr]].
      apply bind_Next in Hr. destruct Hr as [? [_ Hr]].
      apply freshFinish_Next in Hr. destruct Hr as (? & _ & Hr).
      discriminate Hr. }
  destruct m as [r | r | thrown]; intros H.
  - exfalso. exact (Hnext r eq_refl H).
  - left. subst r. exact Hm.
  - right. injection H as <- <-. split; [reflexivity | exact Hm].
Qed.

End ErrorAnswers.

Lemma POST_error_answers_witness :
  ownError (ErrorJson missingKey 500) \/
  (500%nat = 500%nat /\ thrownBy Sample.freshProvider missingKey).
Proof.
  apply (POST_error_answers Sample.freshProvider None Sample.freshBody).
  vm_compute. reflexivity.
Defined.

(** ** The route sequencer is greedy *)

Section Greedy.

Local Open Scope R_scope.

Lemma Rltb_true (x y : R) : Rltb x y = true -> x < y.
Proof. unfold Rltb. destruct (Rlt_dec x y); [auto | discriminate]. Qed.

Lemma Rltb_false (x y : R) : Rltb x y = false -> y <= x.
Proof.
  unfold Rltb. destruct (Rlt_dec x y) as [H | H]; [discriminate |].
  intros _. apply Rnot_lt_le. exact H.
Qed.

(** The inner loop: either no place improves on [bestD] and the index
    stays, or the index is that of a nearest place with a location. *)
Lemma nearestIdx_spec (lastLoc : LatLng) (remaining : list Place) :
  forall (i bestIdx : nat) (bestD : option R),
    (nearestIdx lastLoc remaining i bestIdx bestD = bestIdx /\
     forall q lq,
       In q remaining -> location q = Some lq ->
       match bestD with
       | Some b => b <= haversineKm lastLoc lq
       | None => False
       end)
    \/
    (exists p loc,
       (i <= nearestIdx lastLoc remaining i bestIdx bestD)%nat /\
       nth_error remaining
         (nearestIdx lastLoc remaining i bestIdx bestD - i) = Some p /\
       location p = Some loc /\
       (forall q lq,
          In q remaining -> location q = Some lq ->
          haversineKm lastLoc loc <= haversineKm lastLoc lq) /\
       match bestD with
       | Some b => haversineKm lastLoc loc < b
       | None => True
       end).
Proof.
  induction remaining as [| p rest IH]; intros i bestIdx bestD.
  - left. split; [reflexivity | intros q lq []].
  - cbn [nearestIdx]. destruct (location p) as [loc |] eqn:Hloc.
    + destruct (match bestD with
                | Some b => Rltb (haversineKm lastLoc loc) b
                | None => true
                end) eqn:Hcloser.
      * right.
        destruct (IH (S i) i (Some (haversineKm lastLoc loc)))
          as [[Hk Hall] | (p' & loc' & Hi & Hnth & Hloc' & Hmin & Hlt)].
        -- exists p, loc. rewrite Hk, Nat.sub_diag.
           split; [lia |]. split; [reflexivity |]. split; [exact Hloc |].
           split.
           ++ intros q lq [<- | Hq] Hlq.
              ** rewrite Hloc in Hlq. injection Hlq as <-. lra.
              ** exact (Hall q lq Hq Hlq).
           ++ destruct bestD as [b |]; [apply Rltb_true; exact Hcloser | exact I].
        -- exists p', loc'. split; [lia |]. split.
           { replace (nearestIdx lastLoc rest (S i) i
                        (Some (haversineKm lastLoc loc)) - i)%nat
               with (S (nearestIdx lastLoc rest (S i) i
                          (Some (haversineKm lastLoc loc)) - S i))%nat by lia.
             exact Hnth. }
           split; [exact Hloc' |]. split.
           ++ intros q lq [<- | Hq] Hlq.
              ** rewrite Hloc in Hlq. injection Hlq as <-. lra.
              ** exact (Hmin q lq Hq Hlq).
           ++ destruct bestD as [b |]; [| exact I].
              apply Rltb_true in Hcloser. lra.
      * destruct bestD as [b |]; [| discriminate Hcloser].
        apply Rltb_false in Hcloser.
        destruct (IH (S i) bestIdx (Some b))
          as [[Hk Hall] | (p' & loc' & Hi & Hnth & Hloc' & Hmin & Hlt)].
        -- left. split; [exact Hk |].
           intros q lq [<- | Hq] Hlq.
           ++ rewrite Hloc in Hlq. injection Hlq as <-. exact Hcloser.
           ++ exact (Hall q lq Hq Hlq).
        -- right. exists p', loc'. split; [lia |]. split.
           { replace (nearestIdx lastLoc rest (S i) bestIdx (Some b) - i)%nat
               with (S (nearestIdx lastLoc rest (S i) bestIdx (Some b) - S i))%nat
               by lia.
             exact Hnth. }
           split; [exact Hloc' |]. split; [| exact Hlt].
           intros q lq [<- | Hq] Hlq.
           ++ rewrite Hloc in Hlq. injection Hlq as <-. lra.
           ++ exact (Hmin q lq Hq Hlq).
    + destruct (IH (S i) bestIdx bestD)
        as [[Hk Hall] | (p' & loc' & Hi & Hnth & Hloc' & Hmin & Hlt)].
      * left. split; [exact Hk |].
        intros q lq [<- | Hq] Hlq.
        -- rewrite Hloc in Hlq. discriminate Hlq.
        -- exact (Hall q lq Hq Hlq).
      * right. exists p', loc'. split; [lia |]. split.
        { replace (nearestIdx lastLoc rest (S i) bestIdx bestD - i)%nat
            with (S (nearestIdx lastLoc rest (S i) bestIdx bestD - S i))%nat
            by lia.
          exact Hnth. }
        split; [exact Hloc' |]. split; [| exact Hlt].
        intros q lq [<- | Hq] Hlq.
        -- rewrite Hloc in Hlq. discriminate Hlq.
        -- exact (Hmin q lq Hq Hlq).
Qed.

Lemma chainWith_fewer (extra extra' : list Place) :
  incl extra' extra ->
  forall ordered, chainWith extra ordered -> chainWith extra' ordered.
Proof.
  intros Hincl. induction ordered as [| a rest IH]; [auto |].
  cbn [chainWith]. intros [Hhead Htail]. split; [| apply IH; exact Htail].
  destruct rest as [| b rest']; [exact I |].
  intros la c lc Hla Hc Hlc. apply (Hhead la c lc Hla); [| exact Hlc].
  apply in_app_or in Hc. apply in_or_app.
  destruct Hc as [Hc | Hc]; [left; exact Hc | right; apply Hincl; exact Hc].
Qed.

(** One round of the loop keeps the chain: [p] goes from the places to
    come to the end of [ordered], and is the nearest to the last place. *)
Lemma chainWith_push (remaining remaining' : list Place) (p : Place) :
  (forall c, In c (p :: remaining') -> In c remaining) ->
  forall ordered,
    chainWith remaining ordered ->
    (forall la c lc,
       lastLocation ordered = Some la ->
       In c (p :: remaining') -> location c = Some lc ->
       exists lb,
         location p = Some lb /\ haversineKm la lb <= haversineKm la lc) ->
    chainWith remaining' (ordered ++ [p]).
Proof.
  intros Hsub. induction ordered as [| a rest IH]; intros Hchain Hnear.
  - cbn. auto.
  - destruct rest as [| b rest'].
    + cbn [app chainWith]. split; [| auto].
      intros la c lc Hla Hc Hlc. apply (Hnear la c lc); [exact Hla | | exact Hlc].
      exact Hc.
    + destruct Hchain as [Hhead Htail].
      change ((a :: b :: rest') ++ [p])%list
        with (a :: b :: (rest' ++ [p]))%list.
      cbn [chainWith]. split.
      * intros la c lc Hla Hc Hlc. apply (Hhead la c lc Hla); [| exact Hlc].
        change (In c ((b :: rest' ++ [p]) ++ remaining')) in Hc.
        rewrite app_comm_cons, <- app_assoc in Hc.
        apply in_app_or in Hc. apply in_or_app.
        destruct Hc as [Hc | Hc]; [left; exact Hc | right; apply Hsub; exact Hc].
      * apply (IH Htail). exact Hnear.
Qed.

Lemma nnLoop_chain (fuel : nat) :
  forall ordered remaining,
    chainWith remaining ordered ->
    chainWith [] (nnLoop fuel ordered remaining).
Proof.
  assert (Hweak : forall ordered remaining,
            chainWith remaining ordered -> chainWith [] ordered).
  { intros ordered remaining. apply chainWith_fewer. intros x []. }
  induction fuel as [| fuel IH]; intros ordered remaining Hchain;
    [exact (Hweak _ _ Hchain) |].
  cbn [nnLoop]. destruct remaining as [| first rest]; [exact Hchain |].
  destruct (lastLocation ordered) as [lastLoc |] eqn:Hlast.
  - destruct (nth_error (first :: rest)
                (nearestIdx lastLoc (first :: rest) 0 0 None)) as [p |] eqn:Hp;
      [| exact (Hweak _ _ Hchain)].
    apply IH.
    pose proof (removeNth_perm _ _ _ Hp) as Hperm.
    apply chainWith_push with (remaining := (first :: rest)).
    + intros c Hc. apply (Permutation_in _ (Permutation_sym Hperm)). exact Hc.
    + exact Hchain.
    + intros la c lc Hla Hc Hlc. rewrite Hlast in Hla. injection Hla as <-.
      apply (Permutation_in _ (Permutation_sym Hperm)) in Hc.
      destruct (nearestIdx_spec lastLoc (first :: rest) 0 0 None)
        as [[_ Hall] | (p' & loc' & _ & Hnth & Hloc' & Hmin & _)].
      * destruct (Hall c lc Hc Hlc).
      * rewrite Nat.sub_0_r, Hp in Hnth. injection Hnth as <-.
        exists loc'. split; [exact Hloc' | exact (Hmin c lc Hc Hlc)].
  - apply IH. apply chainWith_push with (remaining := (first :: rest)).
    + intros c Hc. exact Hc.
    + exact Hchain.
    + intros la c lc Hla. rewrite Hla in Hlast. discriminate Hlast.
Qed.

Lemma chainWith_nearestNext (ordered : list Place) :
  chainWith [] ordered -> nearestNext ordered.
Proof.
  intros Hchain pre. revert ordered Hchain.
  induction pre as [| x pre IH]; intros ordered Hchain a b post la c lc E
    Hla Hc Hlc; subst ordered.
  - destruct Hchain as [Hhead _].
    apply (Hhead la c lc Hla); [| exact Hlc].
    rewrite app_nil_r. right. exact Hc.
  - destruct Hchain as [_ Htail].
    apply (IH _ Htail a b post la c lc eq_refl Hla Hc Hlc).
Qed.

Lemma nnLoop_prefix (fuel : nat) :
  forall ordered remaining,
    exists tail, nnLoop fuel ordered remaining = (ordered ++ tail)%list.
Proof.
  induction fuel as [| fuel IH]; intros ordered remaining; cbn [nnLoop].
  - exists []. rewrite app_nil_r. reflexivity.
  - destruct remaining as [| first rest].
    { exists []. rewrite app_nil_r. reflexivity. }
    destruct (lastLocation ordered) as [lastLoc |].
    + destruct (nth_error _ _) as [p |].
      * destruct (IH (ordered ++ [p])%list
                    (removeNth (nearestIdx lastLoc (first :: rest) 0 0 None)
                       (first :: rest))) as [tail ->].
        exists (p :: tail). rewrite <- app_assoc. reflexivity.
      * exists []. rewrite app_nil_r. reflexivity.
    + destruct (IH (ordered ++ [first])%list rest) as [tail ->].
      exists (first :: tail). rewrite <- app_assoc. reflexivity.
Qed.

(** X16. The route sequencer is greedy.  For three places or more the
    route starts at a place of the highest score, and every place with a
    location is followed by the nearest of the places not yet visited:
    the next place has a location whenever a later one has, and no later
    place lies nearer. *)
Theorem orderByNearestNeighbor_greedy (places : list Place) (riderMode : bool) :
  (3 <= List.length places)%nat ->
  (exists first rest,
     orderByNearestNeighbor places riderMode = first :: rest /\
     In first places /\
     forall p, In p places -> scoresDescend riderMode first p) /\
  nearestNext (orderByNearestNeighbor places riderMode).
Proof.
  intros Hlen. unfold orderByNearestNeighbor.
  destruct (List.length places <=? 2)%nat eqn:E;
    [apply Nat.leb_le in E; lia |].
  pose proof (sortBy_perm (byScoreDesc riderMode) places) as Hperm.
  pose proof (sortBy_score_StronglySorted riderMode places) as Hsorted.
  destruct (sortBy (byScoreDesc riderMode) places) as [| first rest].
  { apply Permutation_length in Hperm. simpl in Hperm. lia. }
  split.
  - destruct (nnLoop_prefix (List.length rest) [first] rest) as [tail ->].
    exists first, tail. split; [reflexivity |].
    split; [apply (Permutation_in _ (Permutation_sym Hperm)); left; reflexivity |].
    intros p Hp. apply (Permutation_in _ Hperm) in Hp.
    apply StronglySorted_inv in Hsorted. destruct Hsorted as [_ Hall].
    destruct Hp as [<- | Hp]; [unfold scoresDescend; lra |].
    rewrite Forall_forall in Hall. exact (Hall p Hp).
  - apply chainWith_nearestNext, nnLoop_chain. cbn. auto.
Qed.

End Greedy.

Lemma orderByNearestNeighbor_greedy_witness :
  (exists first rest,
     orderByNearestNeighbor
       [Sample.placeAt "A"; Sample.placeB; Sample.placeC] false
     = first :: rest /\
     In first [Sample.placeAt "A"; Sample.placeB; Sample.placeC] /\
     forall p,
       In p [Sample.placeAt "A"; Sample.placeB; Sample.placeC] ->
       scoresDescend false first p) /\
  nearestNext
    (orderByNearestNeighbor
       [Sample.placeAt "A"; Sample.placeB; Sample.placeC] false).
Proof.
  apply (orderByNearestNeighbor_greedy
           [Sample.placeAt "A"; Sample.placeB; Sample.placeC] false).
  simpl. lia.
Defined.

(** ** Requests that are turned away *)

Section Validation.

Variable P : Provider.

Lemma POST_swap (key : option string) (body : Req.Body) :
  actionOf body = "swap" ->
  POST P key body
  = match swapBranch P key body with
    | Next r => r
    | Return_ r => r
    | Raise msg => ErrorJson msg 500
    end.
Proof. unfold POST, actionOf. intros ->. reflexivity. Qed.

Lemma POST_fresh (key : option string) (body : Req.Body) :
  (actionOf body =? "swap") = false ->
  POST P key body
  = match freshBranch P key body with
    | Next r => r
    | Return_ r => r
    | Raise msg => ErrorJson msg 500
    end.
Proof. unfold POST, actionOf. intros ->. reflexivity. Qed.

(** X17. The checks that turn a request away before any call to the
    provider, in their order.  Whatever the action: without a destination
    (none, or white space only) the answer is status 400, and with a
    destination but without the API key it is status 500.  Past these, a
    swap request with fewer than two stops that carry a place id is
    answered status 400, and so is one whose index, which is [swapIndex]
    clamped to [0, 10], is not below the number of such stops; with at
    most ten such stops that is every finite [swapIndex] at or above
    their number.  The clamp lets the other indexes through: a missing
    [swapIndex], or one at or below 0, counts as index 0; one at or above
    10 counts as 10; and with more than ten stops the index is below
    their number whatever [swapIndex] is. *)
Theorem request_validation (key : option string) (body : Req.Body) :
  (destinationOf body = "" ->
   POST P key body = ErrorJson "Destination is required" 400) /\
  (destinationOf body <> "" -> truthy key = false ->
   POST P key body = ErrorJson missingKey 500) /\
  (actionOf body = "swap" -> destinationOf body <> "" -> truthy key = true ->
   (List.length (swapStopsInput body) < 2)%nat ->
   POST P key body = ErrorJson "Not enough stops to swap" 400) /\
  (actionOf body = "swap" -> destinationOf body <> "" -> truthy key = true ->
   (2 <= List.length (swapStopsInput body))%nat ->
   inject_Z (Z.of_nat (List.length (swapStopsInput body)))
   <= clamp (nullish (Req.swapIndex body) (Fin (-1))) 0 10 ->
   POST P key body = ErrorJson "Invalid swap index" 400) /\
  (actionOf body = "swap" -> destinationOf body <> "" -> truthy key = true ->
   (2 <= List.length (swapStopsInput body) <= 10)%nat ->
   forall q,
     Req.swapIndex body = Some (Fin q) ->
     inject_Z (Z.of_nat (List.length (swapStopsInput body))) <= q ->
     POST P key body = ErrorJson "Invalid swap index" 400) /\
  (Req.swapIndex body = None -> swapIndexOf body == 0) /\
  (forall q,
     Req.swapIndex body = Some (Fin q) ->
     (q <= 0 -> swapIndexOf body == 0) /\
     (10 <= q -> swapIndexOf body == 10)) /\
  ((10 < List.length (swapStopsInput body))%nat ->
   swapIndexOf body < inject_Z (Z.of_nat (List.length (swapStopsInput body)))).
Proof.
  assert (Hinvalid :
            actionOf body = "swap" -> destinationOf body <> "" ->
            truthy key = true ->
            (2 <= List.length (swapStopsInput body))%nat ->
            inject_Z (Z.of_nat (List.length (swapStopsInput body)))
            <= clamp (nullish (Req.swapIndex body) (Fin (-1))) 0 10 ->
            POST P key body = ErrorJson "Invalid swap index" 400).
  { unfold destinationOf, swapStopsInput.
    intros Ha Hd Hk Hlen Hidx. apply String.eqb_neq in Hd.
    apply Nat.ltb_ge in Hlen. apply Qle_bool_iff in Hidx.
    rewrite (POST_swap _ _ Ha). unfold swapBranch. cbv zeta.
    rewrite Hd, Hk, Hlen, Hidx, orb_true_r. reflexivity. }
  split; [| split; [| split; [| split; [| split; [| split; [| split]]]]]].
  - unfold destinationOf. intros Hd. unfold POST, swapBranch, freshBranch.
    cbv zeta. rewrite Hd. destruct (_ =? "swap"); reflexivity.
  - unfold destinationOf. intros Hd Hk. apply String.eqb_neq in Hd.
    unfold POST, swapBranch, freshBranch. cbv zeta.
    rewrite Hd, Hk. destruct (_ =? "swap"); reflexivity.
  - unfold destinationOf, swapStopsInput.
    intros Ha Hd Hk Hlen. apply String.eqb_neq in Hd. apply Nat.ltb_lt in Hlen.
    rewrite (POST_swap _ _ Ha). unfold swapBranch. cbv zeta.
    rewrite Hd, Hk, Hlen. reflexivity.
  - exact Hinvalid.
  - intros Ha Hd Hk [Hlen Hten] q Hq Hidx.
    apply (Hinvalid Ha Hd Hk Hlen). rewrite Hq. cbn [nullish clamp].
    apply Qle_trans with (y := Qmin 10 q); [| apply Q.le_max_r].
    apply Q.min_glb; [| exact Hidx].
    change 10 with (inject_Z 10). rewrite <- Zle_Qle. lia.
  - unfold swapIndexOf. intros ->. reflexivity.
  - intros q Hq. unfold swapIndexOf. rewrite Hq. cbn [nullish clamp].
    split; intros Hle.
    + destruct (Q.max_spec 0 (Qmin 10 q)) as [[H0 E] | [H0 E]]; rewrite E;
        destruct (Q.min_spec 10 q) as [[H1 E'] | [H1 E']];
        rewrite E' in H0; try rewrite E'; lra.
    + destruct (Q.max_spec 0 (Qmin 10 q)) as [[H0 E] | [H0 E]]; rewrite E;
        destruct (Q.min_spec 10 q) as [[H1 E'] | [H1 E']];
        rewrite E' in H0; try rewrite E'; lra.
  - intros Hlen. apply Qle_lt_trans with (y := 10).
    + apply clamp_range. discriminate.
    + change 10 with (inject_Z 10). rewrite <- Zlt_Qlt. lia.
Qed.

(** X18. When the provider's text search is down, every search throwing
    [msg]: a fresh request that passed the checks is answered status 500
    with [msg], whereas a swap request that passed the checks is answered
    status 404, no open replacement found nearby; the swap swallows the
    failure of its search. *)
Theorem failed_search_answers (key : option string) (body : Req.Body)
    (msg : string) :
  (forall q n, placesSearchText P q n = Throw msg) ->
  ((actionOf body =? "swap") = false -> freshAccepted key body = true ->
   POST P key body = ErrorJson msg 500) /\
  (actionOf body = "swap" ->
   forall center, swapAccepted key body = Some center ->
   POST P key body = ErrorJson "No OPEN replacement found nearby" 404).
Proof.
  intros Hdown. split.
  - intros Ha Hacc. rewrite (POST_fresh _ _ Ha).
    rewrite (freshBranch_accepted P _ _ Hacc).
    unfold freshStopsOf, freshStops, searchPlacesText. rewrite Hdown.
    reflexivity.
  - intros Ha [centerLat centerLng] Hacc. rewrite (POST_swap _ _ Ha).
    rewrite (swapBranch_accepted P _ _ _ _ Hacc).
    unfold swapPoolOf, swapPool, searchPlacesText. rewrite Hdown.
    reflexivity.
Qed.

End Validation.

Lemma request_validation_witness :
  POST Sample.freshProvider None Refused.blankBody
  = ErrorJson "Destination is required" 400 /\
  POST Sample.freshProvider None Sample.freshBody = ErrorJson missingKey 500 /\
  POST Sample.freshProvider Sample.key Refused.strayBody
  = ErrorJson "Invalid swap index" 400 /\
  swapIndexOf Sample.freshBody == 0.
Proof.
  pose proof (request_validation Sample.freshProvider None Refused.blankBody)
    as (Hdest & _).
  pose proof (request_validation Sample.freshProvider None Sample.freshBody)
    as (_ & Hkey & _ & _ & _ & Hidx & _).
  pose proof (request_validation Sample.freshProvider Sample.key
                Refused.strayBody) as (_ & _ & _ & _ & Hstray & _).
  split; [| split; [| split]].
  - apply Hdest. reflexivity.
  - apply Hkey; [vm_compute; discriminate | reflexivity].
  - apply (Hstray eq_refl) with (q := 5).
    + vm_compute. discriminate.
    + reflexivity.
    + vm_compute. lia.
    + reflexivity.
    + vm_compute. discriminate.
  - apply Hidx. reflexivity.
Defined.

Lemma failed_search_answers_witness :
  POST (Faulty.provider "quota exceeded") Sample.key Sample.freshBody
  = ErrorJson "quota exceeded" 500 /\
  POST (Faulty.provider "quota exceeded") Sample.key Sample.swapBody
  = ErrorJson "No OPEN replacement found nearby" 404.
Proof.
  pose proof (failed_search_answers (Faulty.provider "quota exceeded"))
    as H.
  split.
  - apply (proj1 (H Sample.key Sample.freshBody "quota exceeded"
                    (fun _ _ => eq_refl))); reflexivity.
  - apply (proj2 (H Sample.key Sample.swapBody "quota exceeded"
                    (fun _ _ => eq_refl)) eq_refl (49.28, -123.12)).
    reflexivity.
Defined.

(** ** The page: the cost estimate *)

Section CostEstimate.

Import Client.

Local Open Scope Z_scope.

Lemma prefix_split (p hay : string) :
  prefix p hay = true -> exists r, hay = (p ++ r)%string.
Proof.
  revert hay. induction p as [| c p IH]; intros hay H.
  - exists hay. reflexivity.
  - destruct hay as [| c' hay']; cbn [prefix] in H; [discriminate H |].
    destruct (ascii_dec c c') as [<- | _]; [| discriminate H].
    destruct (IH hay' H) as [r ->]. exists r. reflexivity.
Qed.

Lemma prefix_app (p r : string) : prefix p (p ++ r) = true.
Proof.
  induction p as [| c p IH]; simpl; [destruct r; reflexivity |].
  destruct (ascii_dec c c) as [_ | Hne]; [exact IH | contradiction Hne; reflexivity].
Qed.

Lemma includesSub_here (needle r : string) :
  includesSub needle (needle ++ r) = true.
Proof.
  pose proof (prefix_app needle r) as H.
  destruct (needle ++ r)%string; cbn [includesSub]; rewrite H; reflexivity.
Qed.

Lemma includesSub_after (a b r : string) :
  includesSub b ((a ++ b) ++ r) = true.
Proof.
  induction a as [| c a IH]; [apply includesSub_here |].
  cbn [append includesSub]. rewrite IH.
  destruct (prefix b (String c ((a ++ b) ++ r))); reflexivity.
Qed.

(** A text that includes [a ++ b] includes [b]. *)
Lemma includesSub_tail (a b hay : string) :
  includesSub (a ++ b) hay = true -> includesSub b hay = true.
Proof.
  induction hay as [| c hay IH]; cbn [includesSub].
  - destruct (prefix (a ++ b) "") eqn:E; [| discriminate].
    intros _. apply prefix_split in E. destruct E as [r E].
    change (includesSub b "" = true).
    rewrite E. apply includesSub_after.
  - destruct (prefix (a ++ b) (String c hay)) eqn:E.
    + intros _. apply prefix_split in E. destruct E as [r E].
      change (includesSub b (String c hay) = true).
      rewrite E. apply includesSub_after.
    + intros H. rewrite (IH H).
      destruct (prefix b (String c hay)); reflexivity.
Qed.

(** Every branch that can be taken adds at most 60 to [min] and 120 to
    [max]: a price level that includes VERY_EXPENSIVE includes EXPENSIVE,
    and takes that branch. *)
Lemma costBand_bounds (pl : string) :
  0 <= fst (costBand pl) <= snd (costBand pl) /\
  fst (costBand pl) <= 60 /\ snd (costBand pl) <= 120.
Proof.
  unfold costBand.
  destruct (includesSub "FREE" pl); [simpl; lia |].
  destruct (includesSub "INEXPENSIVE" pl); [simpl; lia |].
  destruct (includesSub "MODERATE" pl); [simpl; lia |].
  destruct (includesSub "EXPENSIVE" pl) eqn:E; [simpl; lia |].
  destruct (includesSub "VERY_EXPENSIVE" pl) eqn:V; [| simpl; lia].
  apply (includesSub_tail "VERY_" "EXPENSIVE") in V.
  rewrite V in E. discriminate E.
Qed.

Lemma cost_fold (stopItems : list PlanItem) :
  forall lo0 hi0 lo hi,
    fold_left
      (fun (acc : Z * Z) it =>
         let '(min, max) := acc in
         let '(lo, hi) := costBand (priceLevelOf it) in
         (min + lo, max + hi))
      stopItems (lo0, hi0) = (lo, hi) ->
    lo0 <= lo <= lo0 + 60 * Z.of_nat (List.length stopItems) /\
    hi0 <= hi <= hi0 + 120 * Z.of_nat (List.length stopItems) /\
    lo - lo0 <= hi - hi0.
Proof.
  induction stopItems as [| it rest IH]; intros lo0 hi0 lo hi H.
  - simpl in H. injection H as <- <-. simpl. lia.
  - cbn [fold_left] in H.
    pose proof (costBand_bounds (priceLevelOf it)) as Hb.
    destruct (costBand (priceLevelOf it)) as [a b]. cbn [fst snd] in Hb.
    apply IH in H. cbn [List.length]. lia.
Qed.

Lemma filter_isStop_length (items : list PlanItem) :
  List.length (filter isStop items) = List.length (planStops items).
Proof.
  induction items as [| [d s | t d m] rest IH]; simpl;
    [reflexivity | f_equal; exact IH | exact IH].
Qed.

(** X19. The cost estimate of the page.  [estimateCostRange] answers
    nothing exactly for a plan without stop items; otherwise, with [n]
    stop items, [5 <= min <= max], [min <= 5 + 60 n] and
    [20 <= max <= 20 + 120 n].  No stop ever counts more than 60 to 120:
    the branch of VERY_EXPENSIVE, 120 to 250, stands after that of
    EXPENSIVE, whose test every very expensive price level passes. *)
Theorem estimateCostRange_bounds (items : list PlanItem) :
  (estimateCostRange items = None <-> planStops items = []) /\
  forall min max,
    estimateCostRange items = Some (min, max) ->
    5 <= min <= max /\
    min <= 5 + 60 * Z.of_nat (List.length (planStops items)) /\
    20 <= max <= 20 + 120 * Z.of_nat (List.length (planStops items)).
Proof.
  pose proof (filter_isStop_length items) as Hlen.
  unfold estimateCostRange.
  destruct (filter isStop items) as [| it rest] eqn:E.
  - split.
    + split; [intros _ | reflexivity].
      apply length_zero_iff_nil. rewrite <- Hlen. reflexivity.
    + intros min max H. discriminate H.
  - split.
    + split; [| intros H; rewrite H in Hlen; discriminate Hlen].
      destruct (fold_left _ (it :: rest) (0, 0)) as [lo hi]. discriminate.
    + intros min max H.
      destruct (fold_left _ (it :: rest) (0, 0)) as [lo hi] eqn:F.
      injection H as <- <-. apply cost_fold in F. rewrite Hlen in F. lia.
Qed.

End CostEstimate.

Lemma estimateCostRange_bounds_witness :
  let items :=
    [StopItem 40 (Client.pricedStop "PRICE_LEVEL_VERY_EXPENSIVE")] in
  (5 <= 65 <= 140 /\
   65 <= 5 + 60 * Z.of_nat (List.length (planStops items)) /\
   20 <= 140 <= 20 + 120 * Z.of_nat (List.length (planStops items)))%Z.
Proof.
  intros items.
  apply (proj2 (estimateCostRange_bounds items) 65%Z 140%Z).
  vm_compute. reflexivity.
Defined.

(** ** The page and the handler: a swap in a park-once plan *)

Section SwapRoundTrip.

Import Client.

Variable P : Provider.

(** The stop entries of a plan answered to a swap request: [nextStops],
    each stop with its clamped duration, after the parking pseudo-stop. *)
Lemma swap_plan_entries (key : option string) (body : Req.Body)
    (plan : PlanResponse) :
  actionOf body = "swap" ->
  POST P key body = Json plan ->
  exists pre rid,
    stopEntries (items plan)
    = (pre ++ map (fun s => (siPlaceId s, clamp (Fin (siDurationMin s)) 20 180))
                (swapNextStops body rid))%list /\
    (pre = [] \/ (Req.parkOnce body = true /\ exists pid, pre = [(pid, 5)])).
Proof.
  intros Ha Hpost.
  destruct (swap_plan_inv P key body plan Ha Hpost)
    as (centerLat & centerLng & replacement & _ & _ & Hre).
  unfold swapRebuildOf in Hre. apply swapRebuild_Next in Hre.
  destruct Hre as (stops & travelMins & Hstops & _ & Hplan).
  injection Hplan as ->. cbn [items].
  set (nextStops := swapNextStops body (nullish (id replacement) "")) in *.
  match goal with
  | |- context [assembleItems ?d _ _ _ _] => set (durationAt := d)
  end.
  destruct (stopEntries_assembleItems durationAt (Req.parkOnce body)
              (lookupParkOnce P (Req.parkOnce body) (destinationOf body) stops)
              stops travelMins) as (pre & Hent & Hpre).
  exists pre, (nullish (id replacement) "").
  split; [| exact Hpre]. rewrite Hent. f_equal.
  pose proof (enrichAll_placeIds P _ _ _ Hstops) as Hids.
  apply nth_error_ext. intros i.
  rewrite nth_error_entriesFrom, nth_error_map.
  apply (f_equal (fun l => nth_error l i)) in Hids.
  rewrite !nth_error_map in Hids. fold nextStops.
  destruct (nth_error stops i) as [st |], (nth_error nextStops i) as [ns |] eqn:Hns;
    try discriminate Hids; [| reflexivity].
  cbn [option_map] in *. injection Hids as Hid. rewrite Hid.
  unfold durationAt. cbn [Nat.add]. rewrite nth_error_map.
  fold nextStops. rewrite Hns. reflexivity.
Qed.

(** X20. The page counts the parking pseudo-stop among the stops it sends
    back.  For a plan that opens with the parking pseudo-stop, the swap
    request the page builds for a later stop has the pseudo-stop as its
    first stop; and when the handler answers that request with a plan,
    the parking place stands in it as a stop of its own, given 20 minutes
    (the pseudo-stop's 5, clamped), after any new pseudo-stop. *)
Theorem swap_request_counts_parking (key : option string)
    (plan plan' : PlanResponse) (style : string)
    (parkOnce riderMode addBuffer : bool) (stopIdx : nat) (body : Req.Body)
    (pk : ParkingOption) (pLat pLng : Q) (rest : list PlanItem) :
  items plan = parkOnceItem pk pLat pLng :: rest ->
  trim (pseudoStopId pk) <> "" ->
  swapRequest plan style parkOnce riderMode addBuffer (S stopIdx) = Some body ->
  POST P key body = Json plan' ->
  (exists others,
     Req.stops body
     = {| Raw.placeId := Some (pseudoStopId pk);
          Raw.title := Some "Park once";
          Raw.durationMin := Some (Fin 5);
          Raw.lat := Fin pLat;
          Raw.lng := Fin pLng |} :: others) /\
  exists pre rest',
    stopEntries (items plan') = (pre ++ rest')%list /\
    (pre = [] \/ (parkOnce = true /\ exists pid, pre = [(pid, 5)])) /\
    nth_error rest' 0 = Some (trim (pseudoStopId pk), 20).
Proof.
  intros Hitems Hid Hreq Hpost.
  unfold swapRequest in Hreq. rewrite Hitems in Hreq.
  assert (Hstops : stopsOnly (parkOnceItem pk pLat pLng :: rest)
                   = {| Raw.placeId := Some (pseudoStopId pk);
                        Raw.title := Some "Park once";
                        Raw.durationMin := Some (Fin 5);
                        Raw.lat := Fin pLat;
                        Raw.lng := Fin pLng |} :: stopsOnly rest).
  { unfold stopsOnly, parkOnceItem, pseudoStopId.
    cbn [filter isStop map rawStopOf placeId title lat lng].
    unfold sendable at 1. cbn [Raw.placeId Raw.lat Raw.lng isFinite andb].
    replace (truthy (Some (if truthy (pkPlaceId pk)
                           then nullish (pkPlaceId pk) "" else "parking")))
      with true; [reflexivity |].
    destruct (pkPlaceId pk) as [pid |]; [| reflexivity].
    cbn [truthy nullish].
    destruct (pid =? "") eqn:E; cbn [negb]; [| rewrite E]; reflexivity. }
  rewrite Hstops in Hreq. cbn [nth_error] in Hreq.
  destruct (nth_error (stopsOnly rest) stopIdx) as [target |];
    [| discriminate Hreq].
  injection Hreq as <-. cbn [Req.stops].
  split; [eexists; reflexivity |].
  match type of Hpost with
  | POST P key ?b = _ =>
      destruct (swap_plan_entries key b plan' eq_refl Hpost)
        as (pre & rid & Hent & Hpre)
  end.
  cbn [Req.parkOnce] in Hpre.
  eexists pre, _. split; [exact Hent |]. split; [exact Hpre |].
  rewrite nth_error_map. unfold swapNextStops.
  rewrite nextStopsOf_other.
  - unfold swapStopsInput, stopsInputOf. cbn [Req.stops map].
    unfold stopInputOf at 1.
    cbn [Raw.placeId Raw.title Raw.durationMin Raw.lat Raw.lng nullish
         filter siPlaceId].
    apply String.eqb_neq in Hid. rewrite Hid. cbn [negb nth_error option_map
      siPlaceId siDurationMin].
    reflexivity.
  - unfold swapIndexOf. cbn [Req.swapIndex nullish clamp].
    intros Heq.
    assert (Hone : 1 <= Qmax 0 (Qmin 10 (inject_Z (Z.of_nat (S stopIdx))))).
    { apply Q.max_le_iff. right. apply Q.min_glb; [discriminate |].
      change 1 with (inject_Z 1). rewrite <- Zle_Qle. lia. }
    rewrite Heq in Hone. apply Hone. reflexivity.
Qed.

End SwapRoundTrip.

Section ParkedSample.

Lemma parked_pool :
  swapPoolOf (Sample.provider [Sample.placeC] []) Parked.body 49.28 (-123.12)
  = [Sample.placeC].
Proof.
  change (swapFiltered [Sample.placeC]
            (excludeIdsOf (swapStopsInput Parked.body) "B") attraction
            Sample.center 2.0%R false = [Sample.placeC]).
  apply swapFiltered_single; try reflexivity. lra.
Qed.

Lemma parked_swap_answer :
  POST (Sample.provider [Sample.placeC] []) Sample.key Parked.body
  = Json Parked.answer.
Proof.
  unfold POST.
  replace (trim (nullish (Req.action Parked.body) "") =? "swap") with true
    by reflexivity.
  rewrite (swapBranch_accepted _ Sample.key Parked.body 49.28 (-123.12)
             eq_refl).
  rewrite parked_pool. vm_compute. reflexivity.
Qed.

End ParkedSample.

Lemma swap_request_counts_parking_witness :
  (exists others,
     Req.stops Parked.body
     = {| Raw.placeId := Some (pseudoStopId Parked.lot);
          Raw.title := Some "Park once";
          Raw.durationMin := Some (Fin 5);
          Raw.lat := Fin 49.28;
          Raw.lng := Fin (-123.12) |} :: others) /\
  exists pre rest',
    stopEntries (items Parked.answer) = (pre ++ rest')%list /\
    (pre = [] \/ (true = true /\ exists pid, pre = [(pid, 5)])) /\
    nth_error rest' 0 = Some (trim (pseudoStopId Parked.lot), 20).
Proof.
  apply (swap_request_counts_parking (Sample.provider [Sample.placeC] [])
           Sample.key Parked.plan Parked.answer "culture" true false true 1
           Parked.body Parked.lot 49.28 (-123.12)
           (tl (items Parked.plan))).
  - reflexivity.
  - vm_compute. discriminate.
  - reflexivity.
  - apply parked_swap_answer.
Defined.

(** ** The fallback route *)

Section Fallback.

Lemma Qmax_floor_25 (x : Q) : 25 <= x -> Qmax 25 x == x.
Proof. intros H. apply Q.max_r. exact H. Qed.

(** X21. The fallback route fills the time exactly.  With a destination,
    it answers a plan of the clamped minutes (120 to 180) whose items, two
    stops up to 140 minutes and three above, with walks of 12 minutes
    between them, add up to exactly those minutes; every stop lasts at
    least 25 minutes, and the 25-minute floor of the loop never changes a
    share. *)
Theorem fallback_plan_fills_minutes (floorMul : Q -> Q -> Z)
    (inherited : string -> bool) (body : Legacy.Body) :
  closeFloor floorMul ->
  trim (nullish (Legacy.destination body) "") <> "" ->
  let minutes := clamp (nullish (Legacy.totalMinutes body) (Fin 150)) 120 180 in
  exists items,
    Legacy.POST floorMul inherited (Some body)
    = Legacy.Plan (trim (nullish (Legacy.destination body) "")) minutes
        (nullish (Legacy.vibe body) "culture") items /\
    sumQ (map Legacy.durationMin items) == minutes /\
    List.length (filter Legacy.isStop items)
    = (if Qle_bool minutes 140 then 2%nat else 3%nat) /\
    Forall (fun it =>
              if Legacy.isStop it then 25 <= Legacy.durationMin it
              else Legacy.durationMin it == 12) items.
Proof.
  intros Hfloor Hdest minutes. apply String.eqb_neq in Hdest.
  unfold Legacy.POST. cbv zeta. rewrite Hdest. fold minutes.
  assert (Hrange : 120 <= minutes <= 180)
    by (unfold minutes; apply clamp_range; discriminate).
  eexists. split; [reflexivity |].
  destruct (Qle_bool minutes 140) eqn:E.
  - apply Qle_bool_iff in E.
    unfold splitStopDurationsWith.
    cbn [seq flat_map Nat.sub Nat.ltb Nat.leb Nat.eqb app nth_error map filter
         Legacy.isStop Legacy.durationMin List.length].
    set (r := Qmax 60 (minutes - inject_Z (Z.of_nat 1) * 12)).
    assert (Hr : r == minutes - 12).
    { unfold r. rewrite Q.max_r; [| change (inject_Z (Z.of_nat 1)) with 1; lra].
      change (inject_Z (Z.of_nat 1)) with 1. ring. }
    destruct (Hfloor r 0.55) as [Hlo Hhi].
    set (a := inject_Z (floorMul r 0.55)) in *.
    pose proof (Qmax_floor_25 a ltac:(lra)) as Ha.
    pose proof (Qmax_floor_25 (r - a) ltac:(lra)) as Hb.
    split; [| split; [reflexivity |]].
    + unfold sumQ. cbn [fold_left]. lra.
    + repeat constructor; cbn [Legacy.isStop Legacy.durationMin];
        try apply Q.le_max_l; reflexivity.
  - assert (E' : 140 < minutes).
    { apply Qnot_le_lt. intros H. apply Qle_bool_iff in H.
      rewrite H in E. discriminate E. }
    unfold splitStopDurationsWith.
    cbn [seq flat_map Nat.sub Nat.ltb Nat.leb Nat.eqb app nth_error map filter
         Legacy.isStop Legacy.durationMin List.length].
    set (r := Qmax 60 (minutes - inject_Z (Z.of_nat 2) * 12)).
    assert (Hr : r == minutes - 24).
    { unfold r. rewrite Q.max_r; [| change (inject_Z (Z.of_nat 2)) with 2; lra].
      change (inject_Z (Z.of_nat 2)) with 2. ring. }
    destruct (Hfloor r 0.42) as [Hlo1 Hhi1].
    destruct (Hfloor r 0.35) as [Hlo2 Hhi2].
    set (a := inject_Z (floorMul r 0.42)) in *.
    set (b := inject_Z (floorMul r 0.35)) in *.
    pose proof (Qmax_floor_25 a ltac:(lra)) as Ha.
    pose proof (Qmax_floor_25 b ltac:(lra)) as Hb.
    pose proof (Qmax_floor_25 (r - a - b) ltac:(lra)) as Hc.
    split; [| split; [reflexivity |]].
    + unfold sumQ. cbn [fold_left]. lra.
    + repeat constructor; cbn [Legacy.isStop Legacy.durationMin];
        try apply Q.le_max_l; reflexivity.
Qed.

End Fallback.

Lemma fallback_plan_fills_minutes_witness :
  let body :=
    {| Legacy.destination := Some "Vancouver";
       Legacy.totalMinutes := Some (Fin 150);
       Legacy.vibe := Some "foodie" |} in
  exists items,
    Legacy.POST (fun x c => Qfloor (x * c)) (fun _ => false) (Some body)
    = Legacy.Plan "Vancouver" 150 "foodie" items /\
    sumQ (map Legacy.durationMin items) == 150 /\
    List.length (filter Legacy.isStop items) = 3%nat /\
    Forall (fun it =>
              if Legacy.isStop it then 25 <= Legacy.durationMin it
              else Legacy.durationMin it == 12) items.
Proof.
  intros body.
  apply (fallback_plan_fills_minutes (fun x c => Qfloor (x * c))
           (fun _ => false) body).
  - intros x c. destruct (Qfloor_bounds (x * c)) as [Hlo Hhi]. split; lra.
  - vm_compute. discriminate.
Defined.

(** ** Swap branch: the replacement is the best open candidate *)

Section BestOpen.

Variable P : Provider.




End BestOpen.


(** ** Fresh plan: where the stops come from *)

Section FreshOrigin.

Variable P : Provider.





End FreshOrigin.


(** ** Fresh plan: the category wishes are honoured *)

Section Wishes2.

Lemma NoDup_map_inj {A B : Type} (f : A -> B) (l : list A) (x y : A) :
  NoDup (map f l) -> In x l -> In y l -> f x = f y -> x = y.
Proof.
  induction l as [| a rest IH]; simpl; intros Hnd Hx Hy Hf; [destruct Hx |].
  inversion Hnd as [| ? ? Hnotin Hnd']; subst.
  destruct Hx as [<- | Hx], Hy as [<- | Hy].
  - reflexivity.
  - exfalso. apply Hnotin. rewrite Hf. apply in_map. exact Hy.
  - exfalso. apply Hnotin. rewrite <- Hf. apply in_map. exact Hx.
  - exact (IH Hnd' Hx Hy Hf).
Qed.

Lemma sameId_eq (x p : Place) : sameId x p = true -> id x = id p.
Proof.
  unfold sameId. destruct (id x) as [a |], (id p) as [b |]; intros H;
    try discriminate H; [| reflexivity].
  apply String.eqb_eq in H. rewrite H. reflexivity.
Qed.

Variables (filtered poolPrimary poolRelaxed : list Place).
Hypothesis Hprimary : incl poolPrimary filtered.
Hypothesis Hrelaxed : incl poolRelaxed filtered.
Hypothesis Hdistinct : NoDup (map id filtered).

Lemma pickFromPool_found (picked pool : list Place) (cat : Category)
    (next : Place) :
  pickFromPool picked pool cat = Some next ->
  In next pool /\ pickCategory (types next) = cat.
Proof.
  unfold pickFromPool, find_. intros H. apply find_some in H.
  destruct H as [Hin Hp]. apply andb_true_iff in Hp. destruct Hp as [Hc _].
  split; [exact Hin | apply Category_eqb_eq; exact Hc].
Qed.

Lemma wishStep_grows (picked : list Place) (cat : Category) (x : Place) :
  In x picked ->
  In x (wishStep poolPrimary poolRelaxed filtered picked cat).
Proof.
  intros Hx. unfold wishStep.
  destruct (pickFromPool picked poolPrimary cat);
    [apply in_or_app; left; exact Hx |].
  destruct (pickFromPool picked poolRelaxed cat);
    [apply in_or_app; left; exact Hx |].
  destruct (pickFromPool picked filtered cat);
    [apply in_or_app; left; exact Hx | exact Hx].
Qed.

Lemma wishStep_incl (picked : list Place) (cat : Category) :
  incl picked filtered ->
  incl (wishStep poolPrimary poolRelaxed filtered picked cat) filtered.
Proof.
  intros Hp. unfold wishStep.
  destruct (pickFromPool picked poolPrimary cat) as [next |] eqn:E1.
  { apply incl_snoc; [exact Hp |].
    apply Hprimary. apply (pickFromPool_found _ _ _ _ E1). }
  destruct (pickFromPool picked poolRelaxed cat) as [next |] eqn:E2.
  { apply incl_snoc; [exact Hp |].
    apply Hrelaxed. apply (pickFromPool_found _ _ _ _ E2). }
  destruct (pickFromPool picked filtered cat) as [next |] eqn:E3; [| exact Hp].
  apply incl_snoc; [exact Hp | apply (pickFromPool_found _ _ _ _ E3)].
Qed.

(** After the round for [cat], a place of that category is picked as
    soon as [filtered] holds one. *)
Lemma wishStep_honours (picked : list Place) (cat : Category) (p : Place) :
  incl picked filtered ->
  In p filtered -> pickCategory (types p) = cat ->
  exists q,
    In q (wishStep poolPrimary poolRelaxed filtered picked cat) /\
    pickCategory (types q) = cat.
Proof.
  intros Hp Hin Hcat. unfold wishStep.
  destruct (pickFromPool picked poolPrimary cat) as [next |] eqn:E1.
  { exists next. split; [apply in_or_app; right; left; reflexivity |].
    apply (pickFromPool_found _ _ _ _ E1). }
  destruct (pickFromPool picked poolRelaxed cat) as [next |] eqn:E2.
  { exists next. split; [apply in_or_app; right; left; reflexivity |].
    apply (pickFromPool_found _ _ _ _ E2). }
  destruct (pickFromPool picked filtered cat) as [next |] eqn:E3.
  { exists next. split; [apply in_or_app; right; left; reflexivity |].
    apply (pickFromPool_found _ _ _ _ E3). }
  exists p. split; [| exact Hcat].
  unfold pickFromPool, find_ in E3.
  pose proof (find_none _ _ E3 p Hin) as Hnone. cbv beta in Hnone.
  rewrite Hcat in Hnone.
  replace (Category_eqb cat cat) with true in Hnone by (destruct cat; reflexivity).
  cbn [andb] in Hnone. apply negb_false_iff in Hnone.
  unfold isPicked in Hnone. apply existsb_exists in Hnone.
  destruct Hnone as (x & Hx & Hsame).
  rewrite <- (NoDup_map_inj id filtered x p Hdistinct (Hp x Hx) Hin
                (sameId_eq _ _ Hsame)).
  exact Hx.
Qed.

Lemma wishes_fold (cats : list Category) :
  forall picked,
    incl picked filtered ->
    (forall x, In x picked ->
               In x (fold_left (wishStep poolPrimary poolRelaxed filtered)
                       cats picked)) /\
    incl (fold_left (wishStep poolPrimary poolRelaxed filtered) cats picked)
      filtered /\
    forall cat p,
      In cat cats -> In p filtered -> pickCategory (types p) = cat ->
      exists q,
        In q (fold_left (wishStep poolPrimary poolRelaxed filtered) cats picked)
        /\ pickCategory (types q) = cat.
Proof.
  induction cats as [| c rest IH]; intros picked Hp; cbn [fold_left].
  - split; [auto |]. split; [exact Hp |]. intros cat p [].
  - destruct (IH _ (wishStep_incl picked c Hp)) as (Hgrow & Hincl & Hwish).
    split; [| split; [exact Hincl |]].
    + intros x Hx. apply Hgrow. apply wishStep_grows. exact Hx.
    + intros cat p [<- | Hcat] Hin Hpc.
      * destruct (wishStep_honours picked c p Hp Hin Hpc) as (q & Hq & Hqc).
        exists q. split; [apply Hgrow; exact Hq | exact Hqc].
      * exact (Hwish cat p Hcat Hin Hpc).
Qed.

End Wishes2.

Section Wishes3.

Lemma fillFrom_grows (stopCount : nat) (pool : list Place) :
  forall fuel picked x,
    In x picked -> In x (fillFrom fuel stopCount pool picked).
Proof.
  induction fuel as [| fuel IH]; intros picked x Hx; simpl; [exact Hx |].
  destruct (List.length picked <? stopCount)%nat; [| exact Hx].
  destruct (find_ _ pool); [| exact Hx].
  apply IH. apply in_or_app. left. exact Hx.
Qed.

(** X24. The category wishes are honoured.  When no two places of
    [filtered] share an id, every category on the wish list of which
    [filtered] holds a place has a place among the picked ones. *)
Theorem pickStops_honours_wishes (filtered : list Place)
    (want : list Category) (parkOnce : bool) (stopCount : nat)
    (cat : Category) (p : Place) :
  NoDup (map id filtered) ->
  In cat want ->
  In p filtered -> pickCategory (types p) = cat ->
  exists q,
    In q (pickStops filtered want parkOnce stopCount) /\
    In q filtered /\
    pickCategory (types q) = cat.
Proof.
  intros Hnd Hwant Hin Hcat.
  assert (Hgoal : exists q,
            In q (pickStops filtered want parkOnce stopCount) /\
            pickCategory (types q) = cat).
  { unfold pickStops.
    set (anchor := match find_ _ filtered with
                   | Some a => Some a
                   | None => hd_error filtered
                   end).
    set (anchorLoc := match anchor with Some a => location a | None => None end).
    set (poolPrimary := walkPool parkOnce anchorLoc 1.5%R filtered).
    set (poolRelaxed := walkPool parkOnce anchorLoc 3%R filtered).
    set (picked0 := match anchor with Some a => [a] | None => [] end).
    change (exists q,
              In q (fillFrom stopCount stopCount filtered
                      (fillFrom stopCount stopCount poolRelaxed
                         (fillFrom stopCount stopCount poolPrimary
                            (fold_left
                               (wishStep poolPrimary poolRelaxed filtered)
                               (tl want) picked0)))) /\
              pickCategory (types q) = cat).
    assert (Hp0 : incl picked0 filtered).
    { unfold picked0, anchor. destruct (find_ _ filtered) as [a |] eqn:E.
      - intros x [<- | []]. apply (find__In _ _ _ E).
      - destruct filtered as [| a rest]; simpl.
        + intros x [].
        + intros x [<- | []]. left. reflexivity. }
    destruct (wishes_fold filtered poolPrimary poolRelaxed
                (walkPool_incl _ _ _ _) (walkPool_incl _ _ _ _) Hnd
                (tl want) picked0 Hp0) as (Hgrow & _ & Hwish).
    assert (Hfold : exists q,
              In q (fold_left (wishStep poolPrimary poolRelaxed filtered)
                      (tl want) picked0) /\
              pickCategory (types q) = cat).
    { destruct want as [| c rest]; [destruct Hwant |].
      destruct Hwant as [<- | Hwant]; [| exact (Hwish cat p Hwant Hin Hcat)].
      unfold picked0, anchor in Hgrow. cbn [hd_error] in Hgrow.
      destruct (find_ _ filtered) as [a |] eqn:E.
      - exists a. split; [apply Hgrow; left; reflexivity |].
        unfold find_ in E. apply find_some in E. destruct E as [_ E].
        apply Category_eqb_eq. exact E.
      - unfold find_ in E. pose proof (find_none _ _ E p Hin) as Hnone.
        cbv beta in Hnone. rewrite Hcat in Hnone.
        destruct c; discriminate Hnone. }
    destruct Hfold as (q & Hq & Hqc). exists q. split; [| exact Hqc].
    do 3 apply fillFrom_grows. exact Hq. }
  destruct Hgoal as (q & Hq & Hqc). exists q.
  split; [exact Hq |]. split; [apply (pickStops_incl _ _ _ _ q Hq) | exact Hqc].
Qed.

End Wishes3.

Lemma pickStops_honours_wishes_witness :
  exists q,
    In q (pickStops [Sample.placeB; Sample.placeC] [attraction; food] false 2)
    /\ In q [Sample.placeB; Sample.placeC]
    /\ pickCategory (types q) = attraction.
Proof.
  apply (pickStops_honours_wishes [Sample.placeB; Sample.placeC]
           [attraction; food] false 2 attraction Sample.placeB).
  - repeat constructor; simpl; intuition discriminate.
  - left. reflexivity.
  - left. reflexivity.
  - reflexivity.
Defined.

(** ** Park-once plans: where the parking place comes from *)

Section ParkingOrigin.

Variable P : Provider.

(** The items of an answered plan are assembled from its open stops and
    the legs between them. *)
Lemma plan_items_inv (key : option string) (body : Req.Body)
    (plan : PlanResponse) :
  POST P key body = Json plan ->
  exists durationAt stops travelMins,
    stops <> [] /\
    computeTravelMins P (parkOnce plan)
      (lookupParkOnce P (parkOnce plan) (destination plan) stops)
      (bufferMinutes plan) stops = Next travelMins /\
    items plan
    = assembleItems durationAt (parkOnce plan)
        (lookupParkOnce P (parkOnce plan) (destination plan) stops) stops
        travelMins.
Proof.
  intros H. destruct (actionOf body =? "swap") eqn:Ha.
  - apply String.eqb_eq in Ha.
    destruct (swap_plan_inv P key body plan Ha H)
      as (centerLat & centerLng & replacement & Hacc & _ & Hre).
    unfold swapRebuildOf in Hre. apply swapRebuild_Next in Hre.
    destruct Hre as (stops & travelMins & Hstops & Hlegs & Hplan).
    injection Hplan as ->. cbn [items bufferMinutes parkOnce destination].
    assert (Hlen : (2 <= List.length stops)%nat).
    { rewrite <- (length_map placeId stops),
        (enrichAll_placeIds P _ _ _ Hstops), length_map.
      unfold swapNextStops. rewrite nextStopsOf_length.
      exact (swapAccepted_stops _ _ _ Hacc). }
    eexists _, stops, travelMins.
    split; [intros ->; simpl in Hlen; lia |].
    split; [exact Hlegs | reflexivity].
  - destruct (fresh_plan_inv P key body plan Ha H) as (stops & _ & Hstops & Hfin).
    unfold freshFinishOf in Hfin. apply freshFinish_Next in Hfin.
    destruct Hfin as (travelMins & Hlegs & Hplan).
    injection Hplan as ->. cbn [items bufferMinutes parkOnce destination].
    unfold freshStopsOf in Hstops.
    pose proof (freshStops_length P _ _ _ _ _ _ _ Hstops) as [Hlen _].
    eexists _, stops, travelMins.
    split; [intros ->; simpl in Hlen; lia |].
    split; [exact Hlegs | reflexivity].
Qed.

(** A parking place that is shown has both coordinates. *)
Lemma parkingShown_Some (parkOnce : bool)
    (parkOnceLocation : option ParkingOption) (pk : ParkingOption)
    (pLat pLng : Q) :
  parkingShown parkOnce parkOnceLocation = Some (pk, pLat, pLng) ->
  parkOnce = true /\ parkOnceLocation = Some pk /\
  pkLat pk = Some pLat /\ pkLng pk = Some pLng.
Proof.
  unfold parkingShown. destruct parkOnce; [| discriminate].
  destruct parkOnceLocation as [pk' |]; [| discriminate].
  destruct (pkLat pk') as [la |] eqn:Ela; [| discriminate].
  destruct (pkLng pk') as [lo |] eqn:Elo; [| discriminate].
  intros H. injection H as <- <- <-. auto.
Qed.

(** The parking place of [tryParking] is the first place its search
    finds. *)
Lemma tryParking_origin (placeTitle destinationLabel : string)
    (pk : ParkingOption) :
  tryParking P placeTitle destinationLabel = Some pk ->
  exists best more,
    placesSearchText P
      (Text ("parking near " ++ placeTitle ++ " " ++ destinationLabel)) 5
    = Ok (best :: more) /\
    pkPlaceId pk = id best /\
    pkName pk = nullish (displayName best) "Parking" /\
    pkLat pk = option_map latitude (location best) /\
    pkLng pk = option_map longitude (location best).
Proof.
  unfold tryParking, findParkingNear, searchPlacesText.
  destruct (placesSearchText P _ 5) as [results | msg]; [| discriminate].
  destruct results as [| best more]; [discriminate |].
  unfold enrichParkingMapsUri. cbn [pkPlaceId].
  intros H. exists best, more. split; [reflexivity |].
  destruct (truthy (id best)).
  - destruct (getPlaceDetails P (nullish (id best) ""));
      injection H as <-; repeat split; reflexivity.
  - injection H as <-. repeat split; reflexivity.
Qed.

(** X25. Where the parking place of a walked plan comes from.  A plan
    with a walked leg is a park-once plan that opens with the parking
    pseudo-stop, and the pseudo-stop is the first place the provider
    finds for the words "parking near", the title of the first stop and
    the destination: it has that place's id, name and coordinates. *)
Theorem walked_plan_parking_origin (key : option string) (body : Req.Body)
    (plan : PlanResponse) :
  POST P key body = Json plan ->
  In WALK (travelModes (items plan)) ->
  parkOnce plan = true /\
  exists pk pLat pLng rest firstStop best more,
    items plan = parkOnceItem pk pLat pLng :: rest /\
    nth_error (planStops rest) 0 = Some firstStop /\
    placesSearchText P
      (Text ("parking near " ++ title firstStop ++ " " ++ destination plan)) 5
    = Ok (best :: more) /\
    location best = Some {| latitude := pLat; longitude := pLng |} /\
    pkPlaceId pk = id best /\
    pkName pk = nullish (displayName best) "Parking".
Proof.
  intros H Hwalk.
  destruct (plan_items_inv key body plan H)
    as (durationAt & stops & travelMins & Hne & Hlegs & Hitems).
  rewrite Hitems in *. clear Hitems. unfold assembleItems in *.
  destruct (computeTravelMins_shape P _ _ _ _ _ Hne Hlegs)
    as (legs & Hlen & _ & Hform).
  destruct (parkingShown (parkOnce plan)
              (lookupParkOnce P (parkOnce plan) (destination plan) stops))
    as [[[pk pLat] pLng] |] eqn:Hshown.
  - apply parkingShown_Some in Hshown.
    destruct Hshown as (Hpark & Hlook & Hlat & Hlng).
    split; [exact Hpark |].
    destruct Hform as (first & _ & ->).
    destruct stops as [| firstStop others]; [contradiction Hne; reflexivity |].
    unfold lookupParkOnce in Hlook. rewrite Hpark in Hlook.
    apply tryParking_origin in Hlook.
    destruct Hlook as (best & more & Hsearch & Hid & Hname & Hla & Hlo).
    exists pk, pLat, pLng. eexists. exists firstStop, best, more.
    split; [reflexivity |]. split.
    { cbn [app]. rewrite (walkItems_weave _ _ _ _ Hlen).
      change (nth_error
                (planStops
                   (weave WALK "Walk to " durationAt 0 (firstStop :: others)
                      legs)) 0 = Some firstStop).
      rewrite weave_planStops. reflexivity. }
    split; [exact Hsearch |]. split; [| split; [exact Hid | exact Hname]].
    rewrite Hlat in Hla. rewrite Hlng in Hlo.
    destruct (location best) as [[la lo] |]; [| discriminate Hla].
    cbn in Hla, Hlo. injection Hla as ->. injection Hlo as ->. reflexivity.
  - exfalso.
    pose proof (travelModes_driveItems durationAt stops travelMins) as Hdrive.
    rewrite Forall_forall in Hdrive. specialize (Hdrive WALK Hwalk).
    discriminate Hdrive.
Qed.

End ParkingOrigin.

Section WalkedSample.

Lemma walked_pool :
  swapPoolOf Walked.provider Walked.body 49.28 (-123.12) = [Sample.placeC].
Proof.
  change (swapFiltered [Sample.placeC]
            (excludeIdsOf (swapStopsInput Walked.body) "B") attraction
            Sample.center 2.0%R false = [Sample.placeC]).
  apply swapFiltered_single; try reflexivity. lra.
Qed.

Lemma walked_swap_answer :
  POST Walked.provider Sample.key Walked.body = Json Walked.plan.
Proof.
  unfold POST.
  replace (trim (nullish (Req.action Walked.body) "") =? "swap") with true
    by reflexivity.
  rewrite (swapBranch_accepted _ Sample.key Walked.body 49.28 (-123.12)
             eq_refl).
  rewrite walked_pool. vm_compute. reflexivity.
Qed.

End WalkedSample.

Lemma walked_plan_parking_origin_witness :
  parkOnce Walked.plan = true /\
  exists pk pLat pLng rest firstStop best more,
    items Walked.plan = parkOnceItem pk pLat pLng :: rest /\
    nth_error (planStops rest) 0 = Some firstStop /\
    placesSearchText Walked.provider
      (Text ("parking near " ++ title firstStop ++ " "
             ++ destination Walked.plan)) 5
    = Ok (best :: more) /\
    location best = Some {| latitude := pLat; longitude := pLng |} /\
    pkPlaceId pk = id best /\
    pkName pk = nullish (displayName best) "Parking".
Proof.
  apply (walked_plan_parking_origin Walked.provider Sample.key Walked.body
           Walked.plan).
  - apply walked_swap_answer.
  - vm_compute. tauto.
Defined.
